(** * trap: graceful-shutdown callbacks driven by OS signals

    A shallow embedding of [trap.go].  The package keeps four globals:
    the callback registry [cbsList] (a map from signal to a pointer to a
    [container/list] list), the channel [ch], the mutex [mux] and the wait
    group [wait].  They become the fields of one [State] record that every
    function of the package threads through.

    The registry holds pointers: the closure returned by [OnSignal] keeps
    the list it pushed to and the element it created, also after
    [processSignal] has put a new list in the map.  List objects therefore
    live in a store ([heap]) and the map holds their addresses.

    Callbacks are opaque [func()] values.  They are named by a number, and
    calling one appends an event to [trace]; so do the mutex, the signal
    package, the printing functions and [os.Exit].  A callback does not call
    back into the package: [processSignal] holds [mux] while it runs the
    callbacks, and a callback that registered or removed would wait for the
    mutex forever.

    [OnSignal], a remover and [processSignal] each hold [mux] from their
    first statement to their last, so they are atomic with respect to each
    other and a history of the package is a sequence of them ([Op], [run]).
    The dispatcher goroutine takes its turns as [OpLoop]; inside [Deferrer]
    it runs when the main goroutine waits for it, on a full buffer and in
    [wait.Wait()].  [OnKill] is three calls of [OnSignal]; a history in
    which the dispatcher runs between them has three [OpOnSignal]. *)

From stdpp Require Import gmap list strings.
From Stdlib Require Import ZArith.

(** ** Signals *)

(** [syscall.Signal] is an integer type; the numbers are those of Linux. *)
Definition SIGINT : Z := 2.
Definition SIGQUIT : Z := 3.
Definition SIGKILL : Z := 9.
Definition SIGUSR1 : Z := 10.

(** The [case syscall.SIGKILL, syscall.SIGINT, syscall.SIGQUIT] of
    [processSignal]. *)
Definition is_termination (s : Z) : bool :=
  bool_decide (s = SIGKILL ∨ s = SIGINT ∨ s = SIGQUIT).

(** ** Callbacks, list elements, events *)

Definition Callback := nat.

(** What an [interface{}] slot of a list element can hold: a [Callback], or
    anything else (on which the type assertion [e.Value.(Callback)] fails). *)
Inductive IValue :=
| VCallback (cb : Callback)
| VOther.

(** A [*list.Element]: its identity and its [Value]. *)
Record Element := mkElement { el_id : nat; Value : IValue }.

Inductive Event :=
| EvLock                                  (* mux.Lock() *)
| EvUnlock                                (* mux.Unlock() *)
| EvNotify (sig : Z)                      (* signal.Notify(ch, sig) *)
| EvStop                                  (* signal.Stop(ch) *)
| EvCall (s : Z) (e : nat) (cb : Callback) (* cb(), for element e, processing s *)
| EvPrintf (format : string) (args : list string)
| EvPrintStack                            (* debug.PrintStack() *)
| EvClose                                 (* close(ch) *)
| EvDone                                  (* wait.Done() *)
| EvExit (code : Z)                       (* os.Exit(code) *)
| EvPanic (msg : string).                 (* a run-time panic *)

Global Instance IValue_eq_dec : EqDecision IValue.
Proof. solve_decision. Defined.
Global Instance Element_eq_dec : EqDecision Element.
Proof. solve_decision. Defined.
Global Instance Event_eq_dec : EqDecision Event.
Proof. solve_decision. Defined.

(** ** The package state *)

Record State := mkState {
  cbsList : gmap Z nat;            (* map[os.Signal]*list.List *)
  heap : gmap nat (list Element);  (* the list objects, front to back *)
  next_list : nat;                 (* next fresh list address *)
  next_elem : nat;                 (* next fresh element identity *)
  ch : list Z;                     (* buffered signals, oldest first *)
  ch_closed : bool;
  notified : gset Z;               (* signals the OS relays to ch *)
  wait : nat;                      (* WaitGroup counter *)
  trace : list Event               (* oldest first *)
}.

Definition set_cbsList (m : gmap Z nat) (st : State) : State :=
  mkState m (heap st) (next_list st) (next_elem st) (ch st) (ch_closed st)
          (notified st) (wait st) (trace st).
Definition set_heap (h : gmap nat (list Element)) (st : State) : State :=
  mkState (cbsList st) h (next_list st) (next_elem st) (ch st) (ch_closed st)
          (notified st) (wait st) (trace st).
Definition set_next_list (n : nat) (st : State) : State :=
  mkState (cbsList st) (heap st) n (next_elem st) (ch st) (ch_closed st)
          (notified st) (wait st) (trace st).
Definition set_next_elem (n : nat) (st : State) : State :=
  mkState (cbsList st) (heap st) (next_list st) n (ch st) (ch_closed st)
          (notified st) (wait st) (trace st).
Definition set_ch (q : list Z) (st : State) : State :=
  mkState (cbsList st) (heap st) (next_list st) (next_elem st) q (ch_closed st)
          (notified st) (wait st) (trace st).
Definition set_ch_closed (b : bool) (st : State) : State :=
  mkState (cbsList st) (heap st) (next_list st) (next_elem st) (ch st) b
          (notified st) (wait st) (trace st).
Definition set_notified (n : gset Z) (st : State) : State :=
  mkState (cbsList st) (heap st) (next_list st) (next_elem st) (ch st)
          (ch_closed st) n (wait st) (trace st).
Definition set_wait (n : nat) (st : State) : State :=
  mkState (cbsList st) (heap st) (next_list st) (next_elem st) (ch st)
          (ch_closed st) (notified st) n (trace st).
Definition log (ev : Event) (st : State) : State :=
  mkState (cbsList st) (heap st) (next_list st) (next_elem st) (ch st)
          (ch_closed st) (notified st) (wait st) (trace st ++ [ev]).

(** [init]: an empty registry, an open channel of capacity 3, and the
    dispatcher goroutine started ([wait.Add(1)]). *)
Definition cap_ch : nat := 3.

Definition init : State :=
  mkState ∅ ∅ 0 0 [] false ∅ 1 [].

(** ** container/list *)

(** [list.New()] *)
Definition list_New (st : State) : nat * State :=
  let l := next_list st in
  (l, set_next_list (S l) (set_heap (<[l := []]> (heap st)) st)).

(** [l.PushBack(v)] *)
Definition PushBack (l : nat) (v : IValue) (st : State) : nat * State :=
  let e := next_elem st in
  (e, set_next_elem (S e)
        (set_heap (alter (λ xs, xs ++ [mkElement e v]) l (heap st)) st)).

(** [l.Remove(e)]: unlinks [e] when [e] is still an element of [l], and does
    nothing otherwise. *)
Definition Remove (l e : nat) (st : State) : State :=
  set_heap (alter (filter (λ x, el_id x ≠ e)) l (heap st)) st.

(** ** sync, os/signal *)

Definition mux_Lock (st : State) : State := log EvLock st.
Definition mux_Unlock (st : State) : State := log EvUnlock st.

Definition signal_Notify (sig : Z) (st : State) : State :=
  log (EvNotify sig) (set_notified ({[sig]} ∪ notified st) st).

Definition signal_Stop (st : State) : State :=
  log EvStop (set_notified ∅ st).

Definition wait_Done (st : State) : State :=
  log EvDone (set_wait (pred (wait st)) st).

(** ** processSignal *)

(** The body of the loop over the elements. *)
Definition invoke (s : Z) (x : Element) (st : State) : State :=
  match Value x with
  | VCallback cb => log (EvCall s (el_id x) cb) st
  | VOther => log (EvPrintf "trap error: list item not a callback" []) st
  end.

(** [for e := cbs.Back(); e != nil; e = e.Prev()]: the last element first. *)
Definition back_to_front (s : Z) (xs : list Element) (st : State) : State :=
  foldr (invoke s) st xs.

(** [cbsList[sig] = list.New()] *)
Definition assign_New (sig : Z) (st : State) : State :=
  let '(l, st) := list_New st in
  set_cbsList (<[sig := l]> (cbsList st)) st.

(** The three assignments of the [switch]. *)
Definition truncate (st : State) : State :=
  assign_New SIGQUIT (assign_New SIGINT (assign_New SIGKILL st)).

Definition processSignal (s : Z) (st : State) : State :=
  let st := mux_Lock st in
  match cbsList st !! s with
  | None => mux_Unlock st
  | Some cbs =>
      let st := if is_termination s then truncate st else st in
      let st := back_to_front s (default [] (heap st !! cbs)) st in
      mux_Unlock st
  end.

(** ** OnSignal, OnReload, OnKill and the removers *)

(** The two closures the package returns, with what they capture. *)
Unset Elimination Schemes.
Inductive CallbackRemover :=
| RemoverOnSignal (l e : nat)
| RemoverOnKill (rfns : list CallbackRemover).
Set Elimination Schemes.

Fixpoint call_remover (r : CallbackRemover) (st : State) : State :=
  match r with
  | RemoverOnSignal l e => mux_Unlock (Remove l e (mux_Lock st))
  | RemoverOnKill rfns => fold_left (λ st dfn, call_remover dfn st) rfns st
  end.

Definition OnSignal (sig : Z) (cb : Callback) (st : State)
  : CallbackRemover * State :=
  let st := mux_Lock st in
  let '(l, st) :=
    match cbsList st !! sig with
    | Some l => (l, st)
    | None =>
        let st := signal_Notify sig st in
        let '(l, st) := list_New st in
        (l, set_cbsList (<[sig := l]> (cbsList st)) st)
    end in
  let '(e, st) := PushBack l (VCallback cb) st in
  (RemoverOnSignal l e, mux_Unlock st).

Definition OnReload (cb : Callback) (st : State) : CallbackRemover * State :=
  OnSignal SIGUSR1 cb st.

Definition OnKill (cb : Callback) (st : State) : CallbackRemover * State :=
  let rfns := [] in
  let '(r, st) := OnSignal SIGKILL cb st in
  let rfns := rfns ++ [r] in
  let '(r, st) := OnSignal SIGQUIT cb st in
  let rfns := rfns ++ [r] in
  let '(r, st) := OnSignal SIGINT cb st in
  let rfns := rfns ++ [r] in
  (RemoverOnKill rfns, st).

(** ** The dispatcher goroutine *)

(** One pass through the body of the [for] loop of the goroutine started by
    [init].  With nothing buffered and the channel open the receive blocks
    (the state is returned as it is); once the goroutine has returned
    ([wait] is 0) there is no loop any more. *)
Definition loop_iter (st : State) : State :=
  match wait st with
  | 0 => st
  | S _ =>
      match ch st with
      | s :: q => processSignal s (set_ch q st)
      | [] => if ch_closed st then wait_Done st else st
      end
  end.

Fixpoint run_loop (n : nat) (st : State) : State :=
  match n with
  | 0 => st
  | S n => run_loop n (loop_iter st)
  end.

(** The signal package relaying a signal of the OS: a send that never
    blocks, to the channel registered by [signal.Notify]. *)
Definition deliver (s : Z) (st : State) : State :=
  if bool_decide (s ∈ notified st) then
    if ch_closed st then log (EvPanic "send on closed channel") st
    else if length (ch st) <? cap_ch then set_ch (ch st ++ [s]) st
    else st
  else st.

(** ** Deferrer *)

Inductive Outcome :=
| Returned
| Exited (code : Z)
| Panicked (msg : string)
| Blocked.

Inductive SendResult :=
| Sent (st : State)
| SendPanics
| SendBlocks (st : State).

(** [ch <- s].  On a full buffer the sender waits for the dispatcher to
    receive. *)
Definition chan_send (s : Z) (st : State) : SendResult :=
  if ch_closed st then SendPanics
  else
    let st := run_loop (S (length (ch st)) - cap_ch) st in
    if length (ch st) <? cap_ch then Sent (set_ch (ch st ++ [s]) st)
    else SendBlocks st.

Definition chan_close (st : State) : State :=
  log EvClose (set_ch_closed true st).

(** [wait.Wait()]: the dispatcher drains what is buffered and returns. *)
Definition wait_Wait (st : State) : State :=
  run_loop (S (length (ch st))) st.

(** The body of [if err := recover(); err != nil], short of its [defer]. *)
Definition report (err : option string) (st : State) : State :=
  match err with
  | Some e =>
      log EvPrintStack
        (log (EvPrintf "Panic received, attempting gracefull exit\nError:\n%s" [e]) st)
  | None => st
  end.

(** [err] is what [recover()] returns: [Some] while a panic unwinds. *)
Definition Deferrer (err : option string) (st : State) : Outcome * State :=
  let st := report err st in
  (* [defer os.Exit(1)]: runs when the function is left, if [err] is set *)
  let deferred (o : Outcome) (st : State) :=
    match err with
    | Some _ => (Exited 1, log (EvExit 1) st)
    | None => (o, st)
    end in
  let st := signal_Stop st in
  match chan_send SIGINT st with
  | SendPanics => deferred (Panicked "send on closed channel") st
  | SendBlocks st => (Blocked, st)
  | Sent st =>
      let st := chan_close st in
      let st := wait_Wait st in
      match wait st with
      | 0 => deferred Returned st
      | S _ => (Blocked, st)
      end
  end.

(** ** Histories *)

(** What can happen to the package: the program calls its functions or a
    remover it holds, the OS delivers a signal, the dispatcher goroutine
    runs one iteration of its loop. *)
Inductive Op :=
| OpOnSignal (sig : Z) (cb : Callback)
| OpOnReload (cb : Callback)
| OpOnKill (cb : Callback)
| OpRemove (r : CallbackRemover)
| OpDeliver (s : Z)
| OpLoop
| OpDeferrer (err : option string).

Definition step (op : Op) (st : State) : State :=
  match op with
  | OpOnSignal sig cb => snd (OnSignal sig cb st)
  | OpOnReload cb => snd (OnReload cb st)
  | OpOnKill cb => snd (OnKill cb st)
  | OpRemove r => call_remover r st
  | OpDeliver s => deliver s st
  | OpLoop => loop_iter st
  | OpDeferrer err => snd (Deferrer err st)
  end.

Definition run (ops : list Op) (st : State) : State :=
  fold_left (λ st op, step op st) ops st.

(** Handing a list of signals to [processSignal], in order. *)
Definition dispatch_all (sigs : list Z) (st : State) : State :=
  fold_left (λ st s, processSignal s st) sigs st.

(** ** Observations *)

(** The callback list of a signal, as [cbsList[s]] shows it. *)
Definition lists (st : State) (s : Z) : option (list Element) :=
  l ← cbsList st !! s; heap st !! l.

(** What [f] appended to the trace, for [st' = f st]. *)
Definition new_events (st st' : State) : list Event :=
  drop (length (trace st)) (trace st').

(** The events of dispatching [sigs] from [st]. *)
Definition dispatch_events (sigs : list Z) (st : State) : list Event :=
  new_events st (dispatch_all sigs st).

(** The events a dispatch can log. *)
Definition is_dispatch_event (ev : Event) : bool :=
  match ev with
  | EvLock | EvUnlock | EvCall _ _ _ | EvPrintf _ _ => true
  | _ => false
  end.

Definition logs (evs : list Event) (st : State) : State :=
  mkState (cbsList st) (heap st) (next_list st) (next_elem st) (ch st)
          (ch_closed st) (notified st) (wait st) (trace st ++ evs).

Definition call_event (s : Z) (x : Element) : Event :=
  match Value x with
  | VCallback cb => EvCall s (el_id x) cb
  | VOther => EvPrintf "trap error: list item not a callback" []
  end.

(** The callbacks invoked, in order. *)
Definition called (evs : list Event) : list Callback :=
  omap (λ ev, match ev with EvCall _ _ cb => Some cb | _ => None end) evs.

(** The elements whose callback was invoked, in order. *)
Definition called_elems (evs : list Event) : list nat :=
  omap (λ ev, match ev with EvCall _ e _ => Some e | _ => None end) evs.

(** The elements invoked by the dispatch of a termination signal. *)
Definition terminated_elems (evs : list Event) : list nat :=
  omap (λ ev, match ev with
              | EvCall s e _ => if is_termination s then Some e else None
              | _ => None
              end) evs.

Definition callbacks (xs : list Element) : list Callback :=
  omap (λ x, match Value x with VCallback cb => Some cb | VOther => None end) xs.


Definition is_call (ev : Event) : bool :=
  match ev with EvCall _ _ _ => true | _ => false end.

(** Whether every callback of [evs] is invoked with the mutex free
    ([calls_unlocked]) or with the mutex held ([calls_locked]); [held] says
    whether the mutex is held when [evs] starts. *)
Fixpoint calls_unlocked (held : bool) (evs : list Event) : bool :=
  match evs with
  | [] => true
  | EvLock :: evs => calls_unlocked true evs
  | EvUnlock :: evs => calls_unlocked false evs
  | EvCall _ _ _ :: evs => negb held && calls_unlocked held evs
  | _ :: evs => calls_unlocked held evs
  end.

Fixpoint calls_locked (held : bool) (evs : list Event) : bool :=
  match evs with
  | [] => true
  | EvLock :: evs => calls_locked true evs
  | EvUnlock :: evs => calls_locked false evs
  | EvCall _ _ _ :: evs => held && calls_locked held evs
  | _ :: evs => calls_locked held evs
  end.

(** The states of the dispatcher loop. *)
Inductive Phase := Running | Draining | Stopped.

Definition phase (st : State) : Phase :=
  match wait st with
  | 0 => Stopped
  | S _ => if ch_closed st then Draining else Running
  end.

(** [st'] comes after [st]: the wait group has not grown, a closed channel
    is still closed, the trace has only been added to, and, if the
    dispatcher had already returned in [st], without any callback. *)
Definition later (st st' : State) : Prop :=
  wait st' ≤ wait st
  ∧ (ch_closed st = true → ch_closed st' = true)
  ∧ ∃ evs, trace st' = trace st ++ evs
           ∧ (wait st = 0 → Forall (λ ev, is_call ev = false) evs).

(** A program that registers callbacks on one signal and calls removers it
    was given: [Unregister k] calls the remover returned by registration
    number [k] (counted from 0), if there has been one.  [hs] holds the
    removers returned so far. *)
Inductive RegOp :=
| Register (cb : Callback)
| Unregister (k : nat).

Fixpoint run_reg (sig : Z) (rops : list RegOp) (hs : list CallbackRemover)
    (st : State) : State :=
  match rops with
  | [] => st
  | Register cb :: rops =>
      let '(h, st) := OnSignal sig cb st in run_reg sig rops (hs ++ [h]) st
  | Unregister k :: rops =>
      match hs !! k with
      | Some h => run_reg sig rops hs (call_remover h st)
      | None => run_reg sig rops hs st
      end
  end.

(** The callbacks registered by [rops] and not removed, in the order of
    their registration; [regs] holds the registrations so far, [None] for
    those removed. *)
Fixpoint remaining (rops : list RegOp) (regs : list (option Callback))
  : list Callback :=
  match rops with
  | [] => omap id regs
  | Register cb :: rops => remaining rops (regs ++ [Some cb])
  | Unregister k :: rops => remaining rops (<[k := None]> regs)
  end.

(** The elements of the registrations [regs], whose identities are [es]. *)
Definition registered (es : list nat) (regs : list (option Callback))
  : list Element :=
  omap (λ p, (λ cb, mkElement p.1 (VCallback cb)) <$> p.2) (zip es regs).

(** Whether [op] registers a callback for [sig], and whether some operation
    of a history does. *)
Definition registers (sig : Z) (op : Op) : bool :=
  match op with
  | OpOnSignal s _ => bool_decide (s = sig)
  | OpOnReload _ => bool_decide (sig = SIGUSR1)
  | OpOnKill _ => is_termination sig
  | _ => false
  end.

Definition ever_registered (sig : Z) (ops : list Op) : bool :=
  existsb (registers sig) ops.

(** From [st] to [st'] no entry of the map was removed, and an entry was
    added only for a termination signal, some termination signal having had
    a list. *)
Definition grows (st st' : State) : Prop :=
  ∀ sig,
    (is_Some (cbsList st !! sig) → is_Some (cbsList st' !! sig))
    ∧ (is_Some (cbsList st' !! sig) →
       is_Some (cbsList st !! sig)
       ∨ (is_termination sig = true
          ∧ ∃ t, is_termination t = true ∧ is_Some (cbsList st !! t))).

(** The pairs of a list and an element that a remover unlinks. *)
Fixpoint targets (r : CallbackRemover) : list (nat * nat) :=
  match r with
  | RemoverOnSignal l e => [(l, e)]
  | RemoverOnKill rfns => flat_map targets rfns
  end.

(** Element [e] was created on list [l] for signal [sig] with callback
    [cb]: it is on no other list and holds no other value, [l] is the list
    of no other signal, and [e] was invoked only for [sig] and with [cb]. *)
Definition belongs (e l : nat) (sig : Z) (cb : Callback) (st : State) : Prop :=
  e < next_elem st ∧ l < next_list st
  ∧ (∀ s, cbsList st !! s = Some l → s = sig)
  ∧ (∀ l' xs x, heap st !! l' = Some xs → x ∈ xs → el_id x = e →
       l' = l ∧ Value x = VCallback cb)
  ∧ (∀ s cb', EvCall s e cb' ∈ trace st → s = sig ∧ cb' = cb).

(** Element [e] is in no list, and it was invoked only in [tr]. *)
Definition unlinked (tr : list Event) (e : nat) (st : State) : Prop :=
  e < next_elem st
  ∧ (∀ s cb, EvCall s e cb ∈ trace st → EvCall s e cb ∈ tr)
  ∧ ∀ l xs x, heap st !! l = Some xs → x ∈ xs → el_id x ≠ e.

(** The events that neither print nor call [signal.Notify]. *)
Definition is_quiet (ev : Event) : bool :=
  match ev with
  | EvPrintf _ _ | EvNotify _ => false
  | _ => true
  end.

(** The signals for which [signal.Notify] was called, in order. *)
Definition notifies (evs : list Event) : list Z :=
  omap (λ ev, match ev with EvNotify sig => Some sig | _ => None end) evs.

(** From [st] to [st'] the trace was added to, by quiet events only. *)
Definition quiet (st st' : State) : Prop :=
  ∃ evs, trace st' = trace st ++ evs ∧ Forall (λ ev, is_quiet ev = true) evs.

(** ** Well-formed states *)

(** The registry part: what allocation guarantees in Go.  Every list in the
    map is allocated, distinct signals have distinct lists, addresses and
    element identities are below the allocation counters, an element occurs
    once, and every [Value] is a [Callback]. *)
Record wf_reg (st : State) : Prop := mk_wf_reg {
  wf_map : ∀ s l, cbsList st !! s = Some l → is_Some (heap st !! l);
  wf_heap : ∀ l xs, heap st !! l = Some xs → l < next_list st;
  wf_inj : ∀ s1 s2 l,
      cbsList st !! s1 = Some l → cbsList st !! s2 = Some l → s1 = s2;
  wf_elems : ∀ l xs x, heap st !! l = Some xs → x ∈ xs → el_id x < next_elem st;
  wf_nodup : ∀ l xs, heap st !! l = Some xs → NoDup (el_id <$> xs);
  wf_values : ∀ l xs x, heap st !! l = Some xs → x ∈ xs → Value x ≠ VOther
}.

(** The trace part: only allocated elements have been invoked, no element
    was invoked twice by termination dispatches, and the lists now in the
    map under SIGKILL, SIGINT and SIGQUIT hold no element that was. *)
Record wf_tr (st : State) : Prop := mk_wf_tr {
  wf_trace : ∀ e, e ∈ called_elems (trace st) → e < next_elem st;
  wf_once : NoDup (terminated_elems (trace st));
  wf_live : ∀ s l xs x,
      is_termination s = true → cbsList st !! s = Some l →
      heap st !! l = Some xs → x ∈ xs →
      el_id x ∉ terminated_elems (trace st)
}.

(** The channel part, between two calls of the package: the buffer is
    within its capacity, and the dispatcher is alive exactly as long as the
    channel is open. *)
Record wf_ch (st : State) : Prop := mk_wf_ch {
  wf_chan : length (ch st) ≤ cap_ch;
  wf_wait : wait st = if ch_closed st then 0 else 1
}.

Definition wf (st : State) : Prop := wf_reg st ∧ wf_tr st ∧ wf_ch st.

(** ** Termination callbacks still to run *)

(** The operations that are not calls of the program: the OS delivers a
    signal, or the dispatcher goroutine runs. *)
Definition is_arrival (op : Op) : bool :=
  match op with
  | OpDeliver _ | OpLoop => true
  | _ => false
  end.

(** The callbacks invoked so far, followed by those a dispatch of any of
    SIGKILL, SIGINT and SIGQUIT would invoke now, are [cbs] from the last to
    the first. *)
Definition pending (cbs : list Callback) (st : State) : Prop :=
  ∀ t, is_termination t = true →
    called (trace st) ++ reverse (callbacks (default [] (lists st t)))
    = reverse cbs.

(** The same up to the order: every callback of [cbs] has either been
    invoked or is on each of the three lists, once. *)
Definition owed (cbs : list Callback) (st : State) : Prop :=
  ∀ t, is_termination t = true →
    called (trace st) ++ callbacks (default [] (lists st t)) ≡ₚ cbs.

(** The package while only [OnKill] has registered: the channel is open,
    and only termination signals are relayed and buffered. *)
Definition armed (st : State) : Prop :=
  wf st ∧ ch_closed st = false
  ∧ Forall (λ s, is_termination s = true) (ch st)
  ∧ (∀ s, s ∈ notified st → is_termination s = true).

(** Whole calls of [OnKill], and arrivals. *)
Definition is_kill_or_arrival (op : Op) : bool :=
  match op with
  | OpOnKill _ | OpDeliver _ | OpLoop => true
  | _ => false
  end.

(** The callbacks a history registers with [OnKill], in order. *)
Definition kills (ops : list Op) : list Callback :=
  omap (λ op, match op with OpOnKill cb => Some cb | _ => None end) ops.

(** ** Basic facts *)

(** Reduces the projections of updated states, and nothing else. *)
Ltac st_simpl :=
  cbn [cbsList heap next_list next_elem ch ch_closed notified wait trace
       set_cbsList set_heap set_next_list set_next_elem set_ch set_ch_closed
       set_notified set_wait log logs mux_Lock mux_Unlock signal_Notify
       signal_Stop wait_Done chan_close list_New PushBack Remove assign_New
       truncate fst snd].

Lemma State_eq st st' :
  cbsList st = cbsList st' → heap st = heap st' →
  next_list st = next_list st' → next_elem st = next_elem st' →
  ch st = ch st' → ch_closed st = ch_closed st' →
  notified st = notified st' → wait st = wait st' → trace st = trace st' →
  st = st'.
Proof. destruct st, st'; cbn. by intros -> -> -> -> -> -> -> -> ->. Qed.

Lemma log_logs ev st : log ev st = logs [ev] st.
Proof. reflexivity. Qed.

Lemma logs_logs evs1 evs2 st : logs evs2 (logs evs1 st) = logs (evs1 ++ evs2) st.
Proof. unfold logs; simpl. by rewrite <- (assoc_L (++)). Qed.

Lemma logs_nil st : logs [] st = st.
Proof. destruct st; unfold logs; simpl. by rewrite app_nil_r. Qed.

Lemma back_to_front_logs s xs st :
  back_to_front s xs st = logs (call_event s <$> reverse xs) st.
Proof.
  unfold back_to_front. induction xs as [|x xs IH]; simpl.
  - by rewrite logs_nil.
  - rewrite IH, reverse_cons, fmap_app, <- logs_logs. simpl.
    unfold invoke, call_event. by destruct (Value x).
Qed.

Lemma new_events_app st st' evs :
  trace st' = trace st ++ evs → new_events st st' = evs.
Proof. unfold new_events. intros ->. by rewrite drop_app_length. Qed.

Lemma new_events_logs st evs : new_events st (logs evs st) = evs.
Proof. by apply new_events_app. Qed.

Lemma cbsList_logs evs st : cbsList (logs evs st) = cbsList st.
Proof. reflexivity. Qed.
Lemma heap_logs evs st : heap (logs evs st) = heap st.
Proof. reflexivity. Qed.
Lemma next_list_logs evs st : next_list (logs evs st) = next_list st.
Proof. reflexivity. Qed.
Lemma next_elem_logs evs st : next_elem (logs evs st) = next_elem st.
Proof. reflexivity. Qed.
Lemma ch_logs evs st : ch (logs evs st) = ch st.
Proof. reflexivity. Qed.
Lemma ch_closed_logs evs st : ch_closed (logs evs st) = ch_closed st.
Proof. reflexivity. Qed.
Lemma notified_logs evs st : notified (logs evs st) = notified st.
Proof. reflexivity. Qed.
Lemma wait_logs evs st : wait (logs evs st) = wait st.
Proof. reflexivity. Qed.
Lemma trace_logs evs st : trace (logs evs st) = trace st ++ evs.
Proof. reflexivity. Qed.

Ltac proj_logs :=
  rewrite ?cbsList_logs, ?heap_logs, ?next_list_logs, ?next_elem_logs,
    ?ch_logs, ?ch_closed_logs, ?notified_logs, ?wait_logs, ?trace_logs.

Lemma truncate_logs evs st : truncate (logs evs st) = logs evs (truncate st).
Proof. apply State_eq; reflexivity. Qed.

Lemma truncate_cbsList st :
  cbsList (truncate st) =
  <[SIGQUIT := S (S (next_list st))]>
    (<[SIGINT := S (next_list st)]> (<[SIGKILL := next_list st]> (cbsList st))).
Proof. reflexivity. Qed.

Lemma truncate_heap st :
  heap (truncate st) =
  <[S (S (next_list st)) := []]>
    (<[S (next_list st) := []]> (<[next_list st := []]> (heap st))).
Proof. reflexivity. Qed.

Lemma truncate_frame st :
  next_list (truncate st) = S (S (S (next_list st)))
  ∧ next_elem (truncate st) = next_elem st
  ∧ ch (truncate st) = ch st ∧ ch_closed (truncate st) = ch_closed st
  ∧ notified (truncate st) = notified st ∧ wait (truncate st) = wait st
  ∧ trace (truncate st) = trace st.
Proof. done. Qed.

Lemma truncate_heap_old st l :
  l < next_list st → heap (truncate st) !! l = heap st !! l.
Proof.
  intros Hl. rewrite truncate_heap.
  rewrite !lookup_insert_ne by lia. done.
Qed.

(** [processSignal] as one update of the registry followed by the events
    it logs. *)
Lemma processSignal_unfold s st :
  processSignal s st =
  match cbsList st !! s with
  | None => logs [EvLock; EvUnlock] st
  | Some cbs =>
      let st1 := if is_termination s then truncate st else st in
      logs (EvLock :: (call_event s <$> reverse (default [] (heap st1 !! cbs)))
              ++ [EvUnlock]) st1
  end.
Proof.
  unfold processSignal, mux_Lock, mux_Unlock.
  replace (cbsList (log EvLock st)) with (cbsList st) by reflexivity.
  destruct (cbsList st !! s) as [cbs|]; [|by rewrite !log_logs, logs_logs].
  cbv zeta. rewrite back_to_front_logs, !log_logs.
  destruct (is_termination s).
  - rewrite truncate_logs, !logs_logs, heap_logs. done.
  - rewrite !logs_logs, heap_logs. done.
Qed.

Lemma processSignal_None s st :
  cbsList st !! s = None → processSignal s st = logs [EvLock; EvUnlock] st.
Proof. intros H. by rewrite processSignal_unfold, H. Qed.

Lemma processSignal_other s st :
  is_termination s = false →
  processSignal s st =
  logs (EvLock :: (call_event s <$> reverse (default [] (lists st s))) ++ [EvUnlock]) st.
Proof.
  intros Hs. rewrite processSignal_unfold, Hs. unfold lists.
  destruct (cbsList st !! s) as [cbs|]; simpl; done.
Qed.

Lemma processSignal_shape s st :
  ∃ xs st1,
    processSignal s st = logs (EvLock :: (call_event s <$> xs) ++ [EvUnlock]) st1
    ∧ trace st1 = trace st ∧ ch st1 = ch st ∧ ch_closed st1 = ch_closed st
    ∧ wait st1 = wait st ∧ notified st1 = notified st
    ∧ next_elem st1 = next_elem st.
Proof.
  rewrite processSignal_unfold.
  destruct (cbsList st !! s) as [cbs|]; [|by exists [], st].
  destruct (is_termination s); simpl; eauto 10.
Qed.

Lemma processSignal_trace s st :
  ∃ xs, trace (processSignal s st)
        = trace st ++ EvLock :: (call_event s <$> xs) ++ [EvUnlock].
Proof.
  destruct (processSignal_shape s st) as (xs & st1 & -> & Ht & _).
  exists xs. simpl. by rewrite Ht.
Qed.

Lemma calls_locked_call_events s xs evs :
  calls_locked true ((call_event s <$> xs) ++ evs) = calls_locked true evs.
Proof.
  induction xs as [|x xs IH]; [done|]. simpl.
  unfold call_event at 1. destruct (Value x); simpl; done.
Qed.

Lemma call_events_no_lock s (xs : list Element) :
  (EvLock ∉ call_event s <$> xs) ∧ (EvUnlock ∉ call_event s <$> xs).
Proof.
  split; intros (x & Hx & _)%list_elem_of_fmap;
    unfold call_event in Hx; by destruct (Value x).
Qed.

(** * Properties of the package *)

(** ** Dispatch of a signal outside the termination class *)

(** C10. Dispatching a signal that is not SIGKILL, SIGINT or SIGQUIT leaves
    the registry as it is: the map and every list are unchanged.  The
    callbacks of its list run last registered first, and every further
    dispatch of the signal runs the same callbacks in the same order.
    Dispatching a signal that has no list changes nothing but the trace, to
    which the lock and the unlock are added. *)
Theorem dispatch_other_frame (st : State) (s : Z) :
  (is_termination s = false →
     let st1 := processSignal s st in
     cbsList st1 = cbsList st ∧ heap st1 = heap st
     ∧ (∀ t, lists st1 t = lists st t)
     ∧ new_events st st1
       = EvLock :: (call_event s <$> reverse (default [] (lists st s))) ++ [EvUnlock]
     ∧ ∀ n, new_events (Nat.iter n (processSignal s) st)
                       (Nat.iter (S n) (processSignal s) st)
            = new_events st st1)
  ∧ (cbsList st !! s = None →
     processSignal s st = logs [EvLock; EvUnlock] st).
Proof.
  split; [|apply processSignal_None].
  intros Hs st1. subst st1.
  assert (Hiter : ∀ n, cbsList (Nat.iter n (processSignal s) st) = cbsList st
                       ∧ heap (Nat.iter n (processSignal s) st) = heap st).
  { induction n as [|n [IH1 IH2]]; [done|].
    simpl. rewrite processSignal_other by done. simpl. done. }
  rewrite processSignal_other by done.
  split_and!; try done.
  - by rewrite new_events_logs.
  - intros n. simpl. rewrite processSignal_other by done.
    rewrite !new_events_logs. destruct (Hiter n) as [H1 H2].
    unfold lists. by rewrite H1, H2.
Qed.

Lemma dispatch_other_frame_witness :
  let st := snd (OnReload 5 (snd (OnReload 4 init))) in
  called (new_events st (processSignal SIGUSR1 st)) = [5; 4]
  ∧ processSignal SIGQUIT st = logs [EvLock; EvUnlock] st.
Proof.
  intros st.
  destruct (dispatch_other_frame st SIGUSR1) as [H _].
  destruct (H eq_refl) as (_ & _ & _ & -> & _).
  split; [reflexivity|].
  apply (dispatch_other_frame st SIGQUIT). reflexivity.
Defined.

(** ** The mutex during a dispatch *)

Lemma OnSignal_Some sig cb st l :
  cbsList st !! sig = Some l →
  OnSignal sig cb st =
  (RemoverOnSignal l (next_elem st),
   logs [EvLock; EvUnlock]
     (set_next_elem (S (next_elem st))
        (set_heap (alter (λ xs, xs ++ [mkElement (next_elem st) (VCallback cb)])
                     l (heap st)) st))).
Proof.
  intros H. unfold OnSignal, mux_Lock.
  change (cbsList (log EvLock st)) with (cbsList st). rewrite H.
  f_equal. apply State_eq; st_simpl; try reflexivity.
  by rewrite <- !(assoc_L (++)).
Qed.

Lemma OnSignal_None sig cb st :
  cbsList st !! sig = None →
  OnSignal sig cb st =
  (RemoverOnSignal (next_list st) (next_elem st),
   logs [EvLock; EvNotify sig; EvUnlock]
     (mkState (<[sig := next_list st]> (cbsList st))
        (<[next_list st := [mkElement (next_elem st) (VCallback cb)]]> (heap st))
        (S (next_list st)) (S (next_elem st)) (ch st) (ch_closed st)
        ({[sig]} ∪ notified st) (wait st) (trace st))).
Proof.
  intros H. unfold OnSignal, mux_Lock.
  change (cbsList (log EvLock st)) with (cbsList st). rewrite H.
  f_equal. apply State_eq; st_simpl; try reflexivity.
  - by rewrite alter_insert_eq.
  - by rewrite <- !(assoc_L (++)).
Qed.

(** C6, as the code has it. [processSignal] takes the mutex first and gives
    it back last ([defer mux.Unlock()]), so every callback of the dispatch is
    invoked with the mutex held; [OnSignal] takes the same mutex, whatever
    the signal, and so waits for the dispatch to end. *)
Theorem dispatch_calls_under_lock (st : State) (s : Z) :
  (∃ evs, new_events st (processSignal s st) = EvLock :: evs ++ [EvUnlock]
          ∧ (EvLock ∉ evs) ∧ (EvUnlock ∉ evs))
  ∧ calls_locked false (new_events st (processSignal s st)) = true
  ∧ ∀ sig cb, ∃ evs,
      new_events st (snd (OnSignal sig cb st)) = EvLock :: evs ++ [EvUnlock].
Proof.
  destruct (processSignal_trace s st) as [xs Hxs].
  rewrite (new_events_app _ _ _ Hxs). split_and!.
  - exists (call_event s <$> xs). split; [done|]. apply call_events_no_lock.
  - simpl. by rewrite calls_locked_call_events.
  - intros sig cb. destruct (cbsList st !! sig) as [l|] eqn:Hl.
    + rewrite (OnSignal_Some _ _ _ _ Hl). simpl.
      exists []. by apply new_events_app.
    + rewrite (OnSignal_None _ _ _ Hl). simpl.
      exists [EvNotify sig]. by apply new_events_app.
Qed.

(** C6, as the claim has it, fails: with one callback registered for
    SIGUSR1, the dispatch of SIGUSR1 invokes it between the lock and the
    unlock. *)
Lemma dispatch_calls_unlocked_fails :
  new_events (snd (OnReload 1 init)) (processSignal SIGUSR1 (snd (OnReload 1 init)))
  = [EvLock; EvCall SIGUSR1 0 1; EvUnlock]
  ∧ calls_unlocked false
      (new_events (snd (OnReload 1 init))
         (processSignal SIGUSR1 (snd (OnReload 1 init)))) = false.
Proof. split; reflexivity. Qed.

(** ** Well-formedness of the registry is kept *)

Lemma wf_reg_same st st' :
  cbsList st' = cbsList st → heap st' = heap st →
  next_list st' = next_list st → next_elem st' = next_elem st →
  wf_reg st → wf_reg st'.
Proof.
  intros Hc Hh Hl He [H1 H2 H3 H4 H5 H6].
  split; rewrite ?Hc, ?Hh, ?Hl, ?He; done.
Qed.

Lemma wf_reg_log ev st : wf_reg st → wf_reg (log ev st).
Proof. by apply wf_reg_same. Qed.

Lemma wf_reg_logs evs st : wf_reg st → wf_reg (logs evs st).
Proof. by apply wf_reg_same. Qed.

Lemma wf_reg_init : wf_reg init.
Proof. split; simpl; intros *; rewrite ?lookup_empty; done. Qed.

Lemma wf_reg_assign_New sig st : wf_reg st → wf_reg (assign_New sig st).
Proof.
  intros [H1 H2 H3 H4 H5 H6].
  assert (Hfresh : ∀ s, cbsList st !! s ≠ Some (next_list st)).
  { intros s Hs. destruct (H1 _ _ Hs) as [xs Hxs].
    specialize (H2 _ _ Hxs). lia. }
  split; st_simpl.
  - intros s l [[-> <-]|[Hne Hs]]%lookup_insert_Some.
    + rewrite lookup_insert_eq. eauto.
    + rewrite lookup_insert_ne; [eauto|]. intros <-. by eapply Hfresh.
  - intros l xs [[<- <-]|[Hne Hl]]%lookup_insert_Some; [lia|].
    specialize (H2 _ _ Hl). lia.
  - intros s1 s2 l [[-> <-]|[Hn1 Hs1]]%lookup_insert_Some
      [[-> Hl]|[Hn2 Hs2]]%lookup_insert_Some; try done.
    + by destruct (Hfresh s2).
    + subst l. by destruct (Hfresh s1).
    + eauto.
  - intros l xs x [[<- <-]|[Hne Hl]]%lookup_insert_Some Hx.
    + by apply elem_of_nil in Hx.
    + eauto.
  - intros l xs [[<- <-]|[Hne Hl]]%lookup_insert_Some.
    + constructor.
    + eauto.
  - intros l xs x [[<- <-]|[Hne Hl]]%lookup_insert_Some Hx.
    + by apply elem_of_nil in Hx.
    + eauto.
Qed.

Lemma wf_reg_truncate st : wf_reg st → wf_reg (truncate st).
Proof. intros H. unfold truncate. by do 3 apply wf_reg_assign_New. Qed.

Lemma wf_reg_PushBack l cb st :
  wf_reg st → wf_reg (snd (PushBack l (VCallback cb) st)).
Proof.
  intros [H1 H2 H3 H4 H5 H6]. split; st_simpl.
  - intros s l' Hs. apply lookup_alter_is_Some. eauto.
  - intros l' xs Hl. apply (H2 l' (default [] (heap st !! l'))).
    apply lookup_alter_Some in Hl as [(_ & ys & -> & _)|[_ ->]]; done.
  - done.
  - intros l' xs x [(-> & ys & Hys & ->)|[_ Hl]]%lookup_alter_Some Hx.
    + apply elem_of_app in Hx as [Hx|Hx].
      * specialize (H4 _ _ _ Hys Hx). lia.
      * apply list_elem_of_singleton in Hx as ->. simpl. lia.
    + specialize (H4 _ _ _ Hl Hx). lia.
  - intros l' xs [(-> & ys & Hys & ->)|[_ Hl]]%lookup_alter_Some; [|eauto].
    rewrite fmap_app. apply NoDup_app. split_and!; [eauto| |by apply NoDup_singleton].
    intros e (x & -> & Hx)%list_elem_of_fmap. simpl.
    intros Heq%list_elem_of_singleton.
    specialize (H4 _ _ _ Hys Hx). lia.
  - intros l' xs x [(-> & ys & Hys & ->)|[_ Hl]]%lookup_alter_Some Hx; [|eauto].
    apply elem_of_app in Hx as [Hx|Hx]; [eauto|].
    by apply list_elem_of_singleton in Hx as ->.
Qed.

Lemma wf_reg_Remove l e st : wf_reg st → wf_reg (Remove l e st).
Proof.
  intros [H1 H2 H3 H4 H5 H6]. split; st_simpl.
  - intros s l' Hs. apply lookup_alter_is_Some. eauto.
  - intros l' xs Hl. apply (H2 l' (default [] (heap st !! l'))).
    apply lookup_alter_Some in Hl as [(_ & ys & -> & _)|[_ ->]]; done.
  - done.
  - intros l' xs x [(-> & ys & Hys & ->)|[_ Hl]]%lookup_alter_Some Hx; [|eauto].
    apply list_elem_of_filter in Hx as [_ Hx]. eauto.
  - intros l' xs [(-> & ys & Hys & ->)|[_ Hl]]%lookup_alter_Some; [|eauto].
    specialize (H5 _ _ Hys). clear -H5.
    induction ys as [|y ys IH]; [constructor|].
    rewrite fmap_cons in H5. apply NoDup_cons in H5 as [Hy Hys].
    rewrite filter_cons. case_decide; [|by apply IH].
    rewrite fmap_cons. apply NoDup_cons. split; [|by apply IH].
    intros (x & Hxy & Hx)%list_elem_of_fmap. apply Hy.
    apply list_elem_of_filter in Hx as [_ Hx].
    apply list_elem_of_fmap. eauto.
  - intros l' xs x [(-> & ys & Hys & ->)|[_ Hl]]%lookup_alter_Some Hx; [|eauto].
    apply list_elem_of_filter in Hx as [_ Hx]. eauto.
Qed.

Lemma wf_reg_processSignal s st : wf_reg st → wf_reg (processSignal s st).
Proof.
  intros H. rewrite processSignal_unfold.
  destruct (cbsList st !! s); [|by apply wf_reg_logs].
  destruct (is_termination s); cbv zeta; apply wf_reg_logs; [|done].
  by apply wf_reg_truncate.
Qed.

(** [OnSignal] in terms of the operations it calls. *)
Lemma OnSignal_eq sig cb st :
  OnSignal sig cb st =
  match cbsList st !! sig with
  | Some l =>
      (RemoverOnSignal l (next_elem st),
       mux_Unlock (snd (PushBack l (VCallback cb) (mux_Lock st))))
  | None =>
      (RemoverOnSignal (next_list st) (next_elem st),
       mux_Unlock
         (snd (PushBack (next_list st) (VCallback cb)
                 (assign_New sig (signal_Notify sig (mux_Lock st))))))
  end.
Proof.
  unfold OnSignal.
  replace (cbsList (mux_Lock st)) with (cbsList st) by reflexivity.
  destruct (cbsList st !! sig); reflexivity.
Qed.

Lemma wf_reg_OnSignal sig cb st : wf_reg st → wf_reg (snd (OnSignal sig cb st)).
Proof.
  intros H. rewrite OnSignal_eq.
  destruct (cbsList st !! sig) as [l|]; cbn [snd].
  - apply wf_reg_log, wf_reg_PushBack. by apply wf_reg_log.
  - apply wf_reg_log, wf_reg_PushBack, wf_reg_assign_New.
    revert H. by apply wf_reg_same.
Qed.

Lemma wf_reg_OnKill cb st : wf_reg st → wf_reg (snd (OnKill cb st)).
Proof.
  intros H. unfold OnKill.
  pose proof (wf_reg_OnSignal SIGKILL cb st H) as H1.
  destruct (OnSignal SIGKILL cb st) as [r1 st1]; simpl in H1.
  pose proof (wf_reg_OnSignal SIGQUIT cb st1 H1) as H2.
  destruct (OnSignal SIGQUIT cb st1) as [r2 st2]; simpl in H2.
  pose proof (wf_reg_OnSignal SIGINT cb st2 H2) as H3.
  by destruct (OnSignal SIGINT cb st2) as [r3 st3].
Qed.

(** Induction on removers, through the list a remover of [OnKill] holds. *)
Lemma CallbackRemover_ind (P : CallbackRemover → Prop) :
  (∀ l e, P (RemoverOnSignal l e)) →
  (∀ rfns, Forall P rfns → P (RemoverOnKill rfns)) →
  ∀ r, P r.
Proof.
  intros H1 H2. fix IH 1. intros [l e|rfns]; [apply H1|].
  apply H2. induction rfns as [|r rfns IHr]; constructor; [apply IH|apply IHr].
Qed.

(** A property of states kept by removing one element is kept by every
    remover. *)
Lemma call_remover_preserves (P : State → Prop) :
  (∀ l e st, P st → P (mux_Unlock (Remove l e (mux_Lock st)))) →
  ∀ r st, P st → P (call_remover r st).
Proof.
  intros HP. induction r as [l e|rfns IH] using CallbackRemover_ind;
    intros st Hst; simpl; [by apply HP|].
  revert st Hst. induction IH as [|r rfns Hr _ IHrs]; intros st Hst; simpl; [done|].
  apply IHrs, Hr, Hst.
Qed.

Lemma wf_reg_call_remover r st : wf_reg st → wf_reg (call_remover r st).
Proof.
  apply call_remover_preserves. intros l e st' H.
  apply wf_reg_log, wf_reg_Remove. by apply wf_reg_log.
Qed.

(** ** The dispatcher loop *)

Lemma processSignal_set_ch s q st :
  processSignal s (set_ch q st) = set_ch q (processSignal s st).
Proof.
  rewrite !processSignal_unfold.
  change (cbsList (set_ch q st)) with (cbsList st).
  destruct (cbsList st !! s); [|done].
  destruct (is_termination s); done.
Qed.

Lemma processSignal_frame s st :
  ch (processSignal s st) = ch st
  ∧ ch_closed (processSignal s st) = ch_closed st
  ∧ wait (processSignal s st) = wait st
  ∧ notified (processSignal s st) = notified st
  ∧ next_elem (processSignal s st) = next_elem st.
Proof.
  destruct (processSignal_shape s st) as (xs & st1 & -> & _ & ? & ? & ? & ? & ?).
  done.
Qed.

Lemma dispatch_all_app sigs1 sigs2 st :
  dispatch_all (sigs1 ++ sigs2) st = dispatch_all sigs2 (dispatch_all sigs1 st).
Proof. unfold dispatch_all. by rewrite fold_left_app. Qed.

Lemma dispatch_all_set_ch sigs q st :
  dispatch_all sigs (set_ch q st) = set_ch q (dispatch_all sigs st).
Proof.
  revert st. induction sigs as [|s sigs IH]; intros st; [done|].
  simpl. by rewrite processSignal_set_ch, IH.
Qed.

Lemma dispatch_all_frame sigs st :
  ch (dispatch_all sigs st) = ch st
  ∧ ch_closed (dispatch_all sigs st) = ch_closed st
  ∧ wait (dispatch_all sigs st) = wait st
  ∧ notified (dispatch_all sigs st) = notified st
  ∧ next_elem (dispatch_all sigs st) = next_elem st.
Proof.
  revert st. induction sigs as [|s sigs IH]; intros st; [done|].
  simpl. destruct (IH (processSignal s st)) as (-> & -> & -> & -> & ->).
  apply processSignal_frame.
Qed.

(** While the dispatcher is alive, [n] iterations take the [n] oldest
    signals of the buffer and dispatch them in order. *)
Lemma run_loop_drain n st :
  wait st ≠ 0 → n ≤ length (ch st) →
  run_loop n st = set_ch (drop n (ch st)) (dispatch_all (take n (ch st)) st).
Proof.
  revert st. induction n as [|n IH]; intros st Hw Hn.
  - simpl. rewrite drop_0. by destruct st.
  - simpl. unfold loop_iter.
    destruct (wait st) as [|w] eqn:Hwait; [done|].
    destruct (ch st) as [|s q] eqn:Hch; simpl in Hn; [lia|].
    rewrite processSignal_set_ch.
    destruct (processSignal_frame s st) as (Hc & _ & Hw' & _).
    rewrite IH; simpl; rewrite ?Hw'; [|lia|lia].
    rewrite dispatch_all_set_ch. done.
Qed.

(** With the channel closed, one more iteration ends the goroutine. *)
Lemma run_loop_closed st :
  wait st ≠ 0 → ch_closed st = true →
  run_loop (S (length (ch st))) st
  = wait_Done (set_ch [] (dispatch_all (ch st) st)).
Proof.
  intros Hw Hc.
  replace (S (length (ch st))) with (length (ch st) + 1) by lia.
  assert (Hsplit : ∀ n m st0, run_loop (n + m) st0 = run_loop m (run_loop n st0)).
  { induction n as [|n IHn]; intros m st0; simpl; [done|apply IHn]. }
  rewrite Hsplit, (run_loop_drain (length (ch st)) st) by (done || lia).
  rewrite drop_all, firstn_all.
  destruct (dispatch_all_frame (ch st) st) as (_ & Hc' & Hw' & _).
  cbn [run_loop]. unfold loop_iter. st_simpl. rewrite Hc', Hw', Hc.
  by destruct (wait st).
Qed.

Lemma dispatch_all_trace sigs st :
  trace (dispatch_all sigs st) = trace st ++ dispatch_events sigs st
  ∧ Forall (λ ev, is_dispatch_event ev = true) (dispatch_events sigs st).
Proof.
  unfold dispatch_events.
  cut (∃ evs, trace (dispatch_all sigs st) = trace st ++ evs
              ∧ Forall (λ ev, is_dispatch_event ev = true) evs).
  { intros (evs & H & HF). by rewrite (new_events_app _ _ _ H). }
  revert st. induction sigs as [|s sigs IH]; intros st.
  - exists []. simpl. by rewrite app_nil_r.
  - simpl. destruct (IH (processSignal s st)) as (evs & -> & HF).
    destruct (processSignal_trace s st) as [xs ->].
    eexists. rewrite <- (assoc_L (++)). split; [done|].
    apply Forall_app. split; [|done].
    constructor; [done|]. apply Forall_app. split; [|by repeat constructor].
    apply Forall_fmap, Forall_forall. intros x _. simpl.
    unfold call_event. by destruct (Value x).
Qed.

Lemma dispatch_events_cons s sigs st :
  dispatch_events (s :: sigs) st
  = dispatch_events [s] st ++ dispatch_events sigs (processSignal s st).
Proof.
  unfold dispatch_events at 1. apply new_events_app. simpl.
  destruct (dispatch_all_trace sigs (processSignal s st)) as [-> _].
  destruct (dispatch_all_trace [s] st) as [H _]. simpl in H.
  by rewrite H, <- (assoc_L (++)).
Qed.

Lemma dispatch_events_app sigs1 sigs2 st :
  dispatch_events (sigs1 ++ sigs2) st
  = dispatch_events sigs1 st ++ dispatch_events sigs2 (dispatch_all sigs1 st).
Proof.
  unfold dispatch_events at 1. apply new_events_app.
  rewrite dispatch_all_app.
  destruct (dispatch_all_trace sigs2 (dispatch_all sigs1 st)) as [-> _].
  destruct (dispatch_all_trace sigs1 st) as [-> _].
  by rewrite <- (assoc_L (++)).
Qed.

(** A dispatch looks at the registry only. *)
Lemma processSignal_reg_eq s st1 st2 :
  cbsList st1 = cbsList st2 → heap st1 = heap st2 →
  next_list st1 = next_list st2 →
  cbsList (processSignal s st1) = cbsList (processSignal s st2)
  ∧ heap (processSignal s st1) = heap (processSignal s st2)
  ∧ next_list (processSignal s st1) = next_list (processSignal s st2)
  ∧ dispatch_events [s] st1 = dispatch_events [s] st2.
Proof.
  intros Hc Hh Hn. unfold dispatch_events, dispatch_all. cbn [fold_left].
  assert (Hev : ∀ st st' evs, trace st' = trace st →
                              new_events st (logs evs st') = evs).
  { intros st st' evs Ht. apply new_events_app. by rewrite trace_logs, Ht. }
  rewrite !processSignal_unfold, Hc.
  destruct (cbsList st2 !! s) as [cbs|].
  - destruct (is_termination s); cbv zeta; proj_logs.
    + rewrite !truncate_cbsList, !truncate_heap, Hc, Hh, Hn.
      split_and!; try done.
      * destruct (truncate_frame st1) as (-> & _).
        destruct (truncate_frame st2) as (-> & _). by rewrite Hn.
      * rewrite !Hev; [done|apply truncate_frame..].
    + rewrite Hh. split_and!; try done. by rewrite !Hev.
  - proj_logs. split_and!; try done. by rewrite !Hev.
Qed.

Lemma dispatch_all_reg_eq sigs st1 st2 :
  cbsList st1 = cbsList st2 → heap st1 = heap st2 →
  next_list st1 = next_list st2 →
  cbsList (dispatch_all sigs st1) = cbsList (dispatch_all sigs st2)
  ∧ heap (dispatch_all sigs st1) = heap (dispatch_all sigs st2)
  ∧ next_list (dispatch_all sigs st1) = next_list (dispatch_all sigs st2)
  ∧ dispatch_events sigs st1 = dispatch_events sigs st2.
Proof.
  revert st1 st2. induction sigs as [|s sigs IH]; intros st1 st2 Hc Hh Hn.
  - unfold dispatch_events, new_events. simpl. by rewrite !drop_all.
  - destruct (processSignal_reg_eq s st1 st2 Hc Hh Hn) as (Hc' & Hh' & Hn' & He).
    destruct (IH _ _ Hc' Hh' Hn') as (? & ? & ? & He').
    rewrite !(dispatch_events_cons s sigs), He, He'. done.
Qed.

(** ** Deferrer on an open channel *)

Lemma report_frame err st :
  cbsList (report err st) = cbsList st ∧ heap (report err st) = heap st
  ∧ next_list (report err st) = next_list st
  ∧ next_elem (report err st) = next_elem st
  ∧ ch (report err st) = ch st ∧ ch_closed (report err st) = ch_closed st
  ∧ wait (report err st) = wait st ∧ notified (report err st) = notified st.
Proof. by destruct err. Qed.

Lemma Deferrer_open err st :
  ch_closed st = false → wait st = 1 →
  ∃ evs1 evs2 st',
    Deferrer err st
    = (match err with Some _ => Exited 1 | None => Returned end,
       match err with Some _ => log (EvExit 1) st' | None => st' end)
    ∧ trace st' = trace (report err st)
                  ++ [EvStop] ++ evs1 ++ [EvClose] ++ evs2 ++ [EvDone]
    ∧ evs1 ++ evs2 = dispatch_events (ch st ++ [SIGINT]) st
    ∧ cbsList st' = cbsList (dispatch_all (ch st ++ [SIGINT]) st)
    ∧ heap st' = heap (dispatch_all (ch st ++ [SIGINT]) st)
    ∧ next_list st' = next_list (dispatch_all (ch st ++ [SIGINT]) st)
    ∧ next_elem st' = next_elem st
    ∧ ch st' = [] ∧ ch_closed st' = true ∧ wait st' = 0 ∧ notified st' = ∅.
Proof.
  intros Hopen Hwait.
  destruct (report_frame err st) as (Rc & Rh & Rl & Re & Rch & Rcl & Rw & Rn).
  set (q := ch st). set (k := S (length q) - cap_ch).
  set (st1 := signal_Stop (report err st)).
  set (st2 := dispatch_all (take k q) st1).
  set (q' := drop k q ++ [SIGINT]).
  set (st3 := chan_close (set_ch q' (set_ch (drop k q) st2))).
  set (st4 := wait_Done (set_ch [] (dispatch_all q' st3))).
  assert (Hk : k ≤ length q) by (unfold k, cap_ch; lia).
  assert (S1 : cbsList st1 = cbsList st ∧ heap st1 = heap st
               ∧ next_list st1 = next_list st ∧ next_elem st1 = next_elem st
               ∧ ch st1 = q ∧ ch_closed st1 = false ∧ wait st1 = 1
               ∧ notified st1 = ∅
               ∧ trace st1 = trace (report err st) ++ [EvStop]).
  { unfold st1. st_simpl. by rewrite Rc, Rh, Rl, Re, Rch, Rcl, Rw. }
  destruct S1 as (S1c & S1h & S1l & S1e & S1ch & S1cl & S1w & S1n & S1t).
  destruct (dispatch_all_frame (take k q) st1) as (F1 & F2 & F3 & F4 & F5).
  fold st2 in F1, F2, F3, F4, F5.
  assert (S3 : cbsList st3 = cbsList st2 ∧ heap st3 = heap st2
               ∧ next_list st3 = next_list st2 ∧ next_elem st3 = next_elem st2
               ∧ ch st3 = q' ∧ ch_closed st3 = true ∧ wait st3 = wait st2
               ∧ notified st3 = notified st2
               ∧ trace st3 = trace st2 ++ [EvClose]).
  { unfold st3. by st_simpl. }
  destruct S3 as (S3c & S3h & S3l & S3e & S3ch & S3cl & S3w & S3n & S3t).
  destruct (dispatch_all_frame q' st3) as (G1 & G2 & G3 & G4 & G5).
  assert (Hsend : chan_send SIGINT st1 = Sent (set_ch q' (set_ch (drop k q) st2))).
  { unfold chan_send. rewrite S1cl, S1ch. fold k.
    rewrite run_loop_drain; rewrite ?S1ch, ?S1w; [|done|done]. fold st2.
    replace (ch (set_ch (drop k q) st2)) with (drop k q) by reflexivity.
    assert ((length (drop k q) <? cap_ch) = true) as ->; [|done].
    apply Nat.ltb_lt. rewrite length_drop. unfold k, cap_ch. lia. }
  assert (Hrun : wait_Wait st3 = st4).
  { unfold wait_Wait. rewrite run_loop_closed; [|by rewrite S3w, F3, S1w|done].
    by rewrite S3ch. }
  assert (Hw4 : wait st4 = 0).
  { unfold st4. st_simpl. by rewrite G3, S3w, F3, S1w. }
  destruct (dispatch_all_trace (take k q) st1) as [T1 _]. fold st2 in T1.
  destruct (dispatch_all_trace q' st3) as [T3 _].
  destruct (dispatch_all_reg_eq (take k q) st1 st) as (E1 & E2 & E3 & E4);
    [done..|]. fold st2 in E1, E2, E3.
  destruct (dispatch_all_reg_eq q' st3 (dispatch_all (take k q) st))
    as (D1 & D2 & D3 & D4); [congruence..|].
  assert (Hall : dispatch_all q' (dispatch_all (take k q) st)
                 = dispatch_all (ch st ++ [SIGINT]) st).
  { rewrite <- dispatch_all_app. unfold q'. fold q.
    by rewrite (assoc_L (++)), take_drop. }
  rewrite Hall in D1, D2, D3.
  exists (dispatch_events (take k q) st1), (dispatch_events q' st3), st4.
  split_and!.
  - unfold Deferrer. fold st1. rewrite Hsend. cbv zeta. fold st3.
    rewrite Hrun, Hw4. by destruct err.
  - unfold st4. st_simpl. rewrite T3, S3t, T1, S1t.
    rewrite <- !(assoc_L (++)). done.
  - rewrite E4, D4. rewrite <- dispatch_events_app. unfold q'. fold q.
    by rewrite (assoc_L (++)), take_drop.
  - unfold st4. by st_simpl.
  - unfold st4. by st_simpl.
  - unfold st4. by st_simpl.
  - unfold st4. st_simpl. by rewrite G5, S3e, F5.
  - done.
  - unfold st4. st_simpl. by rewrite G2.
  - done.
  - unfold st4. st_simpl. by rewrite G4, S3n, F4.
Qed.

(** ** Every operation moves forward *)

Lemma later_refl st : later st st.
Proof.
  split_and!; [done..|]. exists []. by rewrite app_nil_r.
Qed.

Lemma later_trans st1 st2 st3 : later st1 st2 → later st2 st3 → later st1 st3.
Proof.
  intros (Hw1 & Hc1 & evs1 & Ht1 & Hn1) (Hw2 & Hc2 & evs2 & Ht2 & Hn2).
  split_and!; [lia|eauto|].
  exists (evs1 ++ evs2). split; [by rewrite Ht2, Ht1, (assoc_L (++))|].
  intros H0. apply Forall_app. split; [eauto|]. apply Hn2. lia.
Qed.

Lemma later_logs evs st :
  Forall (λ ev, is_call ev = false) evs → later st (logs evs st).
Proof. intros H. split_and!; [done..|]. by exists evs. Qed.

Lemma later_log ev st : is_call ev = false → later st (log ev st).
Proof. intros H. apply (later_logs [ev]). by repeat constructor. Qed.

Lemma later_same st st' :
  wait st' = wait st → ch_closed st' = ch_closed st → trace st' = trace st →
  later st st'.
Proof.
  intros Hw Hc Ht. split_and!; [lia|congruence|].
  exists []. by rewrite app_nil_r.
Qed.

Lemma later_processSignal s st : wait st ≠ 0 → later st (processSignal s st).
Proof.
  intros Hw. destruct (processSignal_frame s st) as (_ & Hc & Hw' & _).
  split_and!; [lia|congruence|].
  destruct (processSignal_trace s st) as [xs ->].
  eexists. split; [done|]. intros H0. by destruct Hw.
Qed.

Lemma later_loop_iter st : later st (loop_iter st).
Proof.
  unfold loop_iter. destruct (wait st) as [|w] eqn:Hw; [apply later_refl|].
  destruct (ch st) as [|s q].
  - destruct (ch_closed st) eqn:Hc; [|apply later_refl].
    split_and!; simpl; [lia|done|]. exists [EvDone]. split; [done|]. lia.
  - eapply later_trans; [|apply later_processSignal; simpl; lia].
    by apply later_same.
Qed.

Lemma later_run_loop n st : later st (run_loop n st).
Proof.
  revert st. induction n as [|n IH]; intros st; [apply later_refl|].
  simpl. eapply later_trans; [apply later_loop_iter|apply IH].
Qed.

Lemma later_OnSignal sig cb st : later st (snd (OnSignal sig cb st)).
Proof.
  destruct (cbsList st !! sig) as [l|] eqn:Hl.
  - rewrite (OnSignal_Some _ _ _ _ Hl). simpl.
    split_and!; [done..|]. exists [EvLock; EvUnlock]. split; [done|].
    intros _. by repeat constructor.
  - rewrite (OnSignal_None _ _ _ Hl). simpl.
    split_and!; [done..|]. exists [EvLock; EvNotify sig; EvUnlock].
    split; [done|]. intros _. by repeat constructor.
Qed.

Lemma later_OnKill cb st : later st (snd (OnKill cb st)).
Proof.
  unfold OnKill.
  pose proof (later_OnSignal SIGKILL cb st) as H1.
  destruct (OnSignal SIGKILL cb st) as [r1 st1]; simpl in H1.
  pose proof (later_OnSignal SIGQUIT cb st1) as H2.
  destruct (OnSignal SIGQUIT cb st1) as [r2 st2]; simpl in H2.
  pose proof (later_OnSignal SIGINT cb st2) as H3.
  destruct (OnSignal SIGINT cb st2) as [r3 st3]; simpl in *.
  eauto using later_trans.
Qed.

Lemma later_call_remover r st : later st (call_remover r st).
Proof.
  apply (call_remover_preserves (later st)); [|apply later_refl].
  intros l e st' H. eapply later_trans; [exact H|].
  split_and!; [done..|]. exists [EvLock; EvUnlock]. split.
  - simpl. by rewrite <- (assoc_L (++)).
  - intros _. by repeat constructor.
Qed.

Lemma later_deliver s st : later st (deliver s st).
Proof.
  unfold deliver. case_bool_decide; [|apply later_refl].
  destruct (ch_closed st); [by apply later_log|].
  destruct (length (ch st) <? cap_ch); [by apply later_same|apply later_refl].
Qed.

Lemma later_report err st : later st (report err st).
Proof.
  destruct err as [e|]; [|apply later_refl]. simpl.
  eapply later_trans; by apply later_log.
Qed.

Lemma later_Deferrer err st : later st (snd (Deferrer err st)).
Proof.
  unfold Deferrer.
  set (st1 := signal_Stop (report err st)).
  assert (H1 : later st st1).
  { eapply later_trans; [apply later_report|].
    eapply later_trans; [|by apply later_log]. by apply later_same. }
  assert (Hdef : ∀ o st', later st st' →
            later st (snd (match err with
                           | Some _ => (Exited 1, log (EvExit 1) st')
                           | None => (o, st')
                           end))).
  { intros o st' H. destruct err; [|done]. simpl.
    eapply later_trans; [exact H|by apply later_log]. }
  unfold chan_send. destruct (ch_closed st1) eqn:Hc; [by apply Hdef|].
  set (st2 := run_loop (S (length (ch st1)) - cap_ch) st1).
  assert (H2 : later st st2).
  { eapply later_trans; [exact H1|apply later_run_loop]. }
  destruct (length (ch st2) <? cap_ch); [|done].
  set (st3 := wait_Wait (chan_close (set_ch (ch st2 ++ [SIGINT]) st2))).
  assert (H3 : later st st3).
  { eapply later_trans; [exact H2|].
    eapply later_trans; [|apply later_run_loop].
    eapply later_trans; [|by apply later_log].
    split_and!; [done..|]. exists []. by rewrite app_nil_r. }
  destruct (wait st3); [by apply Hdef|done].
Qed.

Lemma later_step op st : later st (step op st).
Proof.
  destruct op; simpl;
    auto using later_OnSignal, later_OnKill, later_call_remover,
      later_deliver, later_loop_iter, later_Deferrer.
  apply later_OnSignal.
Qed.

Lemma later_run ops st : later st (run ops st).
Proof.
  revert st. induction ops as [|op ops IH]; intros st; [apply later_refl|].
  simpl. eapply later_trans; [apply later_step|apply IH].
Qed.

(** ** The events of a dispatch *)

Lemma called_elems_app evs1 evs2 :
  called_elems (evs1 ++ evs2) = called_elems evs1 ++ called_elems evs2.
Proof. apply omap_app. Qed.

Lemma terminated_elems_app evs1 evs2 :
  terminated_elems (evs1 ++ evs2) = terminated_elems evs1 ++ terminated_elems evs2.
Proof. apply omap_app. Qed.

Lemma called_app evs1 evs2 : called (evs1 ++ evs2) = called evs1 ++ called evs2.
Proof. apply omap_app. Qed.

Lemma no_call_called evs :
  Forall (λ ev, is_call ev = false) evs →
  called evs = [] ∧ called_elems evs = [] ∧ terminated_elems evs = [].
Proof.
  induction 1 as [|ev evs Hev _ (IH1 & IH2 & IH3)]; [done|].
  destruct ev; simpl in *; done.
Qed.

Lemma terminated_called e evs :
  e ∈ terminated_elems evs → e ∈ called_elems evs.
Proof.
  intros (ev & Hev & H)%list_elem_of_omap. apply list_elem_of_omap.
  exists ev. split; [done|]. destruct ev; try done.
  by destruct (is_termination s).
Qed.

Lemma call_events_called_elems s xs :
  Forall (λ x, Value x ≠ VOther) xs →
  called_elems (call_event s <$> xs) = el_id <$> xs
  ∧ called (call_event s <$> xs) = callbacks xs
  ∧ terminated_elems (call_event s <$> xs)
    = if is_termination s then el_id <$> xs else [].
Proof.
  induction 1 as [|x xs Hx _ (IH1 & IH2 & IH3)].
  - by destruct (is_termination s).
  - rewrite !fmap_cons.
    assert (∃ cb, Value x = VCallback cb) as [cb Hcb]
      by (destruct (Value x); eauto; done).
    assert (call_event s x = EvCall s (el_id x) cb) as ->
      by (unfold call_event; by rewrite Hcb).
    change (called_elems (EvCall s (el_id x) cb :: (call_event s <$> xs)))
      with (el_id x :: called_elems (call_event s <$> xs)).
    change (called (EvCall s (el_id x) cb :: (call_event s <$> xs)))
      with (cb :: called (call_event s <$> xs)).
    assert (callbacks (x :: xs) = cb :: callbacks xs) as ->
      by (unfold callbacks; cbn [omap list_omap]; by rewrite Hcb).
    rewrite IH1, IH2. split_and!; [done..|].
    unfold terminated_elems in *. cbn [omap list_omap].
    rewrite IH3. by destruct (is_termination s).
Qed.

Lemma dispatch_events_called s xs :
  Forall (λ x, Value x ≠ VOther) xs →
  let evs := EvLock :: (call_event s <$> reverse xs) ++ [EvUnlock] in
  called_elems evs = reverse (el_id <$> xs)
  ∧ called evs = reverse (callbacks xs)
  ∧ terminated_elems evs
    = if is_termination s then reverse (el_id <$> xs) else [].
Proof.
  intros Hxs evs. subst evs.
  assert (Hrev : Forall (λ x, Value x ≠ VOther) (reverse xs))
    by by apply Forall_reverse.
  destruct (call_events_called_elems s _ Hrev) as (H1 & H2 & H3).
  change (EvLock :: (call_event s <$> reverse xs) ++ [EvUnlock])
    with ([EvLock] ++ (call_event s <$> reverse xs) ++ [EvUnlock]).
  rewrite !called_elems_app, !called_app, !terminated_elems_app, H1, H2, H3.
  simpl. rewrite !app_nil_r, fmap_reverse. split_and!; [done| |done].
  clear. unfold callbacks. induction xs as [|x xs IH]; [done|].
  rewrite reverse_cons, omap_app, IH. simpl.
  destruct (Value x); simpl; by rewrite ?reverse_cons, ?app_nil_r.
Qed.

(** With a well-formed registry, the loop of [processSignal] runs over the
    list the map held for the signal when it was looked up. *)
Lemma processSignal_wf s st :
  wf_reg st →
  processSignal s st =
  match lists st s with
  | None => logs [EvLock; EvUnlock] st
  | Some xs =>
      logs (EvLock :: (call_event s <$> reverse xs) ++ [EvUnlock])
        (if is_termination s then truncate st else st)
  end.
Proof.
  intros Hwf. rewrite processSignal_unfold. unfold lists.
  destruct (cbsList st !! s) as [cbs|] eqn:Hs; cbn [mbind option_bind]; [|done].
  destruct (wf_map _ Hwf _ _ Hs) as [xs Hxs]. rewrite Hxs.
  destruct (is_termination s); cbv zeta; [|by rewrite Hxs].
  rewrite truncate_heap_old, Hxs; [done|]. by eapply wf_heap.
Qed.

Lemma lists_values st s xs :
  wf_reg st → lists st s = Some xs → Forall (λ x, Value x ≠ VOther) xs.
Proof.
  intros Hwf Hl. unfold lists in Hl.
  destruct (cbsList st !! s) as [l|]; simpl in Hl; [|done].
  apply Forall_forall. intros x Hx. by eapply wf_values.
Qed.

Lemma lists_nodup st s xs :
  wf_reg st → lists st s = Some xs → NoDup (el_id <$> xs).
Proof.
  intros Hwf Hl. unfold lists in Hl.
  destruct (cbsList st !! s) as [l|]; simpl in Hl; [|done].
  by eapply wf_nodup.
Qed.

(** After [truncate], the three termination signals have empty lists. *)
Lemma truncate_lists st t :
  is_termination t = true → lists (truncate st) t = Some [].
Proof.
  intros Ht. unfold is_termination in Ht. apply bool_decide_eq_true in Ht.
  unfold lists. rewrite truncate_cbsList, truncate_heap.
  assert (SIGQUIT ≠ SIGKILL ∧ SIGINT ≠ SIGKILL ∧ SIGQUIT ≠ SIGINT)
    as (N1 & N2 & N3) by (unfold SIGKILL, SIGINT, SIGQUIT; lia).
  destruct Ht as [-> | [-> | ->]].
  - rewrite lookup_insert_ne, lookup_insert_ne, lookup_insert_eq by done.
    cbn [mbind option_bind].
    by rewrite lookup_insert_ne, lookup_insert_ne, lookup_insert_eq by lia.
  - rewrite lookup_insert_ne, lookup_insert_eq by done.
    cbn [mbind option_bind].
    by rewrite lookup_insert_ne, lookup_insert_eq by lia.
  - rewrite lookup_insert_eq. cbn [mbind option_bind].
    by rewrite lookup_insert_eq.
Qed.

(** ** Well-formedness of the trace is kept *)

Lemma wf_tr_logs evs st :
  Forall (λ ev, is_call ev = false) evs → wf_tr st → wf_tr (logs evs st).
Proof.
  intros Hevs [H1 H2 H3].
  destruct (no_call_called _ Hevs) as (_ & Hc & Ht).
  split; simpl; rewrite ?called_elems_app, ?terminated_elems_app, ?Hc, ?Ht,
    ?app_nil_r; done.
Qed.

Lemma wf_tr_log ev st : is_call ev = false → wf_tr st → wf_tr (log ev st).
Proof. intros H. apply (wf_tr_logs [ev]). by repeat constructor. Qed.

Lemma wf_tr_same st st' :
  cbsList st' = cbsList st → heap st' = heap st →
  next_elem st' = next_elem st → trace st' = trace st →
  wf_tr st → wf_tr st'.
Proof.
  intros Hc Hh He Ht [H1 H2 H3]. split; rewrite ?Hc, ?Hh, ?He, ?Ht; done.
Qed.

Lemma wf_tr_init : wf_tr init.
Proof.
  split; simpl.
  - intros e He. by apply elem_of_nil in He.
  - constructor.
  - intros *. by rewrite lookup_empty.
Qed.

Lemma wf_tr_assign_New sig st : wf_reg st → wf_tr st → wf_tr (assign_New sig st).
Proof.
  intros Hreg [H1 H2 H3]. split; st_simpl; [done..|].
  intros s l xs x Hs [[-> <-]|[Hne Hl]]%lookup_insert_Some.
  - rewrite lookup_insert_eq. intros [= <-] Hx. by apply elem_of_nil in Hx.
  - destruct (wf_map _ Hreg _ _ Hl) as [ys Hys].
    pose proof (wf_heap _ Hreg _ _ Hys).
    rewrite lookup_insert_ne by lia. eauto.
Qed.

Lemma wf_tr_PushBack l cb st :
  wf_tr st → wf_tr (snd (PushBack l (VCallback cb) st)).
Proof.
  intros [H1 H2 H3]. split; st_simpl; [|done|].
  - intros e He. specialize (H1 _ He). lia.
  - intros s l' xs x Hs Hl [(-> & ys & Hys & ->)|[_ Hl']]%lookup_alter_Some Hx;
      [|eauto].
    apply elem_of_app in Hx as [Hx|Hx]; [eauto|].
    apply list_elem_of_singleton in Hx as ->. simpl.
    intros Hin%terminated_called. specialize (H1 _ Hin). lia.
Qed.

Lemma wf_tr_Remove l e st : wf_tr st → wf_tr (Remove l e st).
Proof.
  intros [H1 H2 H3]. split; st_simpl; [done..|].
  intros s l' xs x Hs Hl [(-> & ys & Hys & ->)|[_ Hl']]%lookup_alter_Some Hx;
    [|eauto].
  apply list_elem_of_filter in Hx as [_ Hx]. eauto.
Qed.

Lemma wf_tr_processSignal s st :
  wf_reg st → wf_tr st → wf_tr (processSignal s st).
Proof.
  intros Hreg Htr. rewrite processSignal_wf by done.
  destruct (lists st s) as [xs|] eqn:Hxs;
    [|apply wf_tr_logs; [by repeat constructor|done]].
  pose proof (lists_values _ _ _ Hreg Hxs) as Hval.
  pose proof (lists_nodup _ _ _ Hreg Hxs) as Hnd.
  destruct (dispatch_events_called s xs Hval) as (Hc & _ & Ht).
  assert (Hids : ∀ e, e ∈ reverse (el_id <$> xs) → e < next_elem st).
  { intros e (x & -> & Hx)%elem_of_reverse%list_elem_of_fmap.
    unfold lists in Hxs. destruct (cbsList st !! s) as [l|]; [|done].
    by eapply wf_elems. }
  destruct Htr as [H1 H2 H3].
  destruct (is_termination s) eqn:Hs.
  - assert (Hfresh : ∀ e, e ∈ reverse (el_id <$> xs) →
                          e ∉ terminated_elems (trace st)).
    { intros e (x & -> & Hx)%elem_of_reverse%list_elem_of_fmap.
      unfold lists in Hxs.
      destruct (cbsList st !! s) as [l|] eqn:Hl; [|done]. eauto. }
    destruct (truncate_frame st) as (_ & Te & _ & _ & _ & _ & Tt).
    split; proj_logs; rewrite ?Te, ?Tt, ?called_elems_app,
      ?terminated_elems_app, ?Hc, ?Ht.
    + intros e [He|He]%elem_of_app; eauto.
    + apply NoDup_app. split_and!; [done| |by rewrite reverse_Permutation].
      intros e He1 He2. by eapply Hfresh.
    + intros t l ys y Htt Hl Hys Hy.
      assert (lists (truncate st) t = Some ys) as Hlt
        by (unfold lists; by rewrite Hl).
      rewrite truncate_lists in Hlt by done.
      injection Hlt as <-. by apply elem_of_nil in Hy.
  - split; proj_logs; rewrite ?called_elems_app, ?terminated_elems_app,
      ?Hc, ?Ht, ?app_nil_r; [|done..].
    intros e [He|He]%elem_of_app; eauto.
Qed.

Lemma wf_tr_OnSignal sig cb st :
  wf_reg st → wf_tr st → wf_tr (snd (OnSignal sig cb st)).
Proof.
  intros Hreg Htr. rewrite OnSignal_eq.
  destruct (cbsList st !! sig) as [l|]; cbn [snd].
  - apply wf_tr_log; [done|]. apply wf_tr_PushBack. by apply wf_tr_log.
  - apply wf_tr_log; [done|]. apply wf_tr_PushBack, wf_tr_assign_New.
    + revert Hreg. by apply wf_reg_same.
    + unfold signal_Notify. apply wf_tr_log; [done|].
      apply (wf_tr_same (mux_Lock st)); [done..|]. by apply wf_tr_log.
Qed.

Lemma wf_tr_call_remover r st :
  wf_reg st → wf_tr st → wf_tr (call_remover r st).
Proof.
  intros Hreg Htr.
  apply (call_remover_preserves (λ st, wf_reg st ∧ wf_tr st)); [|done].
  intros l e st' [H1 H2]. split.
  - apply wf_reg_log, wf_reg_Remove. by apply wf_reg_log.
  - apply wf_tr_log; [done|]. apply wf_tr_Remove. by apply wf_tr_log.
Qed.

Lemma wf_rt_OnKill cb st :
  wf_reg st → wf_tr st →
  wf_reg (snd (OnKill cb st)) ∧ wf_tr (snd (OnKill cb st)).
Proof.
  intros Hr Ht. unfold OnKill.
  pose proof (wf_reg_OnSignal SIGKILL cb st Hr) as Hr1.
  pose proof (wf_tr_OnSignal SIGKILL cb st Hr Ht) as Ht1.
  destruct (OnSignal SIGKILL cb st) as [r1 st1]; cbn [snd] in Hr1, Ht1.
  pose proof (wf_reg_OnSignal SIGQUIT cb st1 Hr1) as Hr2.
  pose proof (wf_tr_OnSignal SIGQUIT cb st1 Hr1 Ht1) as Ht2.
  destruct (OnSignal SIGQUIT cb st1) as [r2 st2]; cbn [snd] in Hr2, Ht2.
  pose proof (wf_reg_OnSignal SIGINT cb st2 Hr2) as Hr3.
  pose proof (wf_tr_OnSignal SIGINT cb st2 Hr2 Ht2) as Ht3.
  by destruct (OnSignal SIGINT cb st2) as [r3 st3].
Qed.

Lemma wf_rt_loop_iter st :
  wf_reg st ∧ wf_tr st → wf_reg (loop_iter st) ∧ wf_tr (loop_iter st).
Proof.
  intros [Hr Ht]. unfold loop_iter. destruct (wait st); [done|].
  destruct (ch st) as [|s q].
  - destruct (ch_closed st); [|done]. unfold wait_Done. split.
    + apply wf_reg_log. revert Hr. by apply wf_reg_same.
    + apply wf_tr_log; [done|]. revert Ht. by apply wf_tr_same.
  - assert (wf_reg (set_ch q st)) by (revert Hr; by apply wf_reg_same).
    assert (wf_tr (set_ch q st)) by (revert Ht; by apply wf_tr_same).
    split; [by apply wf_reg_processSignal|by apply wf_tr_processSignal].
Qed.

Lemma wf_rt_run_loop n st :
  wf_reg st ∧ wf_tr st → wf_reg (run_loop n st) ∧ wf_tr (run_loop n st).
Proof.
  revert st. induction n as [|n IH]; intros st H; [done|].
  cbn [run_loop]. by apply IH, wf_rt_loop_iter.
Qed.

Lemma wf_rt_Deferrer err st :
  wf_reg st ∧ wf_tr st →
  wf_reg (snd (Deferrer err st)) ∧ wf_tr (snd (Deferrer err st)).
Proof.
  intros H. unfold Deferrer.
  assert (Hlog : ∀ ev st', is_call ev = false → wf_reg st' ∧ wf_tr st' →
                           wf_reg (log ev st') ∧ wf_tr (log ev st')).
  { intros ev st' Hev [??]. split; [by apply wf_reg_log|by apply wf_tr_log]. }
  assert (Hsame : ∀ st0 st', cbsList st' = cbsList st0 → heap st' = heap st0 →
            next_list st' = next_list st0 → next_elem st' = next_elem st0 →
            trace st' = trace st0 →
            wf_reg st0 ∧ wf_tr st0 → wf_reg st' ∧ wf_tr st').
  { intros st0 st' ????? [H1 H2]. split.
    - revert H1. by apply wf_reg_same.
    - revert H2. by apply wf_tr_same. }
  set (st1 := signal_Stop (report err st)).
  assert (H1 : wf_reg st1 ∧ wf_tr st1).
  { unfold st1, signal_Stop. apply Hlog; [done|].
    apply (Hsame (report err st)); [done..|].
    destruct err; [|done]. unfold report. by do 2 (apply Hlog; [done|]). }
  assert (Hdef : ∀ o st', wf_reg st' ∧ wf_tr st' →
            let r := match err with
                     | Some _ => (Exited 1, log (EvExit 1) st')
                     | None => (o, st')
                     end in wf_reg (snd r) ∧ wf_tr (snd r)).
  { intros o st' H'. destruct err; [|done]. by apply Hlog. }
  unfold chan_send. destruct (ch_closed st1); [by apply Hdef|].
  set (st2 := run_loop (S (length (ch st1)) - cap_ch) st1).
  assert (H2 : wf_reg st2 ∧ wf_tr st2) by by apply wf_rt_run_loop.
  destruct (length (ch st2) <? cap_ch); [|done].
  set (st3 := wait_Wait (chan_close (set_ch (ch st2 ++ [SIGINT]) st2))).
  assert (H3 : wf_reg st3 ∧ wf_tr st3).
  { unfold st3, wait_Wait. apply wf_rt_run_loop. unfold chan_close.
    apply Hlog; [done|]. by apply (Hsame st2). }
  destruct (wait st3); [by apply Hdef|done].
Qed.

(** ** The channel between two calls *)

Lemma OnSignal_frame sig cb st :
  ch (snd (OnSignal sig cb st)) = ch st
  ∧ ch_closed (snd (OnSignal sig cb st)) = ch_closed st
  ∧ wait (snd (OnSignal sig cb st)) = wait st.
Proof.
  rewrite OnSignal_eq. by destruct (cbsList st !! sig).
Qed.

Lemma OnKill_frame cb st :
  ch (snd (OnKill cb st)) = ch st
  ∧ ch_closed (snd (OnKill cb st)) = ch_closed st
  ∧ wait (snd (OnKill cb st)) = wait st.
Proof.
  unfold OnKill.
  pose proof (OnSignal_frame SIGKILL cb st) as H1.
  destruct (OnSignal SIGKILL cb st) as [r1 st1]; cbn [snd] in H1.
  pose proof (OnSignal_frame SIGQUIT cb st1) as H2.
  destruct (OnSignal SIGQUIT cb st1) as [r2 st2]; cbn [snd] in H2.
  pose proof (OnSignal_frame SIGINT cb st2) as H3.
  destruct (OnSignal SIGINT cb st2) as [r3 st3]; cbn [snd] in *.
  destruct H1 as (? & ? & ?), H2 as (? & ? & ?), H3 as (? & ? & ?).
  split_and!; congruence.
Qed.

Lemma call_remover_frame r st :
  cbsList (call_remover r st) = cbsList st
  ∧ next_list (call_remover r st) = next_list st
  ∧ next_elem (call_remover r st) = next_elem st
  ∧ ch (call_remover r st) = ch st
  ∧ ch_closed (call_remover r st) = ch_closed st
  ∧ wait (call_remover r st) = wait st
  ∧ notified (call_remover r st) = notified st.
Proof.
  apply (call_remover_preserves (λ st',
    cbsList st' = cbsList st ∧ next_list st' = next_list st
    ∧ next_elem st' = next_elem st ∧ ch st' = ch st
    ∧ ch_closed st' = ch_closed st ∧ wait st' = wait st
    ∧ notified st' = notified st)); [|done].
  intros l e st' H. by st_simpl.
Qed.

Lemma wf_ch_same st st' :
  ch st' = ch st → ch_closed st' = ch_closed st → wait st' = wait st →
  wf_ch st → wf_ch st'.
Proof. intros H1 H2 H3 [??]. split; rewrite ?H1, ?H2, ?H3; done. Qed.

Lemma wf_ch_step op st : wf_ch st → wf_ch (step op st).
Proof.
  intros H. destruct op as [sig cb|cb|cb|r|s| |err]; cbn [step].
  - revert H. apply wf_ch_same; apply OnSignal_frame.
  - revert H. apply wf_ch_same; apply OnSignal_frame.
  - revert H. apply wf_ch_same; apply OnKill_frame.
  - revert H. apply wf_ch_same; apply call_remover_frame.
  - unfold deliver. case_bool_decide; [|done].
    destruct (ch_closed st) eqn:Hc; [revert H; by apply wf_ch_same|].
    destruct (length (ch st) <? cap_ch) eqn:Hlen; [|done].
    apply Nat.ltb_lt in Hlen. destruct H as [H1 H2]. split; st_simpl.
    + rewrite length_app. simpl. lia.
    + done.
  - unfold loop_iter. destruct (wait st) as [|w] eqn:Hw; [done|].
    destruct H as [H1 H2].
    destruct (ch_closed st) eqn:Hc; [by rewrite Hw in H2|].
    destruct (ch st) as [|s q] eqn:Hq; [by split; rewrite ?Hc, ?Hq|].
    destruct (processSignal_frame s (set_ch q st)) as (F1 & F2 & F3 & _).
    split; rewrite ?F1, ?F2, ?F3; st_simpl; rewrite ?Hc; [|done].
    simpl in H1. lia.
  - destruct (ch_closed st) eqn:Hc.
    + unfold Deferrer, chan_send.
      replace (ch_closed (signal_Stop (report err st))) with (ch_closed st)
        by (by destruct err).
      rewrite Hc. revert H.
      destruct err; apply wf_ch_same; reflexivity.
    + destruct H as [H1 H2]. rewrite Hc in H2.
      destruct (Deferrer_open err st Hc H2)
        as (evs1 & evs2 & st' & -> & _ & _ & _ & _ & _ & _ & Hch & Hcl & Hw & _).
      destruct err; split; st_simpl; rewrite ?Hch, ?Hcl, ?Hw; simpl;
        done || lia.
Qed.

(** ** Reachable states are well formed *)

Lemma wf_init : wf init.
Proof.
  split_and!; [apply wf_reg_init|apply wf_tr_init|].
  split; [unfold cap_ch; simpl; lia|done].
Qed.

Lemma wf_step op st : wf st → wf (step op st).
Proof.
  intros (Hr & Ht & Hc). split_and!; [| |by apply wf_ch_step].
  - destruct op; cbn [step].
    + by apply wf_reg_OnSignal.
    + by apply wf_reg_OnSignal.
    + by apply wf_reg_OnKill.
    + by apply wf_reg_call_remover.
    + unfold deliver. case_bool_decide; [|done].
      destruct (ch_closed st); [by apply wf_reg_log|].
      destruct (length (ch st) <? cap_ch); [|done].
      revert Hr. by apply wf_reg_same.
    + by apply wf_rt_loop_iter.
    + by apply wf_rt_Deferrer.
  - destruct op; cbn [step].
    + by apply wf_tr_OnSignal.
    + by apply wf_tr_OnSignal.
    + by apply wf_rt_OnKill.
    + by apply wf_tr_call_remover.
    + unfold deliver. case_bool_decide; [|done].
      destruct (ch_closed st); [by apply wf_tr_log|].
      destruct (length (ch st) <? cap_ch); [|done].
      revert Ht. by apply wf_tr_same.
    + by apply wf_rt_loop_iter.
    + by apply wf_rt_Deferrer.
Qed.

Lemma wf_run ops st : wf st → wf (run ops st).
Proof.
  revert st. induction ops as [|op ops IH]; intros st H; [done|].
  cbn [run fold_left]. apply IH. by apply wf_step.
Qed.

(** ** Deferrer: exit status and order of events *)



(** ** After Deferrer *)

Lemma phase_Stopped st : phase st = Stopped ↔ wait st = 0.
Proof.
  unfold phase. destruct (wait st); [done|]. by destruct (ch_closed st).
Qed.

Lemma phase_not_Running st :
  phase st ≠ Running ↔ wait st = 0 ∨ ch_closed st = true.
Proof.
  unfold phase. destruct (wait st), (ch_closed st);
    split; try done; auto; by intros [?|?].
Qed.

(** C9. Once [Deferrer] has been called, the dispatcher loop is stopped and
    stays stopped whatever happens afterwards: signals delivered again, new
    registrations, removals, further iterations of a loop that has ended,
    another call of [Deferrer].  None of these invokes a callback.  More
    generally no operation takes the loop from Draining or Stopped back to
    Running, or from Stopped to another state. *)
Theorem stopped_forever (err : option string) (st : State) (ops : list Op) :
  wf st →
  let st' := snd (Deferrer err st) in
  phase st' = Stopped
  ∧ phase (run ops st') = Stopped
  ∧ Forall (λ ev, is_call ev = false) (new_events st' (run ops st'))
  ∧ (∀ op st0, phase st0 ≠ Running → phase (step op st0) ≠ Running)
  ∧ (∀ op st0, phase st0 = Stopped → phase (step op st0) = Stopped).
Proof.
  intros (_ & _ & [Hlen Hwait]) st'. subst st'.
  assert (Hw : wait (snd (Deferrer err st)) = 0).
  { destruct (ch_closed st) eqn:Hc.
    - destruct (later_Deferrer err st) as (Hle & _). lia.
    - destruct (Deferrer_open err st Hc Hwait)
        as (_ & _ & st4 & -> & _ & _ & _ & _ & _ & _ & _ & _ & Hw & _).
      by destruct err. }
  destruct (later_run ops (snd (Deferrer err st)))
    as (Hle & _ & evs & Hevs & Hno).
  split_and!.
  - by apply phase_Stopped.
  - apply phase_Stopped. lia.
  - rewrite (new_events_app _ _ _ Hevs). by apply Hno.
  - intros op st0 [H|H]%phase_not_Running; apply phase_not_Running;
      destruct (later_step op st0) as (Hle0 & Hc0 & _);
      [left; lia|right; auto].
  - intros op st0 H%phase_Stopped. apply phase_Stopped.
    destruct (later_step op st0) as (Hle0 & _). lia.
Qed.

Lemma stopped_forever_witness :
  wf (snd (OnKill 7 init))
  ∧ called (trace (run [OpDeliver SIGINT; OpLoop; OpOnKill 8; OpLoop]
                     (snd (Deferrer None (snd (OnKill 7 init))))))
    = called (trace (snd (Deferrer None (snd (OnKill 7 init))))).
Proof.
  assert (Hwf : wf (snd (OnKill 7 init))).
  { apply (wf_run [OpOnKill 7] init), wf_init. }
  split; [exact Hwf|].
  destruct (stopped_forever None (snd (OnKill 7 init))
              [OpDeliver SIGINT; OpLoop; OpOnKill 8; OpLoop] Hwf)
    as (_ & _ & H & _).
  destruct (later_run [OpDeliver SIGINT; OpLoop; OpOnKill 8; OpLoop]
              (snd (Deferrer None (snd (OnKill 7 init)))))
    as (_ & _ & evs & Hevs & _).
  rewrite (new_events_app _ _ _ Hevs) in H.
  rewrite Hevs, called_app.
  destruct (no_call_called _ H) as (-> & _). by rewrite app_nil_r.
Defined.

(** ** Termination signals *)

Lemma lists_logs evs st s : lists (logs evs st) s = lists st s.
Proof. reflexivity. Qed.

Lemma lists_None st s :
  wf_reg st → lists st s = None → cbsList st !! s = None.
Proof.
  intros Hwf. unfold lists.
  destruct (cbsList st !! s) as [l|] eqn:Hl; [|done].
  destruct (wf_map _ Hwf _ _ Hl) as [xs Hxs]. cbn [mbind option_bind].
  by rewrite Hxs.
Qed.

Lemma dispatch_events_one s st :
  dispatch_events [s] st = new_events st (processSignal s st).
Proof. reflexivity. Qed.

(** The events of one dispatch, from the list of the signal. *)
Lemma dispatch_events_wf s st :
  wf_reg st →
  dispatch_events [s] st
  = EvLock :: (call_event s <$> reverse (default [] (lists st s))) ++ [EvUnlock].
Proof.
  intros Hwf. rewrite dispatch_events_one, processSignal_wf by done.
  destruct (lists st s) as [xs|]; [|by rewrite new_events_logs].
  apply new_events_app. rewrite trace_logs.
  destruct (is_termination s); [|done].
  by destruct (truncate_frame st) as (_ & _ & _ & _ & _ & _ & ->).
Qed.

Lemma dispatch_one_called s st :
  wf_reg st →
  called_elems (dispatch_events [s] st)
  = reverse (el_id <$> default [] (lists st s))
  ∧ called (dispatch_events [s] st) = reverse (callbacks (default [] (lists st s))).
Proof.
  intros Hwf. rewrite dispatch_events_wf by done.
  assert (Forall (λ x, Value x ≠ VOther) (default [] (lists st s))) as Hval.
  { destruct (lists st s) as [xs|] eqn:Hxs; [|constructor].
    by eapply lists_values. }
  by destruct (dispatch_events_called s _ Hval) as (-> & -> & _).
Qed.

(** After the dispatch of a termination signal that had a list, the three
    termination signals have empty lists. *)
Lemma processSignal_truncated s st xs t :
  wf_reg st → is_termination s = true → lists st s = Some xs →
  is_termination t = true → lists (processSignal s st) t = Some [].
Proof.
  intros Hwf Hs Hxs Ht. rewrite processSignal_wf, Hxs, Hs by done.
  rewrite lists_logs. by apply truncate_lists.
Qed.

(** With the three lists empty, termination signals invoke nothing. *)
Lemma dispatch_truncated sigs st :
  wf_reg st →
  (∀ t, is_termination t = true → lists st t = Some []) →
  Forall (λ t, is_termination t = true) sigs →
  called_elems (dispatch_events sigs st) = []
  ∧ called (dispatch_events sigs st) = [].
Proof.
  intros Hwf Hempty Hsigs. revert st Hwf Hempty.
  induction Hsigs as [|s sigs Hs _ IH]; intros st Hwf Hempty.
  - unfold dispatch_events, new_events. cbn [dispatch_all fold_left].
    by rewrite drop_all.
  - rewrite dispatch_events_cons, called_elems_app, called_app.
    assert (called_elems (dispatch_events [s] st) = []
            ∧ called (dispatch_events [s] st) = []) as [-> ->].
    { destruct (dispatch_one_called s st Hwf) as [-> ->].
      by rewrite (Hempty s Hs). }
    apply IH; [by apply wf_reg_processSignal|].
    intros t Ht. apply (processSignal_truncated s st []); auto.
Qed.

(** Across a sequence of termination signals, the callbacks invoked are
    those of one list. *)
Lemma dispatch_terminations sigs st :
  wf_reg st →
  Forall (λ t, is_termination t = true) sigs →
  (called_elems (dispatch_events sigs st) = []
   ∧ called (dispatch_events sigs st) = [])
  ∨ ∃ s xs, s ∈ sigs ∧ lists st s = Some xs
            ∧ called_elems (dispatch_events sigs st) = reverse (el_id <$> xs)
            ∧ called (dispatch_events sigs st) = reverse (callbacks xs).
Proof.
  intros Hwf Hsigs. revert st Hwf.
  induction Hsigs as [|s sigs Hs Hsigs IH]; intros st Hwf.
  - left. unfold dispatch_events, new_events. cbn [dispatch_all fold_left].
    by rewrite drop_all.
  - rewrite dispatch_events_cons, called_elems_app, called_app.
    destruct (dispatch_one_called s st Hwf) as [-> ->].
    destruct (lists st s) as [xs|] eqn:Hxs.
    + right. exists s, xs. split; [by left|]. split; [done|].
      destruct (dispatch_truncated sigs (processSignal s st)) as [-> ->];
        [by apply wf_reg_processSignal| |done|by rewrite !app_nil_r].
      intros t Ht. by eapply processSignal_truncated.
    + replace (reverse (el_id <$> default [] None)) with (@nil nat) by done.
      replace (reverse (callbacks (default [] None))) with (@nil Callback)
        by done.
      cbn [app]. rewrite processSignal_None by by apply lists_None.
      destruct (IH (logs [EvLock; EvUnlock] st)) as [H|(t & ys & Ht & Hys & H)];
        [by apply wf_reg_logs|by left|].
      right. exists t, ys. split; [by right|]. by rewrite lists_logs in Hys.
Qed.

(** C1. When [processSignal] handles SIGKILL, SIGINT or SIGQUIT and the
    signal has a list, it first puts new empty lists in the map for all
    three signals and then runs the callbacks of the list it had looked up,
    on the registry so truncated.  Hence, across any sequence of termination
    signals, the callbacks invoked are those of a single list, each element
    once; after the first dispatch that found a list the others invoke
    nothing.  And whatever else happens to the package, registrations and
    removals included, no element is invoked twice by termination
    dispatches. *)
Theorem termination_dispatch_once
    (st : State) (s : Z) (xs : list Element) (sigs : list Z) (ops : list Op) :
  wf st → is_termination s = true → lists st s = Some xs →
  Forall (λ t, is_termination t = true) sigs →
  processSignal s st = mux_Unlock (back_to_front s xs (truncate (mux_Lock st)))
  ∧ (lists (truncate (mux_Lock st)) SIGKILL = Some []
     ∧ lists (truncate (mux_Lock st)) SIGINT = Some []
     ∧ lists (truncate (mux_Lock st)) SIGQUIT = Some [])
  ∧ (lists (processSignal s st) SIGKILL = Some []
     ∧ lists (processSignal s st) SIGINT = Some []
     ∧ lists (processSignal s st) SIGQUIT = Some [])
  ∧ called_elems (dispatch_events (s :: sigs) st) = reverse (el_id <$> xs)
  ∧ called (dispatch_events (s :: sigs) st) = reverse (callbacks xs)
  ∧ ((called_elems (dispatch_events sigs st) = []
      ∧ called (dispatch_events sigs st) = [])
     ∨ ∃ t ys, t ∈ sigs ∧ lists st t = Some ys
               ∧ called_elems (dispatch_events sigs st) = reverse (el_id <$> ys)
               ∧ called (dispatch_events sigs st) = reverse (callbacks ys))
  ∧ NoDup (called_elems (dispatch_events sigs st))
  ∧ NoDup (terminated_elems (trace (run ops st))).
Proof.
  intros Hwf Hs Hxs Hsigs. pose proof Hwf as (Hreg & Htr & Hch).
  split_and!.
  - rewrite processSignal_wf, Hxs, Hs by done.
    unfold mux_Unlock, mux_Lock. rewrite back_to_front_logs, !log_logs.
    by rewrite truncate_logs, !logs_logs.
  - by apply truncate_lists.
  - by apply truncate_lists.
  - by apply truncate_lists.
  - by apply (processSignal_truncated s st xs).
  - by apply (processSignal_truncated s st xs).
  - by apply (processSignal_truncated s st xs).
  - rewrite dispatch_events_cons, called_elems_app.
    destruct (dispatch_one_called s st Hreg) as [-> _]. rewrite Hxs.
    destruct (dispatch_truncated sigs (processSignal s st)) as [-> _];
      [by apply wf_reg_processSignal| |done|by rewrite app_nil_r].
    intros t Ht. by apply (processSignal_truncated s st xs).
  - rewrite dispatch_events_cons, called_app.
    destruct (dispatch_one_called s st Hreg) as [_ ->]. rewrite Hxs.
    destruct (dispatch_truncated sigs (processSignal s st)) as [_ ->];
      [by apply wf_reg_processSignal| |done|by rewrite app_nil_r].
    intros t Ht. by apply (processSignal_truncated s st xs).
  - by apply dispatch_terminations.
  - destruct (dispatch_terminations sigs st Hreg Hsigs)
      as [[-> _]|(t & ys & _ & Hys & -> & _)]; [constructor|].
    rewrite reverse_Permutation. by eapply lists_nodup.
  - by apply wf_run.
Qed.

Lemma termination_dispatch_once_witness :
  wf (snd (OnKill 7 init))
  ∧ is_termination SIGINT = true
  ∧ lists (snd (OnKill 7 init)) SIGINT = Some [mkElement 2 (VCallback 7)]
  ∧ called (dispatch_events [SIGINT; SIGQUIT; SIGKILL; SIGINT]
              (snd (OnKill 7 init))) = [7].
Proof.
  assert (Hwf : wf (snd (OnKill 7 init))).
  { apply (wf_run [OpOnKill 7] init), wf_init. }
  split; [exact Hwf|]. split; [reflexivity|]. split; [reflexivity|].
  apply (termination_dispatch_once (snd (OnKill 7 init)) SIGINT
           [mkElement 2 (VCallback 7)] [SIGQUIT; SIGKILL; SIGINT] [] Hwf);
    [reflexivity|reflexivity|by repeat constructor].
Defined.

(** ** Registration and removal, seen through the map *)

Lemma lists_elems st s xs x :
  wf_reg st → lists st s = Some xs → x ∈ xs → el_id x < next_elem st.
Proof.
  intros Hwf Hl Hx. unfold lists in Hl.
  destruct (cbsList st !! s) as [l|]; [|done]. by eapply wf_elems.
Qed.

Lemma lists_default_elems st s x :
  wf_reg st → x ∈ default [] (lists st s) → el_id x < next_elem st.
Proof.
  intros Hwf Hx. destruct (lists st s) as [xs|] eqn:Hxs.
  - by eapply lists_elems.
  - by apply elem_of_nil in Hx.
Qed.

Lemma OnSignal_spec sig cb st :
  wf_reg st →
  ∃ l, fst (OnSignal sig cb st) = RemoverOnSignal l (next_elem st)
       ∧ cbsList (snd (OnSignal sig cb st)) !! sig = Some l
       ∧ (∀ t, t ≠ sig →
            cbsList (snd (OnSignal sig cb st)) !! t = cbsList st !! t)
       ∧ lists (snd (OnSignal sig cb st)) sig
         = Some (default [] (lists st sig)
                 ++ [mkElement (next_elem st) (VCallback cb)])
       ∧ (∀ t, t ≠ sig → lists (snd (OnSignal sig cb st)) t = lists st t)
       ∧ next_elem (snd (OnSignal sig cb st)) = S (next_elem st).
Proof.
  intros Hwf. destruct (cbsList st !! sig) as [l|] eqn:Hl.
  - rewrite (OnSignal_Some _ _ _ _ Hl). cbn [fst snd]. exists l.
    destruct (wf_map _ Hwf _ _ Hl) as [xs Hxs].
    unfold lists. proj_logs. st_simpl. rewrite Hl. cbn [mbind option_bind].
    split_and!; try done.
    + by rewrite lookup_alter_eq, Hxs.
    + intros t Ht. destruct (cbsList st !! t) as [l'|] eqn:Hl'; [|done].
      cbn [mbind option_bind]. rewrite lookup_alter_ne; [done|].
      intros <-. apply Ht. by eapply wf_inj.
  - rewrite (OnSignal_None _ _ _ Hl). cbn [fst snd]. exists (next_list st).
    unfold lists. proj_logs. st_simpl. rewrite Hl, lookup_insert_eq.
    cbn [mbind option_bind]. rewrite lookup_insert_eq.
    split_and!; try done.
    + intros t Ht. by rewrite lookup_insert_ne.
    + intros t Ht. rewrite lookup_insert_ne by done.
      destruct (cbsList st !! t) as [l'|] eqn:Hl'; [|done].
      cbn [mbind option_bind].
      destruct (wf_map _ Hwf _ _ Hl') as [ys Hys].
      pose proof (wf_heap _ Hwf _ _ Hys). rewrite lookup_insert_ne by lia. done.
Qed.

Lemma remove_spec sig l e st :
  wf_reg st → cbsList st !! sig = Some l →
  cbsList (call_remover (RemoverOnSignal l e) st) = cbsList st
  ∧ lists (call_remover (RemoverOnSignal l e) st) sig
    = filter (λ x, el_id x ≠ e) <$> lists st sig
  ∧ ∀ t, t ≠ sig → lists (call_remover (RemoverOnSignal l e) st) t = lists st t.
Proof.
  intros Hwf Hl. cbn [call_remover]. unfold lists. st_simpl. rewrite Hl.
  cbn [mbind option_bind]. split_and!; [done|by rewrite lookup_alter_eq|].
  intros t Ht. destruct (cbsList st !! t) as [l'|] eqn:Hl'; [|done].
  cbn [mbind option_bind]. rewrite lookup_alter_ne; [done|].
  intros <-. apply Ht. by eapply wf_inj.
Qed.

(** A remover whose list is no longer in the map changes no list of the
    map. *)
Lemma remove_dead l e st :
  (∀ t, cbsList st !! t ≠ Some l) →
  cbsList (call_remover (RemoverOnSignal l e) st) = cbsList st
  ∧ ∀ t, lists (call_remover (RemoverOnSignal l e) st) t = lists st t.
Proof.
  intros Hdead. cbn [call_remover]. unfold lists. st_simpl.
  split; [done|]. intros t.
  destruct (cbsList st !! t) as [l'|] eqn:Hl'; [|done].
  cbn [mbind option_bind]. rewrite lookup_alter_ne; [done|].
  intros <-. by eapply Hdead.
Qed.

Lemma filter_all_ne (xs : list Element) e :
  (∀ x, x ∈ xs → el_id x ≠ e) → filter (λ x, el_id x ≠ e) xs = xs.
Proof.
  induction xs as [|x xs IH]; intros H; [done|].
  rewrite filter_cons_True by (apply H; by left).
  rewrite IH; [done|]. intros y Hy. apply H. by right.
Qed.

Lemma filter_pushed (xs : list Element) e v :
  (∀ x, x ∈ xs → el_id x < e) →
  filter (λ x, el_id x ≠ e) (xs ++ [mkElement e v]) = xs.
Proof.
  intros H. rewrite filter_app, filter_all_ne.
  - rewrite filter_cons_False by (cbn; auto). by rewrite filter_nil, app_nil_r.
  - intros x Hx. specialize (H x Hx). lia.
Qed.

(** ** OnKill *)

Lemma OnKill_eq cb st :
  let st1 := snd (OnSignal SIGKILL cb st) in
  let st2 := snd (OnSignal SIGQUIT cb st1) in
  let st3 := snd (OnSignal SIGINT cb st2) in
  OnKill cb st
  = (RemoverOnKill [fst (OnSignal SIGKILL cb st);
                    fst (OnSignal SIGQUIT cb st1);
                    fst (OnSignal SIGINT cb st2)], st3).
Proof.
  unfold OnKill.
  destruct (OnSignal SIGKILL cb st) as [r1 st1]. cbn [fst snd].
  destruct (OnSignal SIGQUIT cb st1) as [r2 st2]. cbn [fst snd].
  by destruct (OnSignal SIGINT cb st2) as [r3 st3].
Qed.

Lemma call_remover_three a b c st :
  call_remover (RemoverOnKill [a; b; c]) st
  = call_remover c (call_remover b (call_remover a st)).
Proof. reflexivity. Qed.

Lemma signals_distinct :
  SIGKILL ≠ SIGQUIT ∧ SIGKILL ≠ SIGINT ∧ SIGQUIT ≠ SIGINT ∧ SIGQUIT ≠ SIGKILL
  ∧ SIGINT ≠ SIGKILL ∧ SIGINT ≠ SIGQUIT.
Proof. unfold SIGKILL, SIGINT, SIGQUIT. split_and!; lia. Qed.

Lemma not_termination t :
  is_termination t = false → t ≠ SIGKILL ∧ t ≠ SIGINT ∧ t ≠ SIGQUIT.
Proof.
  intros Ht. apply bool_decide_eq_false in Ht. split_and!; intros ->; auto.
Qed.

(** C7. [OnKill] appends the callback to the lists of SIGKILL, SIGQUIT and
    SIGINT, in this order, as three new elements, and leaves the list of
    every other signal as it was.  Calling the remover it returns takes
    these three elements out again: each of the three lists is back to what
    it held before (an empty list where there was none), and the other lists
    are untouched. *)
Theorem OnKill_registers_all (st : State) (cb : Callback) :
  wf st →
  let r := fst (OnKill cb st) in
  let st' := snd (OnKill cb st) in
  let e := next_elem st in
  lists st' SIGKILL
  = Some (default [] (lists st SIGKILL) ++ [mkElement e (VCallback cb)])
  ∧ lists st' SIGQUIT
    = Some (default [] (lists st SIGQUIT) ++ [mkElement (S e) (VCallback cb)])
  ∧ lists st' SIGINT
    = Some (default [] (lists st SIGINT) ++ [mkElement (S (S e)) (VCallback cb)])
  ∧ (∀ t, is_termination t = false → lists st' t = lists st t)
  ∧ lists (call_remover r st') SIGKILL = Some (default [] (lists st SIGKILL))
  ∧ lists (call_remover r st') SIGQUIT = Some (default [] (lists st SIGQUIT))
  ∧ lists (call_remover r st') SIGINT = Some (default [] (lists st SIGINT))
  ∧ (∀ t, is_termination t = false → lists (call_remover r st') t = lists st t).
Proof.
  intros (Hwf & _ & _) r st' e. subst r st' e.
  destruct signals_distinct as (N1 & N2 & N3 & N4 & N5 & N6).
  rewrite OnKill_eq. cbn [fst snd].
  set (st1 := snd (OnSignal SIGKILL cb st)).
  set (st2 := snd (OnSignal SIGQUIT cb st1)).
  set (st3 := snd (OnSignal SIGINT cb st2)).
  assert (Hwf1 : wf_reg st1) by by apply wf_reg_OnSignal.
  assert (Hwf2 : wf_reg st2) by by apply wf_reg_OnSignal.
  assert (Hwf3 : wf_reg st3) by by apply wf_reg_OnSignal.
  destruct (OnSignal_spec SIGKILL cb st Hwf)
    as (l1 & -> & A1 & A2 & A3 & A4 & A5). fold st1 in A1, A2, A3, A4, A5.
  destruct (OnSignal_spec SIGQUIT cb st1 Hwf1)
    as (l2 & -> & B1 & B2 & B3 & B4 & B5). fold st2 in B1, B2, B3, B4, B5.
  destruct (OnSignal_spec SIGINT cb st2 Hwf2)
    as (l3 & -> & C1 & C2 & C3 & C4 & C5). fold st3 in C1, C2, C3, C4, C5.
  rewrite A5 in *. rewrite B5 in *.
  assert (HK : lists st3 SIGKILL
               = Some (default [] (lists st SIGKILL)
                       ++ [mkElement (next_elem st) (VCallback cb)])).
  { by rewrite C4, B4, A3. }
  assert (HQ : lists st3 SIGQUIT
               = Some (default [] (lists st SIGQUIT)
                       ++ [mkElement (S (next_elem st)) (VCallback cb)])).
  { by rewrite C4, B3, A4. }
  assert (HI : lists st3 SIGINT
               = Some (default [] (lists st SIGINT)
                       ++ [mkElement (S (S (next_elem st))) (VCallback cb)])).
  { by rewrite C3, B4, A4. }
  assert (HO : ∀ t, is_termination t = false → lists st3 t = lists st t).
  { intros t (T1 & T2 & T3)%not_termination. by rewrite C4, B4, A4. }
  assert (Hl1 : cbsList st3 !! SIGKILL = Some l1) by by rewrite C2, B2.
  assert (Hl2 : cbsList st3 !! SIGQUIT = Some l2) by by rewrite C2.
  split_and!; try done.
  all: rewrite call_remover_three.
  all: set (st4 := call_remover (RemoverOnSignal l1 (next_elem st)) st3).
  all: set (st5 := call_remover (RemoverOnSignal l2 (S (next_elem st))) st4).
  all: destruct (remove_spec SIGKILL l1 (next_elem st) st3 Hwf3 Hl1)
         as (D1 & D2 & D3); fold st4 in D1, D2, D3.
  all: assert (Hwf4 : wf_reg st4) by by apply wf_reg_call_remover.
  all: assert (Hl2' : cbsList st4 !! SIGQUIT = Some l2) by by rewrite D1.
  all: destruct (remove_spec SIGQUIT l2 (S (next_elem st)) st4 Hwf4 Hl2')
         as (E1 & E2 & E3); fold st5 in E1, E2, E3.
  all: assert (Hwf5 : wf_reg st5) by by apply wf_reg_call_remover.
  all: assert (Hl3' : cbsList st5 !! SIGINT = Some l3) by by rewrite E1, D1.
  all: destruct (remove_spec SIGINT l3 (S (S (next_elem st))) st5 Hwf5 Hl3')
         as (F1 & F2 & F3).
  - rewrite F3, E3, D2, HK by done. cbn [fmap option_fmap option_map].
    rewrite filter_pushed; [done|]. intros x Hx.
    by apply (lists_default_elems st SIGKILL).
  - rewrite F3, E2, D3, HQ by done. cbn [fmap option_fmap option_map].
    rewrite filter_pushed; [done|]. intros x Hx.
    pose proof (lists_default_elems st SIGQUIT x Hwf Hx). lia.
  - rewrite F2, E3, D3, HI by done. cbn [fmap option_fmap option_map].
    rewrite filter_pushed; [done|]. intros x Hx.
    pose proof (lists_default_elems st SIGINT x Hwf Hx). lia.
  - intros t Ht. pose proof Ht as (T1 & T2 & T3)%not_termination.
    rewrite F3, E3, D3 by done. by apply HO.
Qed.

Lemma OnKill_registers_all_witness :
  wf (snd (OnReload 3 init))
  ∧ is_termination SIGUSR1 = false
  ∧ lists (snd (OnKill 7 (snd (OnReload 3 init)))) SIGUSR1
    = lists (snd (OnReload 3 init)) SIGUSR1
  ∧ lists (call_remover (fst (OnKill 7 (snd (OnReload 3 init))))
             (snd (OnKill 7 (snd (OnReload 3 init))))) SIGINT = Some [].
Proof.
  assert (Hwf : wf (snd (OnReload 3 init))).
  { apply (wf_run [OpOnReload 3] init), wf_init. }
  destruct (OnKill_registers_all (snd (OnReload 3 init)) 7 Hwf)
    as (_ & _ & _ & H4 & _ & _ & H7 & _).
  split; [exact Hwf|]. split; [reflexivity|]. split.
  - by apply H4.
  - exact H7.
Defined.

(** ** Properties kept by every operation *)

Lemma Deferrer_preserves (P : State → Prop) :
  (∀ ev st, is_call ev = false → P st → P (log ev st)) →
  (∀ st st', cbsList st' = cbsList st → heap st' = heap st →
             next_list st' = next_list st → next_elem st' = next_elem st →
             trace st' = trace st → P st → P st') →
  (∀ s st, P st → P (processSignal s st)) →
  ∀ err st, P st → P (snd (Deferrer err st)).
Proof.
  intros Hlog Hsame Hproc err st H.
  assert (Hiter : ∀ st0, P st0 → P (loop_iter st0)).
  { intros st0 H0. unfold loop_iter. destruct (wait st0); [done|].
    destruct (ch st0) as [|s q].
    - destruct (ch_closed st0); [|done]. unfold wait_Done.
      apply Hlog; [done|]. by apply (Hsame st0).
    - apply Hproc. by apply (Hsame st0). }
  assert (Hloop : ∀ n st0, P st0 → P (run_loop n st0)).
  { induction n as [|n IH]; intros st0 H0; [done|]. cbn [run_loop]. auto. }
  unfold Deferrer.
  set (st1 := signal_Stop (report err st)).
  assert (H1 : P st1).
  { unfold st1, signal_Stop. apply Hlog; [done|].
    apply (Hsame (report err st)); [done..|].
    destruct err; [|done]. unfold report. by do 2 (apply Hlog; [done|]). }
  assert (Hdef : ∀ o st', P st' →
            P (snd (match err with
                    | Some _ => (Exited 1, log (EvExit 1) st')
                    | None => (o, st')
                    end))).
  { intros o st' H'. destruct err; [|done]. by apply Hlog. }
  unfold chan_send. destruct (ch_closed st1); [by apply Hdef|].
  set (st2 := run_loop (S (length (ch st1)) - cap_ch) st1).
  assert (H2 : P st2) by by apply Hloop.
  destruct (length (ch st2) <? cap_ch); [|done].
  set (st3 := wait_Wait (chan_close (set_ch (ch st2 ++ [SIGINT]) st2))).
  assert (H3 : P st3).
  { unfold st3, wait_Wait. apply Hloop. unfold chan_close.
    apply Hlog; [done|]. by apply (Hsame st2). }
  destruct (wait st3); [by apply Hdef|done].
Qed.

Lemma step_preserves (P : State → Prop) :
  (∀ ev st, is_call ev = false → P st → P (log ev st)) →
  (∀ st st', cbsList st' = cbsList st → heap st' = heap st →
             next_list st' = next_list st → next_elem st' = next_elem st →
             trace st' = trace st → P st → P st') →
  (∀ s st, P st → P (processSignal s st)) →
  (∀ l cb st, P st → P (snd (PushBack l (VCallback cb) st))) →
  (∀ sig st, P st → P (assign_New sig st)) →
  (∀ l e st, P st → P (Remove l e st)) →
  ∀ op st, P st → P (step op st).
Proof.
  intros Hlog Hsame Hproc Hpush Hnew Hrem.
  assert (HOn : ∀ sig cb st, P st → P (snd (OnSignal sig cb st))).
  { intros sig cb st H. rewrite OnSignal_eq.
    destruct (cbsList st !! sig) as [l|]; cbn [snd].
    - apply Hlog; [done|]. apply Hpush. by apply Hlog.
    - apply Hlog; [done|]. apply Hpush, Hnew. unfold signal_Notify.
      apply Hlog; [done|]. apply (Hsame (mux_Lock st)); [done..|].
      by apply Hlog. }
  intros op st H. destruct op as [sig cb|cb|cb|r|s| |err]; cbn [step].
  - by apply HOn.
  - by apply HOn.
  - rewrite OnKill_eq. cbn [snd]. by do 3 apply HOn.
  - revert st H. apply call_remover_preserves. intros l e st H.
    apply Hlog; [done|]. apply Hrem. by apply Hlog.
  - unfold deliver. case_bool_decide; [|done].
    destruct (ch_closed st); [by apply Hlog|].
    destruct (length (ch st) <? cap_ch); [|done]. by apply (Hsame st).
  - unfold loop_iter. destruct (wait st); [done|].
    destruct (ch st) as [|s q].
    + destruct (ch_closed st); [|done]. unfold wait_Done.
      apply Hlog; [done|]. by apply (Hsame st).
    + apply Hproc. by apply (Hsame st).
  - by apply Deferrer_preserves.
Qed.

Lemma run_preserves (P : State → Prop) :
  (∀ op st, P st → P (step op st)) → ∀ ops st, P st → P (run ops st).
Proof.
  intros Hstep ops. induction ops as [|op ops IH]; intros st H; [done|].
  cbn [run fold_left]. apply IH. by apply Hstep.
Qed.

(** ** Removers *)

Lemma filter_all {A} (P : A → Prop) `{∀ x, Decision (P x)} (xs : list A) :
  (∀ x, x ∈ xs → P x) → filter P xs = xs.
Proof.
  induction xs as [|x xs IH]; intros HP; [done|].
  rewrite filter_cons_True by (apply HP; by left).
  rewrite IH; [done|]. intros y Hy. apply HP. by right.
Qed.

(** What a remover does to the store: it filters its targets out. *)
Lemma heap_call_remover r st l :
  heap (call_remover r st) !! l
  = filter (λ x, (l, el_id x) ∉ targets r) <$> heap st !! l.
Proof.
  revert st. induction r as [l0 e|rfns IH] using CallbackRemover_ind; intros st.
  - cbn [call_remover targets]. st_simpl. rewrite lookup_alter. case_decide.
    + subst l0. destruct (heap st !! l) as [xs|]; [|done].
      cbn [fmap option_fmap option_map]. f_equal. apply list_filter_iff.
      intros x. rewrite list_elem_of_singleton. split; [congruence|].
      intros Hne Heq. apply Hne. by rewrite Heq.
    + destruct (heap st !! l) as [xs|]; [|done].
      cbn [fmap option_fmap option_map]. f_equal. symmetry. apply filter_all.
      intros x _. rewrite list_elem_of_singleton. congruence.
  - cbn [call_remover targets]. revert st.
    induction IH as [|r rfns Hr _ IHrs]; intros st.
    + cbn [fold_left flat_map]. destruct (heap st !! l) as [xs|]; [|done].
      cbn [fmap option_fmap option_map]. f_equal. symmetry. apply filter_all.
      intros x _. apply not_elem_of_nil.
    + cbn [fold_left flat_map]. rewrite IHrs, Hr.
      destruct (heap st !! l) as [xs|]; [|done].
      cbn [fmap option_fmap option_map]. f_equal.
      rewrite list_filter_filter. apply list_filter_iff.
      intros x. rewrite elem_of_app. tauto.
Qed.

(** ** Registrations and removals on one signal *)

Lemma OnSignal_keep sig cb st l :
  cbsList st !! sig = Some l → cbsList (snd (OnSignal sig cb st)) = cbsList st.
Proof. intros H. by rewrite (OnSignal_Some _ _ _ _ H). Qed.

Lemma registered_snoc es regs e r :
  length es = length regs →
  registered (es ++ [e]) (regs ++ [r])
  = registered es regs
    ++ match r with Some cb => [mkElement e (VCallback cb)] | None => [] end.
Proof.
  intros Hlen. unfold registered.
  rewrite zip_with_app by done. rewrite omap_app. by destruct r.
Qed.

Lemma registered_ids es regs x :
  x ∈ registered es regs → el_id x ∈ es.
Proof.
  unfold registered. intros ([e r] & Hin & Hx)%list_elem_of_omap.
  cbn in Hx. destruct r as [cb|]; [|done]. injection Hx as <-. cbn.
  apply elem_of_zip_l in Hin. done.
Qed.

Lemma registered_callbacks es regs :
  length es = length regs → callbacks (registered es regs) = omap id regs.
Proof.
  revert regs. induction es as [|e es IH]; intros [|r regs] Hlen; try done.
  injection Hlen as Hlen. unfold registered, callbacks in *. cbn.
  destruct r as [cb|]; cbn; by rewrite IH.
Qed.

Lemma registered_cons e es r regs :
  registered (e :: es) (r :: regs)
  = match r with Some cb => [mkElement e (VCallback cb)] | None => [] end
    ++ registered es regs.
Proof. by destruct r. Qed.

Lemma registered_remove es regs k e :
  NoDup es → es !! k = Some e → length es = length regs →
  filter (λ x, el_id x ≠ e) (registered es regs)
  = registered es (<[k := None]> regs).
Proof.
  revert regs k. induction es as [|e0 es IH]; intros [|r regs] k Hnd Hk Hlen;
    try done.
  injection Hlen as Hlen. apply NoDup_cons in Hnd as [Hnot Hnd].
  rewrite registered_cons, filter_app.
  destruct k as [|k]; cbn [lookup list_lookup] in Hk.
  - injection Hk as ->.
    change (<[0:=None]> (r :: regs)) with (None :: regs).
    rewrite registered_cons. cbn [app].
    rewrite (filter_all _ (registered es regs)).
    + destruct r as [cb|]; [|done].
      by rewrite filter_cons_False by (cbn; auto).
    + intros x Hx%registered_ids Heq. by rewrite Heq in Hx.
  - assert (e ≠ e0) by (intros ->; apply Hnot; by eapply list_elem_of_lookup_2).
    change (<[S k:=None]> (r :: regs)) with (r :: <[k:=None]> regs).
    rewrite registered_cons, (IH regs k Hnd Hk Hlen). f_equal.
    destruct r as [cb|]; [|done].
    by rewrite filter_cons_True by (cbn; auto).
Qed.

Lemma callbacks_app xs ys : callbacks (xs ++ ys) = callbacks xs ++ callbacks ys.
Proof. apply omap_app. Qed.

Lemma remaining_registers cbs regs :
  remaining (Register <$> cbs) regs = omap id regs ++ cbs.
Proof.
  revert regs. induction cbs as [|cb cbs IH]; intros regs.
  - cbn. by rewrite app_nil_r.
  - cbn [fmap list_fmap remaining]. rewrite IH, omap_app.
    by rewrite <- (assoc_L (++)).
Qed.

(** The list of [sig] holds, after what it held at the start ([xs0]), the
    elements of the registrations not removed. *)
Lemma run_reg_inv sig xs0 n0 rops :
  ∀ hs regs es st,
    wf_reg st →
    length es = length regs → length hs = length es →
    (∀ k h, hs !! k = Some h →
       ∃ l e, cbsList st !! sig = Some l ∧ es !! k = Some e
              ∧ h = RemoverOnSignal l e) →
    NoDup es → (∀ e, e ∈ es → n0 ≤ e < next_elem st) → n0 ≤ next_elem st →
    (∀ x, x ∈ xs0 → el_id x < n0) →
    default [] (lists st sig) = xs0 ++ registered es regs →
    wf_reg (run_reg sig rops hs st)
    ∧ callbacks (default [] (lists (run_reg sig rops hs st) sig))
      = callbacks xs0 ++ remaining rops regs.
Proof.
  induction rops as [|[cb|k] rops IH];
    intros hs regs es st Hwf Hlen Hlen' Hhs Hnd Hes Hn0 Hxs0 Hlist.
  - cbn [run_reg remaining]. split; [done|].
    by rewrite Hlist, callbacks_app, registered_callbacks.
  - cbn [run_reg remaining].
    destruct (OnSignal_spec sig cb st Hwf) as (l & Hr & Hl & Hm & Hs & Ho & He).
    pose proof (wf_reg_OnSignal sig cb st Hwf) as Hwf1.
    destruct (OnSignal sig cb st) as [h st1] eqn:HOn. cbn [fst snd] in *.
    subst h.
    apply (IH (hs ++ [RemoverOnSignal l (next_elem st)]) (regs ++ [Some cb])
             (es ++ [next_elem st])).
    + done.
    + rewrite !length_app. cbn. lia.
    + rewrite !length_app. cbn. lia.
    + intros k h Hk. apply lookup_app_Some in Hk as [Hk|[Hge Hk]].
      * destruct (Hhs _ _ Hk) as (l0 & e0 & Hl0 & He0 & ->).
        exists l0, e0. split_and!; [|by apply lookup_app_l_Some|done].
        pose proof (OnSignal_keep sig cb st l0 Hl0) as Hkeep.
        rewrite HOn in Hkeep. cbn [snd] in Hkeep. by rewrite Hkeep.
      * apply list_lookup_singleton_Some in Hk as [Hk <-].
        exists l, (next_elem st). split_and!; [done| |done].
        assert (k = length es) as -> by lia.
        by rewrite lookup_app_r, Nat.sub_diag.
    + apply NoDup_app. split_and!; [done| |apply NoDup_singleton].
      intros e Hin Heq%list_elem_of_singleton. specialize (Hes _ Hin). lia.
    + intros e [Hin|Hin]%elem_of_app.
      * specialize (Hes _ Hin). lia.
      * apply list_elem_of_singleton in Hin as ->. lia.
    + lia.
    + done.
    + rewrite Hs. cbn [default]. rewrite Hlist, registered_snoc by done.
      by rewrite <- (assoc_L (++)).
  - cbn [run_reg remaining]. destruct (hs !! k) as [h|] eqn:Hk.
    + destruct (Hhs _ _ Hk) as (l & e & Hl & He & ->).
      destruct (remove_spec sig l e st Hwf Hl) as (R1 & R2 & _).
      destruct (call_remover_frame (RemoverOnSignal l e) st)
        as (_ & _ & Re & _).
      apply (IH hs (<[k:=None]> regs) es).
      * by apply wf_reg_call_remover.
      * by rewrite length_insert.
      * done.
      * intros k' h' Hk'. rewrite R1. by apply Hhs.
      * done.
      * intros e' He'. rewrite Re. by apply Hes.
      * by rewrite Re.
      * done.
      * rewrite R2.
        assert (default [] (filter (λ x, el_id x ≠ e) <$> lists st sig)
                = filter (λ x, el_id x ≠ e) (default [] (lists st sig))) as ->
          by by destruct (lists st sig).
        rewrite Hlist, filter_app, (registered_remove _ _ k) by done.
        rewrite filter_all; [done|]. intros x Hx.
        specialize (Hxs0 _ Hx).
        assert (e ∈ es) as Hin by by eapply list_elem_of_lookup_2.
        specialize (Hes _ Hin). lia.
    + apply lookup_ge_None in Hk.
      rewrite list_insert_ge by lia. by apply (IH _ _ es).
Qed.

(** C2. After any sequence of registrations on one signal and of calls of
    the removers they returned, the dispatch of the signal invokes the
    callbacks the list held at the start followed by those registered and
    not removed, all of them last registered first.  With registrations
    only, from the initial state, the callbacks run in exactly the reverse of
    the order of registration. *)
Theorem dispatch_LIFO
    (st : State) (sig : Z) (rops : list RegOp) (cbs : list Callback) :
  wf st →
  called (dispatch_events [sig] (run_reg sig rops [] st))
  = reverse (callbacks (default [] (lists st sig)) ++ remaining rops [])
  ∧ called (dispatch_events [sig] (run_reg sig (Register <$> cbs) [] st))
    = reverse (callbacks (default [] (lists st sig)) ++ cbs)
  ∧ called (dispatch_events [sig] (run_reg sig (Register <$> cbs) [] init))
    = reverse cbs.
Proof.
  intros (Hwf & _ & _).
  assert (Hgen : ∀ st0 rops0, wf_reg st0 →
    called (dispatch_events [sig] (run_reg sig rops0 [] st0))
    = reverse (callbacks (default [] (lists st0 sig)) ++ remaining rops0 [])).
  { intros st0 rops0 Hwf0.
    destruct (run_reg_inv sig (default [] (lists st0 sig)) (next_elem st0)
                rops0 [] [] [] st0) as [Hwf' Hcb]; try done.
    - apply NoDup_nil_2.
    - intros e He. by apply elem_of_nil in He.
    - intros x Hx. by apply (lists_default_elems st0 sig).
    - unfold registered. cbn. by rewrite app_nil_r.
    - destruct (dispatch_one_called sig _ Hwf') as [_ ->]. by rewrite Hcb. }
  split_and!.
  - by apply Hgen.
  - rewrite Hgen by done. by rewrite remaining_registers.
  - rewrite Hgen by apply wf_reg_init. by rewrite remaining_registers.
Qed.

Lemma dispatch_LIFO_witness :
  wf (snd (OnReload 1 init))
  ∧ called (dispatch_events [SIGUSR1]
              (run_reg SIGUSR1
                 [Register 2; Register 3; Unregister 0; Register 4; Unregister 0]
                 [] (snd (OnReload 1 init))))
    = [4; 3; 1].
Proof.
  assert (Hwf : wf (snd (OnReload 1 init))).
  { apply (wf_run [OpOnReload 1] init), wf_init. }
  split; [exact Hwf|].
  destruct (dispatch_LIFO (snd (OnReload 1 init)) SIGUSR1
              [Register 2; Register 3; Unregister 0; Register 4; Unregister 0]
              [] Hwf) as (-> & _).
  vm_compute. reflexivity.
Defined.

(** ** Which signals have a list *)

Lemma grows_refl st : grows st st.
Proof. intros sig. split; auto. Qed.

Lemma grows_same st st' st'' :
  cbsList st'' = cbsList st' → grows st st' → grows st st''.
Proof. intros Hc H sig. rewrite Hc. apply H. Qed.

Lemma truncate_is_Some st sig :
  is_Some (cbsList (truncate st) !! sig)
  ↔ is_Some (cbsList st !! sig) ∨ is_termination sig = true.
Proof.
  rewrite truncate_cbsList, !lookup_insert_is_Some.
  unfold is_termination. rewrite bool_decide_eq_true.
  destruct (decide (sig = SIGQUIT)), (decide (sig = SIGINT)),
    (decide (sig = SIGKILL)); intuition congruence.
Qed.

Lemma grows_processSignal s st st' : grows st st' → grows st (processSignal s st').
Proof.
  intros H. rewrite processSignal_unfold.
  destruct (cbsList st' !! s) as [cbs|] eqn:Hs; [|by apply (grows_same st st')].
  destruct (is_termination s) eqn:Ht; cbv zeta; [|by apply (grows_same st st')].
  intros sig. rewrite cbsList_logs, truncate_is_Some. split.
  - intros Hsig. left. by apply H.
  - intros [Hsig|Hsig]; [by apply H|].
    destruct (H s) as [_ Hs']. destruct Hs' as [Hold|(_ & t & Ht' & Hold)]; eauto.
Qed.

Lemma grows_call_remover r st : grows st (call_remover r st).
Proof.
  apply (grows_same st st); [|apply grows_refl].
  by destruct (call_remover_frame r st) as (-> & _).
Qed.

Lemma grows_loop_iter st st' : grows st st' → grows st (loop_iter st').
Proof.
  intros H. unfold loop_iter. destruct (wait st'); [done|].
  destruct (ch st') as [|s q].
  - destruct (ch_closed st'); [|done]. by apply (grows_same st st').
  - apply grows_processSignal. by apply (grows_same st st').
Qed.

Lemma grows_Deferrer err st : grows st (snd (Deferrer err st)).
Proof.
  apply (Deferrer_preserves (grows st)).
  - intros ev st' _. by apply grows_same.
  - intros st0 st' Hc _ _ _ _. by apply grows_same.
  - intros s st'. apply grows_processSignal.
  - apply grows_refl.
Qed.

Lemma OnSignal_is_Some s cb st sig :
  is_Some (cbsList (snd (OnSignal s cb st)) !! sig)
  ↔ is_Some (cbsList st !! sig) ∨ s = sig.
Proof.
  destruct (cbsList st !! s) as [l|] eqn:Hl.
  - rewrite (OnSignal_Some _ _ _ _ Hl). cbn [snd]. rewrite cbsList_logs.
    st_simpl. split; [auto|]. intros [?|<-]; [done|]. by rewrite Hl.
  - rewrite (OnSignal_None _ _ _ Hl). cbn [snd]. rewrite cbsList_logs.
    st_simpl. rewrite lookup_insert_is_Some.
    destruct (decide (s = sig)); intuition congruence.
Qed.

Lemma OnKill_is_Some cb st sig :
  is_Some (cbsList (snd (OnKill cb st)) !! sig)
  ↔ is_Some (cbsList st !! sig) ∨ is_termination sig = true.
Proof.
  rewrite OnKill_eq. cbn [snd]. rewrite !OnSignal_is_Some.
  unfold is_termination. rewrite bool_decide_eq_true.
  intuition (subst; auto).
Qed.

(** What one operation does to the set of signals that have a list. *)
Lemma step_is_Some op st sig :
  (is_Some (cbsList st !! sig) → is_Some (cbsList (step op st) !! sig))
  ∧ (registers sig op = true → is_Some (cbsList (step op st) !! sig))
  ∧ (is_Some (cbsList (step op st) !! sig) →
     is_Some (cbsList st !! sig) ∨ registers sig op = true
     ∨ (is_termination sig = true
        ∧ ∃ t, is_termination t = true ∧ is_Some (cbsList st !! t))).
Proof.
  assert (Hg : ∀ st', grows st st' →
    (is_Some (cbsList st !! sig) → is_Some (cbsList st' !! sig))
    ∧ (false = true → is_Some (cbsList st' !! sig))
    ∧ (is_Some (cbsList st' !! sig) →
       is_Some (cbsList st !! sig) ∨ false = true
       ∨ (is_termination sig = true
          ∧ ∃ t, is_termination t = true ∧ is_Some (cbsList st !! t)))).
  { intros st' H. destruct (H sig) as [H1 H2]. split_and!; [done..|].
    intros [?|?]%H2; auto. }
  destruct op as [s cb|cb|cb|r|s| |err]; cbn [step registers].
  - rewrite OnSignal_is_Some, bool_decide_eq_true. intuition (subst; auto).
  - unfold OnReload. rewrite OnSignal_is_Some, bool_decide_eq_true.
    intuition (subst; auto).
  - rewrite OnKill_is_Some. intuition auto.
  - apply Hg, grows_call_remover.
  - apply Hg. apply (grows_same st st); [|apply grows_refl].
    unfold deliver. case_bool_decide; [|done].
    destruct (ch_closed st); [done|]. by destruct (length (ch st) <? cap_ch).
  - apply Hg, grows_loop_iter, grows_refl.
  - apply Hg, grows_Deferrer.
Qed.

Lemma run_snoc ops op st : run (ops ++ [op]) st = step op (run ops st).
Proof. unfold run. by rewrite fold_left_app. Qed.

Lemma ever_registered_snoc sig ops op :
  ever_registered sig (ops ++ [op])
  = ever_registered sig ops || registers sig op.
Proof.
  unfold ever_registered. rewrite existsb_app. cbn. by rewrite orb_false_r.
Qed.

Lemma OnSignal_events sig cb st :
  new_events st (snd (OnSignal sig cb st))
  = match cbsList st !! sig with
    | Some _ => [EvLock; EvUnlock]
    | None => [EvLock; EvNotify sig; EvUnlock]
    end.
Proof.
  destruct (cbsList st !! sig) as [l|] eqn:Hl; apply new_events_app.
  - rewrite (OnSignal_Some _ _ _ _ Hl). cbn [snd]. by rewrite trace_logs.
  - rewrite (OnSignal_None _ _ _ Hl). cbn [snd]. by rewrite trace_logs.
Qed.

Lemma run_is_Some ops :
  ∀ sig,
    (ever_registered sig ops = true → is_Some (cbsList (run ops init) !! sig))
    ∧ (is_Some (cbsList (run ops init) !! sig) →
       ever_registered sig ops = true
       ∨ (is_termination sig = true
          ∧ ∃ t, is_termination t = true ∧ ever_registered t ops = true)).
Proof.
  induction ops as [|op ops IH] using rev_ind; intros sig.
  - split; [done|]. cbn. rewrite lookup_empty. by intros [? ?].
  - rewrite run_snoc, ever_registered_snoc.
    destruct (step_is_Some op (run ops init) sig) as (S1 & S2 & S3).
    destruct (IH sig) as [I1 I2]. split.
    + intros [H|H]%orb_true_iff; auto.
    + assert (Hex : ∀ t, is_termination t = true →
                is_Some (cbsList (run ops init) !! t) →
                ∃ t', is_termination t' = true
                      ∧ ever_registered t' (ops ++ [op]) = true).
      { intros t Ht Hs. destruct (IH t) as [_ It].
        destruct (It Hs) as [Hr|(_ & t' & Ht' & Hr)].
        - exists t. by rewrite ever_registered_snoc, Hr.
        - exists t'. by rewrite ever_registered_snoc, Hr. }
      intros [Hold|[Hreg|(Hterm & t & Ht & Hs)]]%S3.
      * destruct (I2 Hold) as [Hr|(Hterm & t & Ht & Hr)].
        -- left. by rewrite Hr.
        -- right. split; [done|]. exists t. by rewrite ever_registered_snoc, Hr.
      * left. by rewrite Hreg, orb_true_r.
      * right. split; [done|]. by apply (Hex t).
Qed.

(** C8, as the code has it.  In every state the package can reach: a signal
    for which a callback was ever registered has a list; a signal outside
    the termination class has a list only if a callback was registered for
    it; a termination signal has a list only if one was registered for it or
    for another termination signal (the dispatch of a termination signal
    that has a list assigns new lists to all three).  No operation takes a
    list out of the map.  [OnSignal] leaves the signal with a list, and
    calls [signal.Notify] exactly when the signal had none. *)
Theorem lists_exist_invariant
    (ops : list Op) (sig : Z) (op : Op) (cb : Callback) :
  let st := run ops init in
  (ever_registered sig ops = true → is_Some (cbsList st !! sig))
  ∧ (is_termination sig = false →
     is_Some (cbsList st !! sig) → ever_registered sig ops = true)
  ∧ (is_Some (cbsList st !! sig) →
     ever_registered sig ops = true
     ∨ (is_termination sig = true
        ∧ ∃ t, is_termination t = true ∧ ever_registered t ops = true))
  ∧ (is_Some (cbsList st !! sig) → is_Some (cbsList (step op st) !! sig))
  ∧ is_Some (cbsList (snd (OnSignal sig cb st)) !! sig)
  ∧ (EvNotify sig ∈ new_events st (snd (OnSignal sig cb st))
     ↔ cbsList st !! sig = None)
  ∧ (is_termination sig = true → is_Some (cbsList st !! sig) →
     lists (processSignal sig st) SIGKILL = Some []
     ∧ lists (processSignal sig st) SIGINT = Some []
     ∧ lists (processSignal sig st) SIGQUIT = Some []).
Proof.
  intros st. destruct (run_is_Some ops sig) as [H1 H2].
  split_and!; [done| |done| | | |].
  - intros Hnt [Hr|[Ht _]]%H2; [done|]. by rewrite Ht in Hnt.
  - apply step_is_Some.
  - apply OnSignal_is_Some. by right.
  - rewrite OnSignal_events. destruct (cbsList st !! sig) as [l|].
    + split; [|done]. rewrite !elem_of_cons, elem_of_nil.
      intros [?|[?|?]]; done.
    + split; [done|]. intros _. rewrite !elem_of_cons. auto.
  - intros Ht [l Hl].
    assert (Hwf : wf_reg st) by apply (wf_run ops init wf_init).
    destruct (wf_map _ Hwf _ _ Hl) as [xs Hxs].
    assert (Hlist : lists st sig = Some xs) by (unfold lists; by rewrite Hl).
    split_and!; by apply (processSignal_truncated sig st xs).
Qed.

Lemma lists_exist_invariant_witness :
  ever_registered SIGINT [OpOnSignal SIGINT 7; OpDeliver SIGINT; OpLoop] = true
  ∧ is_Some (cbsList (run [OpOnSignal SIGINT 7; OpDeliver SIGINT; OpLoop] init)
               !! SIGINT)
  ∧ lists (processSignal SIGINT
             (run [OpOnSignal SIGINT 7; OpDeliver SIGINT; OpLoop] init)) SIGKILL
    = Some [].
Proof.
  destruct (lists_exist_invariant
              [OpOnSignal SIGINT 7; OpDeliver SIGINT; OpLoop] SIGINT OpLoop 8)
    as (H1 & _ & _ & _ & _ & _ & H6).
  split; [reflexivity|]. split; [exact (H1 eq_refl)|].
  exact (proj1 (H6 eq_refl (H1 eq_refl))).
Defined.

(** C8, as the claim has it, fails.  A callback is registered for SIGINT
    only and SIGINT is dispatched: SIGKILL now has a list, and no callback
    was ever registered for it.  A registration for SIGKILL that comes
    afterwards finds this list and does not call [signal.Notify]. *)
Lemma list_without_registration :
  ever_registered SIGKILL [OpOnSignal SIGINT 7; OpDeliver SIGINT; OpLoop] = false
  ∧ lists (run [OpOnSignal SIGINT 7; OpDeliver SIGINT; OpLoop] init) SIGKILL
    = Some []
  ∧ new_events (run [OpOnSignal SIGINT 7; OpDeliver SIGINT; OpLoop] init)
      (snd (OnSignal SIGKILL 8
              (run [OpOnSignal SIGINT 7; OpDeliver SIGINT; OpLoop] init)))
    = [EvLock; EvUnlock].
Proof. split_and!; vm_compute; reflexivity. Qed.

(** ** Deferrer and the termination callbacks *)

Lemma OnKill_SIGINT cb st :
  wf_reg st →
  lists (snd (OnKill cb st)) SIGINT
  = Some (default [] (lists st SIGINT)
          ++ [mkElement (S (S (next_elem st))) (VCallback cb)]).
Proof.
  intros Hwf. destruct signals_distinct as (N1 & N2 & N3 & N4 & N5 & N6).
  rewrite OnKill_eq. cbn [snd].
  set (st1 := snd (OnSignal SIGKILL cb st)).
  set (st2 := snd (OnSignal SIGQUIT cb st1)).
  assert (Hwf1 : wf_reg st1) by by apply wf_reg_OnSignal.
  assert (Hwf2 : wf_reg st2) by by apply wf_reg_OnSignal.
  destruct (OnSignal_spec SIGKILL cb st Hwf) as (l1 & _ & _ & _ & _ & A4 & A5).
  destruct (OnSignal_spec SIGQUIT cb st1 Hwf1) as (l2 & _ & _ & _ & _ & B4 & B5).
  destruct (OnSignal_spec SIGINT cb st2 Hwf2) as (l3 & _ & _ & _ & C3 & _).
  fold st1 in A4, A5, B4, B5. fold st2 in B4, B5, C3.
  by rewrite C3, B5, A5, B4, A4.
Qed.

Lemma Deferrer_registry err st :
  wf st → ch_closed st = false →
  called_elems (new_events st (snd (Deferrer err st)))
  = called_elems (dispatch_events (ch st ++ [SIGINT]) st)
  ∧ called (new_events st (snd (Deferrer err st)))
    = called (dispatch_events (ch st ++ [SIGINT]) st)
  ∧ ∀ t, lists (snd (Deferrer err st)) t
         = lists (dispatch_all (ch st ++ [SIGINT]) st) t.
Proof.
  intros (Hreg & Htr & [Hlen Hwait]) Hopen. rewrite Hopen in Hwait.
  destruct (Deferrer_open err st Hopen Hwait)
    as (evs1 & evs2 & st4 & -> & Ht & Hev & Hc & Hh & _).
  assert (Hrep : ∃ R, trace (report err st) = trace st ++ R
                      ∧ called_elems R = [] ∧ called R = []).
  { destruct err as [e|]; unfold report.
    - eexists. rewrite !log_logs, logs_logs, trace_logs. by split_and!.
    - exists []. by rewrite app_nil_r. }
  destruct Hrep as (R & HR & HR1 & HR2). rewrite HR in Ht.
  assert (Hnew : ∃ X, new_events st
                   (snd (match err with
                         | Some _ => Exited 1
                         | None => Returned
                         end,
                         match err with
                         | Some _ => log (EvExit 1) st4
                         | None => st4
                         end))
                 = R ++ [EvStop] ++ evs1 ++ [EvClose] ++ evs2 ++ X
                 ∧ called_elems X = [] ∧ called X = []).
  { destruct err; cbn [snd].
    - exists [EvDone; EvExit 1]. split; [|done]. apply new_events_app.
      rewrite log_logs, trace_logs, Ht. by rewrite <- !(assoc_L (++)).
    - exists [EvDone]. split; [|done]. apply new_events_app.
      rewrite Ht. by rewrite <- !(assoc_L (++)). }
  destruct Hnew as (X & -> & HX1 & HX2).
  split_and!.
  - rewrite <- Hev, !called_elems_app, HR1, HX1. by rewrite app_nil_r.
  - rewrite <- Hev, !called_app, HR2, HX2. by rewrite app_nil_r.
  - intros t. unfold lists. destruct err; cbn [snd]; proj_logs;
      rewrite ?log_logs; proj_logs; by rewrite Hc, Hh.
Qed.

(** C3, as the code has it.  On both exit paths [Deferrer] sends SIGINT
    after what is still buffered, and the dispatcher handles it before it
    stops.  With nothing buffered, the callbacks invoked are exactly those of
    the list of SIGINT, each element once, last registered first; if SIGINT
    has a list the three termination lists are empty afterwards, and if it
    has none nothing is invoked and the registry is unchanged, whatever the
    lists of SIGQUIT and SIGKILL hold.  A callback registered through
    [OnKill] is on the list of SIGINT and so runs, once for this
    registration and before those registered earlier. *)
Theorem Deferrer_interrupt_callbacks
    (err : option string) (st : State) (cb : Callback) :
  wf st → ch_closed st = false →
  let st' := snd (Deferrer err st) in
  called (new_events st st') = called (dispatch_events (ch st ++ [SIGINT]) st)
  ∧ (ch st = [] →
     called_elems (new_events st st')
     = reverse (el_id <$> default [] (lists st SIGINT))
     ∧ NoDup (called_elems (new_events st st'))
     ∧ called (new_events st st')
       = reverse (callbacks (default [] (lists st SIGINT)))
     ∧ (is_Some (lists st SIGINT) →
        lists st' SIGKILL = Some [] ∧ lists st' SIGINT = Some []
        ∧ lists st' SIGQUIT = Some [])
     ∧ (lists st SIGINT = None → ∀ t, lists st' t = lists st t)
     ∧ called (new_events (snd (OnKill cb st))
                 (snd (Deferrer err (snd (OnKill cb st)))))
       = cb :: reverse (callbacks (default [] (lists st SIGINT)))).
Proof.
  intros Hwf Hopen st'. subst st'. pose proof Hwf as (Hreg & _ & _).
  destruct (Deferrer_registry err st Hwf Hopen) as (D1 & D2 & D3).
  split; [done|]. intros Hch. rewrite Hch in D1, D2, D3. cbn [app] in D1, D2, D3.
  destruct (dispatch_one_called SIGINT st Hreg) as [E1 E2].
  rewrite E1 in D1. rewrite E2 in D2. split_and!; [done| |done| | |].
  - rewrite D1, reverse_Permutation.
    destruct (lists st SIGINT) as [xs|] eqn:Hxs; [|constructor].
    by eapply lists_nodup.
  - intros [xs Hxs]. rewrite !D3. unfold dispatch_all. cbn [fold_left].
    split_and!; by apply (processSignal_truncated SIGINT st xs).
  - intros Hnone t. rewrite D3. unfold dispatch_all. cbn [fold_left].
    rewrite processSignal_None by by apply lists_None. apply lists_logs.
  - assert (Hwf1 : wf (snd (OnKill cb st))) by apply (wf_step (OpOnKill cb) st Hwf).
    destruct (OnKill_frame cb st) as (F1 & F2 & _).
    destruct (Deferrer_registry err _ Hwf1) as (_ & -> & _);
      [by rewrite F2|].
    rewrite F1, Hch. cbn [app].
    destruct (dispatch_one_called SIGINT _ (proj1 Hwf1)) as [_ ->].
    rewrite OnKill_SIGINT by done.
    set (xs := default [] (lists st SIGINT)). cbn [default from_option id].
    rewrite callbacks_app, reverse_app. done.
Qed.

Lemma Deferrer_interrupt_callbacks_witness :
  wf (snd (OnKill 7 (snd (OnSignal SIGQUIT 5 init))))
  ∧ ch_closed (snd (OnKill 7 (snd (OnSignal SIGQUIT 5 init)))) = false
  ∧ ch (snd (OnKill 7 (snd (OnSignal SIGQUIT 5 init)))) = []
  ∧ called (new_events (snd (OnKill 7 (snd (OnSignal SIGQUIT 5 init))))
              (snd (Deferrer (Some "fault")
                      (snd (OnKill 7 (snd (OnSignal SIGQUIT 5 init)))))))
    = [7].
Proof.
  assert (Hwf : wf (snd (OnKill 7 (snd (OnSignal SIGQUIT 5 init))))).
  { apply (wf_run [OpOnSignal SIGQUIT 5; OpOnKill 7] init), wf_init. }
  destruct (Deferrer_interrupt_callbacks (Some "fault")
              (snd (OnKill 7 (snd (OnSignal SIGQUIT 5 init)))) 9 Hwf eq_refl)
    as (_ & H).
  destruct (H eq_refl) as (_ & _ & -> & _).
  split; [exact Hwf|]. split; [reflexivity|]. split; [reflexivity|].
  vm_compute. reflexivity.
Defined.

(** C3, as the claim has it, fails.  A callback is registered for SIGQUIT
    only; no signal arrives; [Deferrer] runs without a panic.  SIGINT has no
    list, [processSignal] returns at once, and the callback is not invoked:
    it is still on the list of SIGQUIT when the dispatcher has stopped. *)
Lemma Deferrer_skips_quit_only :
  lists (snd (OnSignal SIGQUIT 7 init)) SIGQUIT = Some [mkElement 0 (VCallback 7)]
  ∧ fst (Deferrer None (snd (OnSignal SIGQUIT 7 init))) = Returned
  ∧ called (trace (snd (Deferrer None (snd (OnSignal SIGQUIT 7 init))))) = []
  ∧ lists (snd (Deferrer None (snd (OnSignal SIGQUIT 7 init)))) SIGQUIT
    = Some [mkElement 0 (VCallback 7)]
  ∧ phase (snd (Deferrer None (snd (OnSignal SIGQUIT 7 init)))) = Stopped.
Proof. split_and!; vm_compute; reflexivity. Qed.

(** ** Deferrer: what runs, and when the process exits *)

Lemma wf_reg_dispatch_all sigs st : wf_reg st → wf_reg (dispatch_all sigs st).
Proof.
  revert st. induction sigs as [|s sigs IH]; intros st Hwf; [done|].
  cbn [dispatch_all fold_left]. by apply IH, wf_reg_processSignal.
Qed.






(** ** A remover, whenever it is called *)

Lemma belongs_step e l sig cb op st :
  belongs e l sig cb st → belongs e l sig cb (step op st).
Proof.
  apply step_preserves; clear op st.
  - intros ev st Hev (H1 & H2 & H3 & H4 & H5).
    split_and!; st_simpl; try done.
    intros s cb' [Hin|Hin]%elem_of_app; [eauto|].
    apply list_elem_of_singleton in Hin as <-. done.
  - intros st st' Hc Hh Hl He Ht (H1 & H2 & H3 & H4 & H5).
    split_and!; rewrite ?Hc, ?Hh, ?Hl, ?He, ?Ht; done.
  - intros s st (H1 & H2 & H3 & H4 & H5). rewrite processSignal_unfold.
    destruct (truncate_frame st) as (Tl & Te & _ & _ & _ & _ & Tt).
    assert (T3 : ∀ s', cbsList (truncate st) !! s' = Some l → s' = sig).
    { intros s'. rewrite truncate_cbsList.
      intros [[_ ?]|[_ [[_ ?]|[_ [[_ ?]|[_ Hs']]%lookup_insert_Some]
        ]%lookup_insert_Some]]%lookup_insert_Some; try lia. eauto. }
    assert (T4 : ∀ l' xs x, heap (truncate st) !! l' = Some xs → x ∈ xs →
                            el_id x = e → l' = l ∧ Value x = VCallback cb).
    { intros l' xs x. rewrite truncate_heap.
      intros [[_ <-]|[_ [[_ <-]|[_ [[_ <-]|[_ Hl']]%lookup_insert_Some]
        ]%lookup_insert_Some]]%lookup_insert_Some Hx;
        try (by apply elem_of_nil in Hx). eauto. }
    destruct (cbsList st !! s) as [cbs|] eqn:Hs.
    + set (st1 := if is_termination s then truncate st else st).
      assert (S1 : next_elem st1 = next_elem st ∧ next_list st ≤ next_list st1
                   ∧ trace st1 = trace st
                   ∧ (∀ s', cbsList st1 !! s' = Some l → s' = sig)
                   ∧ ∀ l' xs x, heap st1 !! l' = Some xs → x ∈ xs →
                                el_id x = e → l' = l ∧ Value x = VCallback cb).
      { unfold st1. destruct (is_termination s); split_and!; try done.
        rewrite Tl. lia. }
      destruct S1 as (S1 & S2 & S3 & S4 & S5).
      assert (Hheap : ∀ x, x ∈ default [] (heap st1 !! cbs) → el_id x = e →
                           s = sig ∧ Value x = VCallback cb).
      { intros x Hx Hid.
        destruct (heap st1 !! cbs) as [ys|] eqn:Hys; cbn [default from_option id] in Hx;
          [|by apply elem_of_nil in Hx].
        destruct (S5 _ _ _ Hys Hx Hid) as [-> Hv]. split; [|done].
        apply H3. exact Hs. }
      cbv zeta. fold st1. split_and!; proj_logs; rewrite ?S1, ?S3; try done.
      * lia.
      * intros s' cb' [Hin|Hin]%elem_of_app; [eauto|].
        apply elem_of_cons in Hin as [?|Hin]; [done|].
        apply elem_of_app in Hin as [Hin|Hin];
          [|by apply list_elem_of_singleton in Hin].
        apply list_elem_of_fmap in Hin as (x & Hev & Hx).
        rewrite elem_of_reverse in Hx. unfold call_event in Hev.
        destruct (Value x) as [cb0|] eqn:Hv; [|done].
        injection Hev as -> Hid ->. symmetry in Hid.
        destruct (Hheap x Hx Hid) as [-> Hv']. split; [done|]. congruence.
    + split_and!; proj_logs; try done.
      intros s' cb' [Hin|Hin]%elem_of_app; [eauto|].
      by repeat (apply elem_of_cons in Hin as [?|Hin]; [done|]);
        apply elem_of_nil in Hin.
  - intros l0 cb0 st (H1 & H2 & H3 & H4 & H5). split_and!; st_simpl; try done.
    + lia.
    + intros l' xs x [(-> & ys & Hys & ->)|[_ Hl']]%lookup_alter_Some Hx Hid;
        [|eauto].
      apply elem_of_app in Hx as [Hx|Hx]; [eauto|].
      apply list_elem_of_singleton in Hx as ->. cbn in Hid. lia.
  - intros sig0 st (H1 & H2 & H3 & H4 & H5). split_and!; st_simpl; try done.
    + lia.
    + intros s' [[_ ?]|[_ Hs']]%lookup_insert_Some; [lia|eauto].
    + intros l' xs x [[_ <-]|[_ Hl']]%lookup_insert_Some Hx; [|eauto].
      by apply elem_of_nil in Hx.
  - intros l0 e0 st (H1 & H2 & H3 & H4 & H5). split_and!; st_simpl; try done.
    intros l' xs x [(-> & ys & Hys & ->)|[_ Hl']]%lookup_alter_Some Hx; [|eauto].
    apply list_elem_of_filter in Hx as [_ Hx]. eauto.
Qed.

Lemma later_new_events st st' :
  later st st' → trace st' = trace st ++ new_events st st'.
Proof.
  intros (_ & _ & evs & Hevs & _). by rewrite (new_events_app _ _ _ Hevs).
Qed.

Lemma OnSignal_heap sig cb st l' ys x :
  wf_reg st →
  heap (snd (OnSignal sig cb st)) !! l' = Some ys → x ∈ ys →
  el_id x = next_elem st →
  cbsList (snd (OnSignal sig cb st)) !! sig = Some l'
  ∧ Value x = VCallback cb.
Proof.
  intros Hwf. destruct (cbsList st !! sig) as [l0|] eqn:Hl0.
  - rewrite (OnSignal_Some _ _ _ _ Hl0). cbn [snd]. proj_logs. st_simpl.
    intros [(-> & zs & Hzs & ->)|[_ Hys]]%lookup_alter_Some Hx Hid.
    + apply elem_of_app in Hx as [Hx|Hx].
      * pose proof (wf_elems _ Hwf _ _ _ Hzs Hx). lia.
      * by apply list_elem_of_singleton in Hx as ->.
    + pose proof (wf_elems _ Hwf _ _ _ Hys Hx). lia.
  - rewrite (OnSignal_None _ _ _ Hl0). cbn [snd]. proj_logs. st_simpl.
    rewrite lookup_insert_eq.
    intros [[<- <-]|[_ Hys]]%lookup_insert_Some Hx Hid.
    + by apply list_elem_of_singleton in Hx as ->.
    + pose proof (wf_elems _ Hwf _ _ _ Hys Hx). lia.
Qed.

Lemma OnSignal_belongs sig cb st :
  wf_reg st → wf_tr st →
  ∃ l, belongs (next_elem st) l sig cb (snd (OnSignal sig cb st)).
Proof.
  intros Hreg Htr.
  pose proof (wf_reg_OnSignal sig cb st Hreg) as Hreg1.
  destruct (OnSignal_spec sig cb st Hreg) as (l & _ & Hl & _ & Hs & _ & He).
  exists l. destruct (wf_map _ Hreg1 _ _ Hl) as [xs Hxs].
  split_and!.
  - lia.
  - by eapply wf_heap.
  - intros s Hs'. by eapply wf_inj.
  - intros l' ys x Hys Hx Hid.
    destruct (OnSignal_heap sig cb st l' ys x Hreg Hys Hx Hid) as [Hl' Hv].
    split; [congruence|done].
  - intros s cb' Hin.
    rewrite (later_new_events _ _ (later_OnSignal sig cb st)) in Hin.
    rewrite OnSignal_events in Hin.
    apply elem_of_app in Hin as [Hin|Hin].
    + assert (next_elem st ∈ called_elems (trace st)) as Hc.
      { apply list_elem_of_omap. by exists (EvCall s (next_elem st) cb'). }
      pose proof (wf_trace _ Htr _ Hc). lia.
    + destruct (cbsList st !! sig);
        by repeat (apply elem_of_cons in Hin as [?|Hin]; [done|]);
          apply elem_of_nil in Hin.
Qed.

Lemma belongs_run e l sig cb ops st :
  belongs e l sig cb st → belongs e l sig cb (run ops st).
Proof. apply run_preserves. intros op st'. apply belongs_step. Qed.

(** The remover a registration returns holds the list its element was
    pushed to. *)
Lemma OnSignal_remover sig cb st :
  wf_reg st → wf_tr st →
  ∃ l, fst (OnSignal sig cb st) = RemoverOnSignal l (next_elem st)
       ∧ cbsList (snd (OnSignal sig cb st)) !! sig = Some l
       ∧ belongs (next_elem st) l sig cb (snd (OnSignal sig cb st)).
Proof.
  intros Hreg Htr.
  destruct (OnSignal_spec sig cb st Hreg) as (l & Hr & Hl & _ & Hs & _).
  destruct (OnSignal_belongs sig cb st Hreg Htr) as (l' & Hb).
  exists l. split; [done|]. split; [done|].
  replace l with l'; [done|].
  destruct Hb as (_ & _ & _ & H4 & _).
  unfold lists in Hs. rewrite Hl in Hs. cbn [mbind option_bind] in Hs.
  destruct (H4 l _ (mkElement (next_elem st) (VCallback cb)) Hs) as [-> _];
    [|done..].
  apply elem_of_app. right. by apply list_elem_of_singleton.
Qed.

Lemma filter_ext_in {A} (P Q : A → Prop)
    `{∀ x, Decision (P x)} `{∀ x, Decision (Q x)} (xs : list A) :
  (∀ x, x ∈ xs → (P x ↔ Q x)) → filter P xs = filter Q xs.
Proof.
  induction xs as [|x xs IH]; intros HPQ; [done|].
  assert (IH' : filter P xs = filter Q xs).
  { apply IH. intros y Hy. apply HPQ. by right. }
  assert (Hx : P x ↔ Q x) by (apply HPQ; by left).
  destruct (decide (P x)) as [HP|HP].
  - rewrite !filter_cons_True by tauto. by rewrite IH'.
  - rewrite !filter_cons_False by tauto. done.
Qed.

(** A remover whose elements are each on the list it names only takes
    exactly these elements out of the lists of the map. *)
Lemma remover_lists r st :
  (∀ l e, (l, e) ∈ targets r →
     ∀ l' xs x, heap st !! l' = Some xs → x ∈ xs → el_id x = e → l' = l) →
  cbsList (call_remover r st) = cbsList st
  ∧ ∀ u, lists (call_remover r st) u
         = filter (λ x, el_id x ∉ (targets r).*2) <$> lists st u.
Proof.
  intros Honly. destruct (call_remover_frame r st) as (Hc & _). split; [done|].
  intros u. unfold lists. rewrite Hc.
  destruct (cbsList st !! u) as [l'|]; cbn [mbind option_bind]; [|done].
  rewrite heap_call_remover. destruct (heap st !! l') as [xs|] eqn:Hxs; [|done].
  cbn [fmap option_fmap option_map]. f_equal. apply filter_ext_in.
  intros x Hx. split.
  - intros Hn [[l e] [He Hin]]%list_elem_of_fmap. cbn in He. apply Hn.
    rewrite (Honly l e Hin l' xs x Hxs Hx He). by rewrite He.
  - intros Hn Hin. apply Hn. apply list_elem_of_fmap. by exists (l', el_id x).
Qed.

Lemma unlinked_step tr e op st : unlinked tr e st → unlinked tr e (step op st).
Proof.
  apply step_preserves; clear op st.
  - intros ev st Hev (H1 & H2 & H3). split_and!; st_simpl; [done| |done].
    intros s cb [Hin|Hin]%elem_of_app; [eauto|].
    apply list_elem_of_singleton in Hin as <-. done.
  - intros st st' Hc Hh Hl He Ht (H1 & H2 & H3).
    split_and!; rewrite ?Hh, ?He, ?Ht; done.
  - intros s st (H1 & H2 & H3). rewrite processSignal_unfold.
    assert (H3' : ∀ l xs x, heap (truncate st) !! l = Some xs → x ∈ xs →
                            el_id x ≠ e).
    { intros l xs x. rewrite truncate_heap.
      intros [[_ <-]|[_ [[_ <-]|[_ [[_ <-]|[_ Hl]]%lookup_insert_Some]
        ]%lookup_insert_Some]]%lookup_insert_Some Hx;
        try (by apply elem_of_nil in Hx). eauto. }
    destruct (truncate_frame st) as (_ & Te & _ & _ & _ & _ & Tt).
    destruct (cbsList st !! s) as [cbs|].
    + set (st1 := if is_termination s then truncate st else st).
      assert (S1 : next_elem st1 = next_elem st ∧ trace st1 = trace st
                   ∧ ∀ l xs x, heap st1 !! l = Some xs → x ∈ xs → el_id x ≠ e).
      { unfold st1. by destruct (is_termination s). }
      destruct S1 as (S1 & S2 & S3). cbv zeta. fold st1.
      split_and!; proj_logs; rewrite ?S1, ?S2; [done| |done].
      intros s' cb' [Hin|Hin]%elem_of_app; [eauto|].
      apply elem_of_cons in Hin as [?|Hin]; [done|].
      apply elem_of_app in Hin as [Hin|Hin];
        [|by apply list_elem_of_singleton in Hin].
      apply list_elem_of_fmap in Hin as (x & Hev & Hx).
      rewrite elem_of_reverse in Hx. unfold call_event in Hev.
      destruct (Value x) as [cb0|] eqn:Hv; [|done].
      injection Hev as -> Hid ->. symmetry in Hid.
      destruct (heap st1 !! cbs) as [ys|] eqn:Hys; cbn [default from_option id] in Hx;
        [|by apply elem_of_nil in Hx].
      destruct (S3 _ _ _ Hys Hx Hid).
    + split_and!; proj_logs; [done| |done].
      intros s' cb' [Hin|Hin]%elem_of_app; [eauto|].
      by repeat (apply elem_of_cons in Hin as [?|Hin]; [done|]);
        apply elem_of_nil in Hin.
  - intros l cb st (H1 & H2 & H3). split_and!; st_simpl; [lia|done|].
    intros l' xs x [(-> & ys & Hys & ->)|[_ Hl]]%lookup_alter_Some Hx; [|eauto].
    apply elem_of_app in Hx as [Hx|Hx]; [eauto|].
    apply list_elem_of_singleton in Hx as ->. cbn. lia.
  - intros sig st (H1 & H2 & H3). split_and!; st_simpl; [done..|].
    intros l xs x [[_ <-]|[_ Hl]]%lookup_insert_Some Hx; [|eauto].
    by apply elem_of_nil in Hx.
  - intros l e' st (H1 & H2 & H3). split_and!; st_simpl; [done..|].
    intros l' xs x [(-> & ys & Hys & ->)|[_ Hl]]%lookup_alter_Some Hx; [|eauto].
    apply list_elem_of_filter in Hx as [_ Hx]. eauto.
Qed.

Lemma unlinked_run tr e ops st : unlinked tr e st → unlinked tr e (run ops st).
Proof. apply run_preserves. intros op st'. apply unlinked_step. Qed.

(** Calling the remover of an element that is on its list only leaves the
    element in no list. *)
Lemma remove_unlinked l e st :
  e < next_elem st →
  (∀ l' xs x, heap st !! l' = Some xs → x ∈ xs → el_id x = e → l' = l) →
  unlinked (trace st) e (call_remover (RemoverOnSignal l e) st).
Proof.
  intros He Honly. cbn [call_remover]. split_and!; st_simpl; [done| |].
  - intros s cb. rewrite <- (assoc_L (++)).
    intros [?|Hin]%elem_of_app; [done|].
    by repeat (apply elem_of_cons in Hin as [?|Hin]; [done|]);
      apply elem_of_nil in Hin.
  - intros l' xs x [(-> & ys & Hys & ->)|[Hne Hl]]%lookup_alter_Some Hx.
    + by apply list_elem_of_filter in Hx as [? _].
    + intros Hid. destruct Hne. symmetry. by eapply Honly.
Qed.

(** A remover changes nothing when its element is in no list. *)
Lemma remove_nothing tr l e st :
  unlinked tr e st →
  cbsList (call_remover (RemoverOnSignal l e) st) = cbsList st
  ∧ heap (call_remover (RemoverOnSignal l e) st) = heap st.
Proof.
  intros (_ & _ & H3).
  destruct (call_remover_frame (RemoverOnSignal l e) st) as (Hc & _).
  split; [done|]. apply map_eq. intros l'. rewrite heap_call_remover.
  destruct (heap st !! l') as [xs|] eqn:Hxs; [|done].
  cbn [fmap option_fmap option_map]. f_equal. apply filter_all.
  intros x Hx. cbn [targets]. rewrite list_elem_of_singleton.
  intros [= _ Hid]. by eapply H3.
Qed.

(** A list object that is out of the map stays out of it. *)
Lemma dead_step l op st :
  l < next_list st ∧ (∀ s, cbsList st !! s ≠ Some l) →
  l < next_list (step op st) ∧ ∀ s, cbsList (step op st) !! s ≠ Some l.
Proof.
  apply (step_preserves
           (λ st, l < next_list st ∧ ∀ s, cbsList st !! s ≠ Some l)); clear op st.
  - intros ev st _ H. exact H.
  - intros st st' Hc _ Hl _ _ H. by rewrite Hc, Hl.
  - intros s st [H1 H2]. rewrite processSignal_unfold.
    destruct (truncate_frame st) as (Tl & _).
    assert (T : ∀ s', cbsList (truncate st) !! s' ≠ Some l).
    { intros s'. rewrite truncate_cbsList.
      intros [[_ ?]|[_ [[_ ?]|[_ [[_ ?]|[_ Hs']]%lookup_insert_Some]
        ]%lookup_insert_Some]]%lookup_insert_Some; try lia. by eapply H2. }
    destruct (cbsList st !! s) as [cbs|]; [|by proj_logs].
    destruct (is_termination s); cbv zeta; proj_logs; [|done].
    split; [lia|done].
  - intros l0 cb st H. exact H.
  - intros sig st [H1 H2]. st_simpl. split; [lia|].
    intros s [[_ ?]|[_ Hs]]%lookup_insert_Some; [lia|by eapply H2].
  - intros l0 e st H. exact H.
Qed.

Lemma dead_run l ops st :
  l < next_list st ∧ (∀ s, cbsList st !! s ≠ Some l) →
  l < next_list (run ops st) ∧ ∀ s, cbsList (run ops st) !! s ≠ Some l.
Proof.
  apply (run_preserves
           (λ st, l < next_list st ∧ ∀ s, cbsList st !! s ≠ Some l)).
  intros op st'. apply dead_step.
Qed.

(** The dispatch of a termination signal that has a list takes the list
    objects of the three termination signals out of the map. *)
Lemma truncation_kills sig l t st :
  wf_reg st → is_termination sig = true →
  l < next_list st → (∀ s, cbsList st !! s = Some l → s = sig) →
  is_termination t = true → is_Some (lists st t) →
  l < next_list (processSignal t st)
  ∧ ∀ u, cbsList (processSignal t st) !! u ≠ Some l.
Proof.
  intros Hwf Hsig Hl Hinj Ht [ys Hys]. rewrite processSignal_wf, Hys, Ht by done.
  proj_logs. destruct (truncate_frame st) as (-> & _). split; [lia|].
  intros u. rewrite truncate_cbsList.
  intros [[_ ?]|[N1 [[_ ?]|[N2 [[_ ?]|[N3 Hu]]%lookup_insert_Some]
    ]%lookup_insert_Some]]%lookup_insert_Some; try lia.
  apply Hinj in Hu as ->.
  apply bool_decide_eq_true in Hsig. by destruct Hsig as [-> | [-> | ->]].
Qed.

(** C4. Let [r] be the remover returned by a registration on [sig], and
    let it be called at any time later, after any calls of the package,
    deliveries and dispatches.  The call takes the element of this
    registration out of its list and nothing else: every list keeps its
    other elements in their order, those with an equal callback included,
    and the map is unchanged; called right after the registration, it puts
    the list of [sig] back to what it held.  From then on the element is not
    invoked, so if it was not invoked before the call it never is, whatever
    happens to the package afterwards.  Calling [r] again, at any time,
    changes neither the map nor any list.  And when the dispatch of a
    termination signal has replaced the list [r] points to, calling [r]
    changes neither the map nor any list the map leads to. *)
Theorem remover_once
    (st : State) (sig : Z) (cb : Callback) (ops ops2 : list Op) (t : Z) :
  wf st →
  let r := fst (OnSignal sig cb st) in
  let e := next_elem st in
  let st1 := snd (OnSignal sig cb st) in
  let st' := run ops st1 in
  let st2 := call_remover r st' in
  (lists (call_remover r st1) sig = Some (default [] (lists st sig))
   ∧ ∀ u, u ≠ sig → lists (call_remover r st1) u = lists st u)
  ∧ (cbsList st2 = cbsList st'
     ∧ ∀ u, lists st2 u = filter (λ x, el_id x ≠ e) <$> lists st' u)
  ∧ (e ∉ called_elems (trace st1))
  ∧ (∀ s cb', EvCall s e cb' ∈ trace (run ops2 st2) → EvCall s e cb' ∈ trace st')
  ∧ (e ∉ called_elems (trace st') →
     ∀ s e' cb', EvCall s e' cb' ∈ trace (run ops2 st2) → e' ≠ e)
  ∧ (cbsList (call_remover r (run ops2 st2)) = cbsList (run ops2 st2)
     ∧ heap (call_remover r (run ops2 st2)) = heap (run ops2 st2))
  ∧ (is_termination sig = true → is_termination t = true →
     is_Some (lists st' t) →
     let st3 := run ops2 (processSignal t st') in
     cbsList (call_remover r st3) = cbsList st3
     ∧ ∀ u, lists (call_remover r st3) u = lists st3 u).
Proof.
  intros Hwf r e st1 st' st2. pose proof Hwf as (Hreg & Htr & _).
  pose proof (wf_reg_OnSignal sig cb st Hreg) as Hreg1.
  destruct (OnSignal_spec sig cb st Hreg) as (l0 & _ & _ & _ & Hs & Ho & _).
  destruct (OnSignal_remover sig cb st Hreg Htr) as (l & Hr & Hl & Hb).
  assert (Hwf' : wf st').
  { apply wf_run. apply (wf_step (OpOnSignal sig cb) st Hwf). }
  pose proof (belongs_run _ _ _ _ ops _ Hb) as (B1 & B2 & B3 & B4 & B5).
  fold e st1 st' in Hr, Hl, Hb, B1, B2, B3, B4, B5, Hs, Ho, Hreg1.
  subst r st2. rewrite Hr.
  assert (Honly : ∀ l' xs x, heap st' !! l' = Some xs → x ∈ xs →
                             el_id x = e → l' = l).
  { intros l' xs x Hxs Hx Hid. by destruct (B4 l' xs x Hxs Hx Hid). }
  pose proof (remove_unlinked l e st' B1 Honly) as Hun.
  pose proof (unlinked_run _ _ ops2 _ Hun) as (U1 & U2 & U3).
  assert (Hcalls : ∀ s cb', EvCall s e cb'
                     ∈ trace (run ops2 (call_remover (RemoverOnSignal l e) st')) →
                   EvCall s e cb' ∈ trace st') by exact U2.
  split_and!.
  - destruct (remove_spec sig l e _ Hreg1 Hl) as (_ & -> & _). rewrite Hs.
    cbn [fmap option_fmap option_map]. rewrite filter_pushed; [done|].
    intros x Hx. by apply (lists_default_elems st sig).
  - intros u Hu. destruct (remove_spec sig l e _ Hreg1 Hl) as (_ & _ & R3).
    rewrite R3 by done. by apply Ho.
  - destruct (remover_lists (RemoverOnSignal l e) st') as [-> _]; [|done].
    intros l1 e1 [= -> ->]%list_elem_of_singleton. exact Honly.
  - intros u. destruct (remover_lists (RemoverOnSignal l e) st') as [_ ->].
    { intros l1 e1 [= -> ->]%list_elem_of_singleton. exact Honly. }
    destruct (lists st' u) as [xs|]; [|done].
    cbn [fmap option_fmap option_map]. f_equal. apply list_filter_iff.
    intros x. cbn. by rewrite list_elem_of_singleton.
  - intros Hin. pose proof (wf_trace _ (proj1 (proj2 Hwf)) e) as Hlt.
    destruct Hb as (_ & _ & _ & _ & Hb5).
    apply list_elem_of_omap in Hin as (ev & Hev & Hcall).
    destruct ev; try discriminate Hcall. injection Hcall as ->.
    pose proof (later_new_events _ _ (later_OnSignal sig cb st)) as Ht.
    rewrite OnSignal_events in Ht. fold st1 in Ht. rewrite Ht in Hev.
    apply elem_of_app in Hev as [Hev|Hev].
    + assert (e ∈ called_elems (trace st)) as Hc.
      { apply list_elem_of_omap. by eexists (EvCall _ e _). }
      specialize (Hlt Hc). unfold e in Hlt. lia.
    + destruct (cbsList st !! sig);
        by repeat (apply elem_of_cons in Hev as [?|Hev]; [done|]);
          apply elem_of_nil in Hev.
  - exact Hcalls.
  - intros Hnot s e' cb' Hin ->. apply Hnot.
    apply list_elem_of_omap. exists (EvCall s e cb'). split; [|done].
    by apply Hcalls.
  - by destruct (remove_nothing (trace st') l e _ (unlinked_run _ _ ops2 _ Hun)).
  - by destruct (remove_nothing (trace st') l e _ (unlinked_run _ _ ops2 _ Hun)).
  - intros Hsig Ht Hsome st3. apply remove_dead.
    apply (dead_run l ops2).
    by apply (truncation_kills sig l t st' (proj1 Hwf')).
Qed.

Lemma remover_once_witness :
  wf init
  ∧ lists (call_remover (fst (OnSignal SIGUSR1 1 init))
             (run [OpOnReload 2; OpOnReload 1] (snd (OnSignal SIGUSR1 1 init))))
          SIGUSR1
    = Some [mkElement 1 (VCallback 2); mkElement 2 (VCallback 1)]
  ∧ called
      (trace (run [OpDeliver SIGUSR1; OpLoop]
                (call_remover (fst (OnSignal SIGUSR1 1 init))
                   (run [OpOnReload 2; OpOnReload 1]
                      (snd (OnSignal SIGUSR1 1 init))))))
    = [1; 2].
Proof.
  destruct (remover_once init SIGUSR1 1 [OpOnReload 2; OpOnReload 1]
              [OpDeliver SIGUSR1; OpLoop] SIGINT wf_init)
    as (_ & (_ & H2) & _).
  split; [exact wf_init|]. split; [|vm_compute; reflexivity].
  rewrite H2. vm_compute. reflexivity.
Defined.

(** * Further properties *)

(** ** Lists outside the termination class *)

Lemma processSignal_lists_other s st t :
  wf_reg st → is_termination t = false →
  lists (processSignal s st) t = lists st t.
Proof.
  intros Hwf Ht. rewrite processSignal_wf by done.
  destruct (lists st s) as [xs|]; [|apply lists_logs].
  rewrite lists_logs. destruct (is_termination s); [|done].
  apply not_termination in Ht as (T1 & T2 & T3).
  unfold lists. rewrite truncate_cbsList, truncate_heap.
  rewrite !lookup_insert_ne by done.
  destruct (cbsList st !! t) as [l|] eqn:Hl; cbn [mbind option_bind]; [|done].
  destruct (wf_map _ Hwf _ _ Hl) as [ys Hys].
  pose proof (wf_heap _ Hwf _ _ Hys). by rewrite !lookup_insert_ne by lia.
Qed.

Lemma dispatch_all_lists_other sigs st t :
  wf_reg st → is_termination t = false →
  lists (dispatch_all sigs st) t = lists st t.
Proof.
  intros Hwf Ht. revert st Hwf.
  induction sigs as [|s sigs IH]; intros st Hwf; [done|].
  cbn [dispatch_all fold_left].
  etrans; [apply IH; by apply wf_reg_processSignal|].
  by apply processSignal_lists_other.
Qed.

(** [Deferrer] on a closed channel: the send panics. *)
Lemma Deferrer_closed err st :
  ch_closed st = true →
  Deferrer err st
  = match err with
    | Some _ => (Exited 1, log (EvExit 1) (signal_Stop (report err st)))
    | None => (Panicked "send on closed channel", signal_Stop (report err st))
    end.
Proof.
  intros Hc. unfold Deferrer, chan_send.
  replace (ch_closed (signal_Stop (report err st))) with (ch_closed st)
    by (by destruct err).
  rewrite Hc. by destruct err.
Qed.

Lemma Deferrer_closed_registry err st :
  ch_closed st = true →
  cbsList (snd (Deferrer err st)) = cbsList st
  ∧ heap (snd (Deferrer err st)) = heap st
  ∧ ch (snd (Deferrer err st)) = ch st
  ∧ notified (snd (Deferrer err st)) = ∅
  ∧ called (new_events st (snd (Deferrer err st))) = [].
Proof.
  intros Hc. rewrite (Deferrer_closed _ _ Hc).
  destruct err as [e|]; cbn [snd report]; split_and!; try done.
  - rewrite (new_events_app _ _
      [EvPrintf "Panic received, attempting gracefull exit\nError:\n%s" [e];
       EvPrintStack; EvStop; EvExit 1]); [done|].
    st_simpl. by rewrite <- !(assoc_L (++)).
  - by rewrite (new_events_app _ _ [EvStop]).
Qed.

(** X1. The dispatch of a termination signal, a whole sequence of
    dispatches, and [Deferrer] all leave the list of every signal outside
    the termination class as it is: callbacks registered with [OnReload]
    are still registered after the termination callbacks have run. *)
Theorem other_lists_survive
    (st : State) (s : Z) (sigs : list Z) (err : option string) (t : Z) :
  wf st → is_termination t = false →
  lists (processSignal s st) t = lists st t
  ∧ lists (dispatch_all sigs st) t = lists st t
  ∧ lists (snd (Deferrer err st)) t = lists st t.
Proof.
  intros Hwf Ht. pose proof Hwf as (Hreg & _ & _).
  split_and!.
  - by apply processSignal_lists_other.
  - by apply dispatch_all_lists_other.
  - destruct (ch_closed st) eqn:Hc.
    + destruct (Deferrer_closed_registry err st Hc) as (H1 & H2 & _).
      unfold lists. by rewrite H1, H2.
    + destruct (Deferrer_registry err st Hwf Hc) as (_ & _ & ->).
      by apply dispatch_all_lists_other.
Qed.

Lemma other_lists_survive_witness :
  wf (snd (OnKill 7 (snd (OnReload 3 init))))
  ∧ is_termination SIGUSR1 = false
  ∧ lists (snd (Deferrer None (snd (OnKill 7 (snd (OnReload 3 init)))))) SIGUSR1
    = Some [mkElement 0 (VCallback 3)].
Proof.
  assert (Hwf : wf (snd (OnKill 7 (snd (OnReload 3 init))))).
  { apply (wf_run [OpOnReload 3; OpOnKill 7] init), wf_init. }
  split; [exact Hwf|]. split; [reflexivity|].
  destruct (other_lists_survive (snd (OnKill 7 (snd (OnReload 3 init))))
              SIGINT [] None SIGUSR1 Hwf eq_refl) as (_ & _ & ->).
  vm_compute. reflexivity.
Defined.

(** ** Deferrer, called again *)

Lemma Deferrer_open_frame err st :
  wf st → ch_closed st = false →
  ch (snd (Deferrer err st)) = []
  ∧ ch_closed (snd (Deferrer err st)) = true
  ∧ wait (snd (Deferrer err st)) = 0
  ∧ notified (snd (Deferrer err st)) = ∅.
Proof.
  intros (_ & _ & [_ Hwait]) Hopen. rewrite Hopen in Hwait.
  destruct (Deferrer_open err st Hopen Hwait)
    as (_ & _ & st4 & -> & _ & _ & _ & _ & _ & _ & Hch & Hcl & Hw & Hn).
  by destruct err.
Qed.

(** X2. [Deferrer] can be called once.  A second call finds the channel
    closed: the send of SIGINT panics ("send on closed channel"), or, when
    the second call itself recovers a panic, the deferred [os.Exit(1)]
    runs.  Either way no callback is invoked and the registry is the
    same. *)
Theorem Deferrer_twice (err1 err2 : option string) (st : State) :
  wf st → ch_closed st = false →
  let st1 := snd (Deferrer err1 st) in
  fst (Deferrer err2 st1)
  = match err2 with
    | Some _ => Exited 1
    | None => Panicked "send on closed channel"
    end
  ∧ called (new_events st1 (snd (Deferrer err2 st1))) = []
  ∧ cbsList (snd (Deferrer err2 st1)) = cbsList st1
  ∧ heap (snd (Deferrer err2 st1)) = heap st1
  ∧ phase (snd (Deferrer err2 st1)) = Stopped.
Proof.
  intros Hwf Hopen st1. subst st1.
  destruct (Deferrer_open_frame err1 st Hwf Hopen) as (_ & Hcl & Hw & _).
  destruct (Deferrer_closed_registry err2 _ Hcl) as (H1 & H2 & _ & _ & H5).
  split_and!; try done.
  - rewrite (Deferrer_closed _ _ Hcl). by destruct err2.
  - apply phase_Stopped.
    destruct (later_Deferrer err2 (snd (Deferrer err1 st))) as (Hle & _). lia.
Qed.

Lemma Deferrer_twice_witness :
  wf (snd (OnKill 7 init)) ∧ ch_closed (snd (OnKill 7 init)) = false
  ∧ fst (Deferrer None (snd (Deferrer None (snd (OnKill 7 init)))))
    = Panicked "send on closed channel".
Proof.
  assert (Hwf : wf (snd (OnKill 7 init))).
  { apply (wf_run [OpOnKill 7] init), wf_init. }
  split; [exact Hwf|]. split; [reflexivity|].
  exact (proj1 (Deferrer_twice None None (snd (OnKill 7 init)) Hwf eq_refl)).
Defined.

(** X3. After [Deferrer] the signal package relays nothing to the closed
    channel, whatever signal the OS delivers ([signal.Stop] came before the
    close).  A registration made afterwards for a signal that has a list
    keeps it so.  A registration for a signal that has no list calls
    [signal.Notify] with the closed channel again, and the delivery of that
    signal then panics in the signal package. *)
Theorem delivery_after_Deferrer
    (err : option string) (st : State) (sig : Z) (cb : Callback) (s : Z) :
  wf st → ch_closed st = false →
  let st1 := snd (Deferrer err st) in
  deliver s st1 = st1
  ∧ (is_Some (cbsList st1 !! sig) →
     deliver s (snd (OnSignal sig cb st1)) = snd (OnSignal sig cb st1))
  ∧ (cbsList st1 !! sig = None →
     deliver sig (snd (OnSignal sig cb st1))
     = log (EvPanic "send on closed channel") (snd (OnSignal sig cb st1))).
Proof.
  intros Hwf Hopen st1. subst st1.
  destruct (Deferrer_open_frame err st Hwf Hopen) as (_ & Hcl & _ & Hn).
  set (st1 := snd (Deferrer err st)) in *.
  split_and!.
  - unfold deliver. rewrite Hn. by rewrite bool_decide_eq_false_2 by set_solver.
  - intros [l Hl]. rewrite (OnSignal_Some _ _ _ _ Hl). cbn [snd].
    unfold deliver. rewrite notified_logs. st_simpl. rewrite Hn.
    by rewrite bool_decide_eq_false_2 by set_solver.
  - intros Hl. rewrite (OnSignal_None _ _ _ Hl). cbn [snd].
    unfold deliver. rewrite notified_logs, ch_closed_logs. st_simpl.
    rewrite Hcl. by rewrite bool_decide_eq_true_2 by set_solver.
Qed.

Lemma delivery_after_Deferrer_witness :
  wf (snd (OnKill 7 init)) ∧ ch_closed (snd (OnKill 7 init)) = false
  ∧ deliver SIGINT (snd (Deferrer None (snd (OnKill 7 init))))
    = snd (Deferrer None (snd (OnKill 7 init)))
  ∧ deliver SIGUSR1
      (snd (OnSignal SIGUSR1 8 (snd (Deferrer None (snd (OnKill 7 init))))))
    = log (EvPanic "send on closed channel")
        (snd (OnSignal SIGUSR1 8 (snd (Deferrer None (snd (OnKill 7 init)))))).
Proof.
  assert (Hwf : wf (snd (OnKill 7 init))).
  { apply (wf_run [OpOnKill 7] init), wf_init. }
  destruct (delivery_after_Deferrer None (snd (OnKill 7 init)) SIGUSR1 8 SIGINT
              Hwf eq_refl) as (H1 & _ & H3).
  split; [exact Hwf|]. split; [reflexivity|]. split; [exact H1|].
  apply H3. vm_compute. reflexivity.
Defined.

(** ** The removers of two registrations *)

Lemma OnKill_remover cb st :
  wf st →
  ∃ lK lQ lI,
    fst (OnKill cb st)
    = RemoverOnKill [RemoverOnSignal lK (next_elem st);
                     RemoverOnSignal lQ (S (next_elem st));
                     RemoverOnSignal lI (S (S (next_elem st)))]
    ∧ belongs (next_elem st) lK SIGKILL cb (snd (OnKill cb st))
    ∧ belongs (S (next_elem st)) lQ SIGQUIT cb (snd (OnKill cb st))
    ∧ belongs (S (S (next_elem st))) lI SIGINT cb (snd (OnKill cb st)).
Proof.
  intros Hwf. rewrite OnKill_eq. cbn [fst snd].
  pose proof (wf_step (OpOnSignal SIGKILL cb) st Hwf) as Hwf1. cbn [step] in Hwf1.
  pose proof (wf_step (OpOnSignal SIGQUIT cb) _ Hwf1) as Hwf2. cbn [step] in Hwf2.
  destruct (OnSignal_spec SIGKILL cb st (proj1 Hwf)) as (_ & _ & _ & _ & _ & _ & E1).
  destruct (OnSignal_spec SIGQUIT cb _ (proj1 Hwf1)) as (_ & _ & _ & _ & _ & _ & E2).
  destruct (OnSignal_remover SIGKILL cb st) as (lK & RK & _ & BK); [apply Hwf..|].
  destruct (OnSignal_remover SIGQUIT cb _ (proj1 Hwf1) (proj1 (proj2 Hwf1)))
    as (lQ & RQ & _ & BQ).
  destruct (OnSignal_remover SIGINT cb _ (proj1 Hwf2) (proj1 (proj2 Hwf2)))
    as (lI & RI & _ & BI).
  rewrite RK, RQ, RI. rewrite E2, E1 in *.
  exists lK, lQ, lI. split; [done|]. split_and!.
  - apply (belongs_step _ _ _ _ (OpOnSignal SIGINT cb)).
    apply (belongs_step _ _ _ _ (OpOnSignal SIGQUIT cb)). exact BK.
  - apply (belongs_step _ _ _ _ (OpOnSignal SIGINT cb)). exact BQ.
  - exact BI.
Qed.

(** X4. The removers returned by [OnKill] and by [OnSignal], called at any
    time later, unlink exactly the elements their registrations pushed, from
    the lists these were pushed to: the remover of [OnKill] its three
    elements, that of [OnSignal] its one.  Every list keeps its other
    elements in their order and the map is unchanged.  Hence the two
    removers can be called in either order, with the same lists as a
    result. *)
Theorem removers_commute
    (st : State) (cb1 : Callback) (sig : Z) (cb2 : Callback)
    (ops1 ops2 : list Op) :
  wf st →
  let r1 := fst (OnKill cb1 st) in
  let e1 := next_elem st in
  let st1 := run ops1 (snd (OnKill cb1 st)) in
  let r2 := fst (OnSignal sig cb2 st1) in
  let e2 := next_elem st1 in
  let st' := run ops2 (snd (OnSignal sig cb2 st1)) in
  (∀ u, lists (call_remover r1 st') u
        = filter (λ x, el_id x ∉ [e1; S e1; S (S e1)]) <$> lists st' u)
  ∧ (∀ u, lists (call_remover r2 (call_remover r1 st')) u
          = filter (λ x, el_id x ∉ [e1; S e1; S (S e1); e2]) <$> lists st' u)
  ∧ (∀ u, lists (call_remover r1 (call_remover r2 st')) u
          = filter (λ x, el_id x ∉ [e1; S e1; S (S e1); e2]) <$> lists st' u)
  ∧ cbsList (call_remover r2 (call_remover r1 st')) = cbsList st'
  ∧ cbsList (call_remover r1 (call_remover r2 st')) = cbsList st'
  ∧ heap (call_remover r1 (call_remover r2 st'))
    = heap (call_remover r2 (call_remover r1 st')).
Proof.
  intros Hwf r1 e1 st1 r2 e2 st'.
  destruct (OnKill_remover cb1 st Hwf) as (lK & lQ & lI & Hr1 & BK & BQ & BI).
  assert (Hwf1 : wf st1).
  { apply wf_run. apply (wf_step (OpOnKill cb1) st Hwf). }
  destruct (OnSignal_remover sig cb2 st1 (proj1 Hwf1) (proj1 (proj2 Hwf1)))
    as (l2 & Hr2 & _ & B2).
  assert (Hfwd : ∀ e l s cb, belongs e l s cb (snd (OnKill cb1 st)) →
                             belongs e l s cb st').
  { intros e l s cb H. apply belongs_run.
    apply (belongs_step _ _ _ _ (OpOnSignal sig cb2)). by apply belongs_run. }
  apply Hfwd in BK, BQ, BI. apply (belongs_run _ _ _ _ ops2) in B2.
  fold e1 in Hr1, BK, BQ, BI. fold e2 st' in Hr2, B2. fold r1 in Hr1. fold r2 in Hr2.
  clearbody r1 r2 e1 e2 st' st1. subst r1 r2.
  destruct BK as (_ & _ & _ & OK & _), BQ as (_ & _ & _ & OQ & _),
    BI as (_ & _ & _ & OI & _), B2 as (_ & _ & _ & O2 & _).
  set (r1 := RemoverOnKill [RemoverOnSignal lK e1; RemoverOnSignal lQ (S e1);
                            RemoverOnSignal lI (S (S e1))]).
  set (r2 := RemoverOnSignal l2 e2).
  assert (Honly : ∀ l e, (l, e) ∈ targets r1 ++ targets r2 →
            ∀ l' xs x, heap st' !! l' = Some xs → x ∈ xs → el_id x = e → l' = l).
  { intros l e Hin l' xs x Hxs Hx Hid. cbn in Hin.
    repeat (apply elem_of_cons in Hin as [[= -> ->]|Hin]);
      [by destruct (OK _ _ _ Hxs Hx Hid)|by destruct (OQ _ _ _ Hxs Hx Hid)
      |by destruct (OI _ _ _ Hxs Hx Hid)|by destruct (O2 _ _ _ Hxs Hx Hid)|].
    by apply elem_of_nil in Hin. }
  assert (H12 : ∀ u, lists (call_remover r2 (call_remover r1 st')) u
            = filter (λ x, el_id x ∉ [e1; S e1; S (S e1); e2]) <$> lists st' u).
  { intros u.
    change (call_remover r2 (call_remover r1 st'))
      with (call_remover (RemoverOnKill [r1; r2]) st').
    destruct (remover_lists (RemoverOnKill [r1; r2]) st') as [_ ->]; [|done].
    intros l e Hin. apply Honly. cbn [targets flat_map] in Hin |- *.
    by rewrite app_nil_r in Hin. }
  split_and!.
  - intros u. destruct (remover_lists r1 st') as [_ ->]; [|done].
    intros l e Hin. apply Honly, elem_of_app. by left.
  - exact H12.
  - intros u.
    change (call_remover r1 (call_remover r2 st'))
      with (call_remover (RemoverOnKill [r2; r1]) st').
    destruct (remover_lists (RemoverOnKill [r2; r1]) st') as [_ ->].
    { intros l e Hin. apply Honly. cbn [targets flat_map] in Hin |- *.
      rewrite app_nil_r in Hin. apply elem_of_app. rewrite elem_of_app in Hin.
      tauto. }
    destruct (lists st' u) as [xs|]; [|done].
    cbn [fmap option_fmap option_map]. f_equal. apply list_filter_iff.
    intros x. cbn. rewrite !elem_of_cons. tauto.
  - destruct (call_remover_frame r2 (call_remover r1 st')) as (-> & _).
    by destruct (call_remover_frame r1 st') as (-> & _).
  - destruct (call_remover_frame r1 (call_remover r2 st')) as (-> & _).
    by destruct (call_remover_frame r2 st') as (-> & _).
  - apply map_eq. intros l. rewrite !heap_call_remover.
    destruct (heap st' !! l) as [xs|]; [|done].
    cbn [fmap option_fmap option_map]. f_equal.
    rewrite !list_filter_filter. apply list_filter_iff. tauto.
Qed.

Lemma removers_commute_witness :
  wf init
  ∧ lists (call_remover (fst (OnKill 7 init))
             (call_remover
                (fst (OnSignal SIGINT 8 (run [OpOnKill 9] (snd (OnKill 7 init)))))
                (run [OpOnReload 3]
                   (snd (OnSignal SIGINT 8
                           (run [OpOnKill 9] (snd (OnKill 7 init))))))))
          SIGINT
    = Some [mkElement 5 (VCallback 9)].
Proof.
  destruct (removers_commute init 7 SIGINT 8 [OpOnKill 9] [OpOnReload 3] wf_init)
    as (_ & _ & H & _).
  split; [exact wf_init|]. rewrite H. vm_compute. reflexivity.
Defined.

(** ** The loop of the dispatcher *)

(** X5. The goroutine started by [init] handles the buffered signals oldest
    first, one per iteration.  With nothing buffered and the channel open it
    waits; once it has returned nothing it is given is handled any more. *)
Theorem dispatcher_fifo (st : State) (n m : nat) :
  (wait st ≠ 0 → n ≤ length (ch st) →
   run_loop n st = set_ch (drop n (ch st)) (dispatch_all (take n (ch st)) st))
  ∧ (wait st ≠ 0 → ch st = [] → ch_closed st = false → run_loop m st = st)
  ∧ (wait st = 0 → run_loop m st = st).
Proof.
  split_and!.
  - apply run_loop_drain.
  - intros Hw Hch Hc. induction m as [|m IH]; [done|].
    cbn [run_loop]. unfold loop_iter. rewrite Hch, Hc.
    destruct (wait st); [done|]. exact IH.
  - intros Hw. induction m as [|m IH]; [done|].
    cbn [run_loop]. unfold loop_iter. by rewrite Hw.
Qed.

Lemma dispatcher_fifo_witness :
  called
    (trace (run_loop 2
              (set_ch [SIGUSR1; SIGINT; SIGUSR1]
                 (snd (OnKill 7 (snd (OnReload 3 init)))))))
  = [3; 7]
  ∧ run_loop 5 init = init.
Proof.
  split.
  - destruct (dispatcher_fifo
                (set_ch [SIGUSR1; SIGINT; SIGUSR1]
                   (snd (OnKill 7 (snd (OnReload 3 init))))) 2 0) as (-> & _).
    + vm_compute. reflexivity.
    + discriminate.
    + vm_compute. lia.
  - destruct (dispatcher_fifo init 0 5) as (_ & H & _).
    apply H; [discriminate|reflexivity|reflexivity].
Defined.

(** ** A callback and its signal *)

(** X6. The element a registration creates is invoked only by the dispatch
    of the signal it was registered for, and what is invoked is the callback
    that was registered, whatever happens to the package afterwards.  So a
    callback registered with [OnReload] is never run by a termination
    signal or by [Deferrer], and one registered for a termination signal is
    never run by SIGUSR1. *)
Theorem callback_only_for_its_signal
    (st : State) (sig : Z) (cb : Callback) (ops : list Op) (s : Z) (cb' : Callback) :
  wf st →
  EvCall s (next_elem st) cb' ∈ trace (run ops (snd (OnSignal sig cb st))) →
  s = sig ∧ cb' = cb.
Proof.
  intros (Hreg & Htr & _) Hin.
  destruct (OnSignal_belongs sig cb st Hreg Htr) as [l Hb].
  assert (Hrun : belongs (next_elem st) l sig cb
                   (run ops (snd (OnSignal sig cb st)))).
  { revert Hb. apply run_preserves. intros op st'. apply belongs_step. }
  destruct Hrun as (_ & _ & _ & _ & H5). by apply H5.
Qed.

Lemma callback_only_for_its_signal_witness :
  wf (snd (OnKill 7 init))
  ∧ EvCall SIGUSR1 3 9
    ∈ trace (run [OpDeliver SIGUSR1; OpLoop; OpDeferrer None]
               (snd (OnSignal SIGUSR1 9 (snd (OnKill 7 init)))))
  ∧ (SIGUSR1 = SIGUSR1 ∧ 9 = 9).
Proof.
  assert (Hwf : wf (snd (OnKill 7 init))).
  { apply (wf_run [OpOnKill 7] init), wf_init. }
  assert (Hin : EvCall SIGUSR1 3 9
                ∈ trace (run [OpDeliver SIGUSR1; OpLoop; OpDeferrer None]
                           (snd (OnSignal SIGUSR1 9 (snd (OnKill 7 init)))))).
  { apply list_elem_of_In. vm_compute. tauto. }
  split; [exact Hwf|]. split; [exact Hin|].
  exact (callback_only_for_its_signal (snd (OnKill 7 init)) SIGUSR1 9
           [OpDeliver SIGUSR1; OpLoop; OpDeferrer None] SIGUSR1 9 Hwf Hin).
Defined.

(** ** Termination callbacks over a whole run *)

Lemma OnKill_lists cb st t :
  wf_reg st → is_termination t = true →
  ∃ e, lists (snd (OnKill cb st)) t
       = Some (default [] (lists st t) ++ [mkElement e (VCallback cb)]).
Proof.
  intros Hwf Ht. destruct signals_distinct as (N1 & N2 & N3 & N4 & N5 & N6).
  rewrite OnKill_eq. cbn [snd].
  set (st1 := snd (OnSignal SIGKILL cb st)).
  set (st2 := snd (OnSignal SIGQUIT cb st1)).
  assert (Hwf1 : wf_reg st1) by by apply wf_reg_OnSignal.
  assert (Hwf2 : wf_reg st2) by by apply wf_reg_OnSignal.
  destruct (OnSignal_spec SIGKILL cb st Hwf) as (l1 & _ & _ & _ & A3 & A4 & _).
  destruct (OnSignal_spec SIGQUIT cb st1 Hwf1) as (l2 & _ & _ & _ & B3 & B4 & _).
  destruct (OnSignal_spec SIGINT cb st2 Hwf2) as (l3 & _ & _ & _ & C3 & C4 & _).
  fold st1 in A3, A4, B3, B4. fold st2 in B3, B4, C3, C4.
  apply bool_decide_eq_true in Ht. destruct Ht as [-> | [-> | ->]].
  - eexists. by rewrite C4, B4, A3.
  - eexists. by rewrite C3, B4, A4.
  - eexists. by rewrite C4, B3, A4.
Qed.

Lemma run_app ops1 ops2 st : run (ops1 ++ ops2) st = run ops2 (run ops1 st).
Proof. unfold run. by rewrite fold_left_app. Qed.

Lemma OnKills_callbacks cbs st t :
  wf_reg st → is_termination t = true →
  wf_reg (run (OpOnKill <$> cbs) st)
  ∧ callbacks (default [] (lists (run (OpOnKill <$> cbs) st) t))
    = callbacks (default [] (lists st t)) ++ cbs.
Proof.
  intros Hwf Ht. revert st Hwf.
  induction cbs as [|cb cbs IH]; intros st Hwf.
  - cbn. by rewrite app_nil_r.
  - cbn [fmap list_fmap run fold_left step].
    destruct (IH (snd (OnKill cb st))) as [IH1 IH2]; [by apply wf_reg_OnKill|].
    split; [exact IH1|]. unfold run in IH2. rewrite IH2.
    destruct (OnKill_lists cb st t Hwf Ht) as [e ->].
    cbn [default from_option id]. rewrite callbacks_app.
    by rewrite <- (assoc_L (++)).
Qed.

(** X7. Callbacks registered with [OnKill], one after the other, run last
    registered first on each of SIGKILL, SIGINT and SIGQUIT, after whatever
    the list of that signal held.  In particular registrations made after a
    termination dispatch has emptied the lists run on the next one. *)
Theorem OnKill_LIFO (st : State) (cbs : list Callback) (t : Z) :
  wf st → is_termination t = true →
  called (dispatch_events [t] (run (OpOnKill <$> cbs) st))
  = reverse (callbacks (default [] (lists st t)) ++ cbs)
  ∧ (is_Some (lists st t) →
     called (dispatch_events [t]
               (run (OpOnKill <$> cbs) (processSignal t st)))
     = reverse cbs).
Proof.
  intros (Hwf & _ & _) Ht. split.
  - destruct (OnKills_callbacks cbs st t Hwf Ht) as [Hwf' Hcb].
    destruct (dispatch_one_called t _ Hwf') as [_ ->]. by rewrite Hcb.
  - intros [xs Hxs].
    destruct (OnKills_callbacks cbs (processSignal t st) t) as [Hwf' Hcb];
      [by apply wf_reg_processSignal|done|].
    destruct (dispatch_one_called t _ Hwf') as [_ ->]. rewrite Hcb.
    by rewrite (processSignal_truncated t st xs t).
Qed.

Lemma OnKill_LIFO_witness :
  wf init ∧ is_termination SIGQUIT = true
  ∧ called (dispatch_events [SIGQUIT] (run (OpOnKill <$> [1; 2; 3]) init))
    = [3; 2; 1].
Proof.
  split; [apply wf_init|]. split; [reflexivity|].
  exact (proj1 (OnKill_LIFO init [1; 2; 3] SIGQUIT wf_init eq_refl)).
Defined.

(** ** From registration to exit *)

Lemma pending_processSignal cbs t st :
  wf_reg st → is_termination t = true → pending cbs st →
  pending cbs (processSignal t st)
  ∧ called (trace (processSignal t st)) = reverse cbs.
Proof.
  intros Hwf Ht HP.
  destruct (dispatch_all_trace [t] st) as [Htr _].
  cbn [dispatch_all fold_left] in Htr.
  destruct (dispatch_one_called t st Hwf) as [_ Hc].
  assert (Hcalled : called (trace (processSignal t st)) = reverse cbs).
  { rewrite Htr, called_app, Hc. by apply HP. }
  split; [|done]. intros t' Ht'. rewrite Hcalled.
  pose proof (HP t Ht) as H1. pose proof (HP t' Ht') as H2.
  destruct (lists st t) as [xs|] eqn:Hxs.
  - rewrite (processSignal_truncated t st xs t') by done.
    cbn. by rewrite app_nil_r.
  - apply lists_None in Hxs; [|done].
    rewrite processSignal_None, lists_logs by done.
    cbn in H1. rewrite app_nil_r in H1. rewrite H1 in H2.
    rewrite <- (app_nil_r (reverse cbs)) in H2 at 2.
    apply app_inv_head in H2. by rewrite H2, app_nil_r.
Qed.

Lemma pending_dispatch_all cbs sigs st :
  wf_reg st → Forall (λ s, is_termination s = true) sigs → pending cbs st →
  wf_reg (dispatch_all sigs st) ∧ pending cbs (dispatch_all sigs st).
Proof.
  intros Hwf Hsigs. revert st Hwf.
  induction Hsigs as [|s sigs Hs _ IH]; intros st Hwf HP; [done|].
  cbn [dispatch_all fold_left]. apply IH; [by apply wf_reg_processSignal|].
  by apply pending_processSignal.
Qed.

Lemma OnSignal_quiet sig cb st :
  called (trace (snd (OnSignal sig cb st))) = called (trace st)
  ∧ (∀ s, s ∈ notified (snd (OnSignal sig cb st)) → s = sig ∨ s ∈ notified st).
Proof.
  destruct (cbsList st !! sig) as [l|] eqn:Hl.
  - rewrite (OnSignal_Some _ _ _ _ Hl). cbn [snd]. proj_logs. st_simpl.
    rewrite called_app. cbn. rewrite app_nil_r. auto.
  - rewrite (OnSignal_None _ _ _ Hl). cbn [snd]. proj_logs. st_simpl.
    rewrite called_app. cbn. rewrite app_nil_r. split; [done|].
    intros s [->%elem_of_singleton|?]%elem_of_union; auto.
Qed.

Lemma OnKills_quiet cbs st :
  let st' := run (OpOnKill <$> cbs) st in
  called (trace st') = called (trace st)
  ∧ ch st' = ch st ∧ ch_closed st' = ch_closed st
  ∧ (∀ s, s ∈ notified st' → is_termination s = true ∨ s ∈ notified st).
Proof.
  revert st. induction cbs as [|cb cbs IH]; intros st; [cbn; auto|].
  change (run (OpOnKill <$> cb :: cbs) st)
    with (run (OpOnKill <$> cbs) (snd (OnKill cb st))).
  pose proof (IH (snd (OnKill cb st))) as IH'. cbv zeta in *.
  destruct IH' as (-> & -> & -> & Hn).
  destruct (OnKill_frame cb st) as (-> & -> & _).
  rewrite OnKill_eq in *. cbn [snd] in *.
  destruct (OnSignal_quiet SIGKILL cb st) as [E1 N1].
  set (st1 := snd (OnSignal SIGKILL cb st)) in *.
  destruct (OnSignal_quiet SIGQUIT cb st1) as [E2 N2].
  set (st2 := snd (OnSignal SIGQUIT cb st1)) in *.
  destruct (OnSignal_quiet SIGINT cb st2) as [E3 N3].
  split_and!; [congruence|done|done|].
  intros s Hs. destruct (Hn s Hs) as [?|H3]; [by left|].
  destruct (N3 s H3) as [->|H2]; [by left|].
  destruct (N2 s H2) as [->|H1]; [by left|].
  destruct (N1 s H1) as [->|?]; [by left|by right].
Qed.

Lemma owed_processSignal cbs t st :
  wf_reg st → is_termination t = true → owed cbs st →
  owed cbs (processSignal t st)
  ∧ called (trace (processSignal t st)) ≡ₚ cbs.
Proof.
  intros Hwf Ht HP.
  destruct (dispatch_all_trace [t] st) as [Htr _].
  cbn [dispatch_all fold_left] in Htr.
  destruct (dispatch_one_called t st Hwf) as [_ Hc].
  assert (Hcalled : called (trace (processSignal t st))
                    = called (trace st)
                      ++ reverse (callbacks (default [] (lists st t)))).
  { by rewrite Htr, called_app, Hc. }
  split.
  - intros t' Ht'. rewrite Hcalled.
    destruct (lists st t) as [xs|] eqn:Hxs.
    + rewrite (processSignal_truncated t st xs t') by done.
      change (callbacks (default [] (Some []))) with (@nil Callback).
      rewrite app_nil_r, reverse_Permutation.
      specialize (HP t Ht). by rewrite Hxs in HP.
    + apply lists_None in Hxs; [|done].
      rewrite processSignal_None, lists_logs by done.
      change (reverse (callbacks (default [] None))) with (@nil Callback).
      rewrite app_nil_r. by apply HP.
  - rewrite Hcalled, reverse_Permutation. by apply HP.
Qed.

Lemma owed_dispatch_all cbs sigs st :
  wf_reg st → Forall (λ s, is_termination s = true) sigs → owed cbs st →
  owed cbs (dispatch_all sigs st).
Proof.
  intros Hwf Hsigs. revert st Hwf.
  induction Hsigs as [|s sigs Hs _ IH]; intros st Hwf HP; [done|].
  cbn [dispatch_all fold_left]. apply IH; [by apply wf_reg_processSignal|].
  by apply owed_processSignal.
Qed.

Lemma owed_OnKill cbs cb st :
  wf_reg st → owed cbs st → owed (cbs ++ [cb]) (snd (OnKill cb st)).
Proof.
  intros Hwf HP t Ht.
  destruct (OnKills_quiet [cb] st) as (Hc & _).
  change (run (OpOnKill <$> [cb]) st) with (snd (OnKill cb st)) in Hc.
  destruct (OnKill_lists cb st t Hwf Ht) as [e ->]. rewrite Hc.
  cbn [default from_option id]. rewrite callbacks_app. cbn.
  rewrite (assoc_L (++)). by rewrite (HP t Ht).
Qed.

Lemma armed_init : armed init.
Proof.
  split; [apply wf_init|]. split; [done|]. split; [constructor|].
  intros s Hs. cbn in Hs. set_solver.
Qed.

Lemma armed_OnKill cb st : armed st → armed (snd (OnKill cb st)).
Proof.
  intros (Hwf & Hcl & Hch & Hn).
  destruct (OnKills_quiet [cb] st) as (_ & Hch' & Hcl' & Hn').
  change (run (OpOnKill <$> [cb]) st) with (snd (OnKill cb st)) in *.
  split; [apply (wf_step (OpOnKill cb) st Hwf)|].
  split; [by rewrite Hcl'|]. split; [by rewrite Hch'|].
  intros s [?|?]%Hn'; auto.
Qed.

(** An arrival keeps what dispatches of termination signals keep. *)
Lemma arrival_step (P : State → Prop) op st :
  (∀ q st, P st → P (set_ch q st)) →
  (∀ t st, wf_reg st → is_termination t = true → P st → P (processSignal t st)) →
  is_arrival op = true → armed st → P st →
  armed (step op st) ∧ P (step op st).
Proof.
  intros Hset Hproc Hop (Hwf & Hcl & Hch & Hn) HP.
  pose proof (wf_step op st Hwf) as Hwf'.
  destruct op as [| | | |s| |]; try discriminate Hop; cbn [step] in *.
  - unfold deliver in *. case_bool_decide as Hs; [|by split_and!].
    rewrite Hcl in *. destruct (length (ch st) <? cap_ch); [|by split_and!].
    split; [|by apply Hset]. unfold armed. split_and!; try done. st_simpl.
    apply Forall_app. split; [done|].
    constructor; [by apply Hn|constructor].
  - unfold loop_iter in *. destruct (wait st); [by split_and!|].
    destruct (ch st) as [|s q] eqn:Hq.
    { rewrite Hcl in *. split; [|done]. unfold armed.
      split_and!; try done. by rewrite Hq. }
    rewrite processSignal_set_ch in *.
    destruct (processSignal_frame s st) as (_ & Hcl' & _ & Hn' & _).
    apply Forall_cons in Hch as [Hs Hq'].
    split; [|by apply Hset, Hproc; [apply Hwf|..]]. unfold armed.
    split_and!; [done|by st_simpl; rewrite Hcl'|by st_simpl|].
    st_simpl. by rewrite Hn'.
Qed.

Lemma arrival_run (P : State → Prop) ops st :
  (∀ q st, P st → P (set_ch q st)) →
  (∀ t st, wf_reg st → is_termination t = true → P st → P (processSignal t st)) →
  Forall (λ op, is_arrival op = true) ops → armed st → P st →
  armed (run ops st) ∧ P (run ops st).
Proof.
  intros Hset Hproc Hops. revert st.
  induction Hops as [|op ops Hop _ IH]; intros st Ha HP; [done|].
  cbn [run fold_left].
  destruct (arrival_step P op st Hset Hproc Hop Ha HP) as [Ha' HP'].
  by apply IH.
Qed.

Lemma kills_snoc ops op :
  kills (ops ++ [op])
  = kills ops ++ match op with OpOnKill cb => [cb] | _ => [] end.
Proof. unfold kills. rewrite omap_app. by destruct op. Qed.

Lemma owed_run ops :
  Forall (λ op, is_kill_or_arrival op = true) ops →
  armed (run ops init) ∧ owed (kills ops) (run ops init).
Proof.
  induction ops as [|op ops IH] using rev_ind; intros Hops.
  - split; [apply armed_init|]. intros t Ht. unfold lists. cbn.
    by rewrite lookup_empty.
  - apply Forall_app in Hops as [Hops Hop]. apply Forall_cons in Hop as [Hop _].
    destruct (IH Hops) as [Ha Ho]. rewrite run_snoc, kills_snoc.
    destruct op as [|?|cb| |s| |]; try discriminate Hop; cbn [step].
    + split; [by apply armed_OnKill|]. apply owed_OnKill; [apply Ha|done].
    + rewrite app_nil_r.
      apply (arrival_step (owed (kills ops)) (OpDeliver s)); try done.
      intros t st Hwf Ht HP. by apply owed_processSignal.
    + rewrite app_nil_r.
      apply (arrival_step (owed (kills ops)) OpLoop); try done.
      intros t st Hwf Ht HP. by apply owed_processSignal.
Qed.

Lemma pending_run cbs arr :
  Forall (λ op, is_arrival op = true) arr →
  armed (run ((OpOnKill <$> cbs) ++ arr) init)
  ∧ pending cbs (run ((OpOnKill <$> cbs) ++ arr) init).
Proof.
  intros Harr. rewrite run_app.
  apply arrival_run; [done| |done| |].
  - intros t st Hwf Ht HP. by apply pending_processSignal.
  - apply owed_run. apply Forall_fmap, Forall_forall. by intros cb _.
  - intros t Ht. destruct (OnKills_quiet cbs init) as (-> & _).
    by destruct (OnKills_callbacks cbs init t wf_reg_init Ht) as [_ ->].
Qed.

(** The callbacks invoked up to the return of [Deferrer] are those invoked
    once the buffered signals and then SIGINT have been dispatched. *)
Lemma Deferrer_called err st :
  wf st → ch_closed st = false →
  called (trace (snd (Deferrer err st)))
  = called (trace (processSignal SIGINT (dispatch_all (ch st) st))).
Proof.
  intros Hwf Hcl.
  rewrite (later_new_events _ _ (later_Deferrer err st)), called_app.
  destruct (Deferrer_registry err st Hwf Hcl) as (_ & -> & _).
  rewrite <- called_app.
  destruct (dispatch_all_trace (ch st ++ [SIGINT]) st) as [<- _].
  by rewrite dispatch_all_app.
Qed.

(** X8. Take any history from the initial state made of whole calls of
    [OnKill], deliveries of signals and iterations of the dispatcher, in any
    order, and let [Deferrer] run after it.  Every callback registered has
    then been invoked exactly once: the callbacks invoked are those
    registered, up to their order.  When all registrations come before the
    first arrival, they are invoked in the reverse of the order of
    registration.  [Deferrer] returns, or exits with status 1 when it
    recovered a panic.  This needs the calls of [OnKill] to be whole:
    [OnKill] makes three registrations, and when SIGQUIT is dispatched
    between the second and the third, the callback is invoked for SIGQUIT
    and again by [Deferrer]. *)
Theorem cleanup_exactly_once
    (ops : list Op) (cbs : list Callback) (arr : list Op) (cb : Callback)
    (err : option string) :
  Forall (λ op, is_kill_or_arrival op = true) ops →
  let st := run ops init in
  called (trace (snd (Deferrer err st))) ≡ₚ kills ops
  ∧ (ops = (OpOnKill <$> cbs) ++ arr →
     Forall (λ op, is_arrival op = true) arr →
     called (trace (snd (Deferrer err st))) = reverse cbs)
  ∧ fst (Deferrer err st)
    = match err with Some _ => Exited 1 | None => Returned end
  ∧ called (trace (snd (Deferrer err
               (run [OpOnSignal SIGKILL cb; OpOnSignal SIGQUIT cb;
                     OpDeliver SIGQUIT; OpLoop; OpOnSignal SIGINT cb] init))))
    = [cb; cb].
Proof.
  intros Hops st. destruct (owed_run ops Hops) as [Ha Ho]. fold st in Ha, Ho.
  destruct Ha as (Hwf & Hcl & Hch & Hn). split_and!.
  - rewrite Deferrer_called by done.
    apply owed_processSignal; [|done|].
    + apply wf_reg_dispatch_all, Hwf.
    + apply owed_dispatch_all; [apply Hwf|done..].
  - intros -> Harr. destruct (pending_run cbs arr Harr) as [_ HP].
    fold st in HP. rewrite Deferrer_called by done.
    destruct (pending_dispatch_all cbs (ch st) st) as [Hwf' HP'];
      [apply Hwf|done..|].
    by apply pending_processSignal.
  - destruct Hwf as (_ & _ & [_ Hwait]). rewrite Hcl in Hwait.
    destruct (Deferrer_open err st Hcl Hwait) as (? & ? & ? & -> & _).
    by destruct err.
  - destruct err; vm_compute; reflexivity.
Qed.

Lemma cleanup_exactly_once_witness :
  Forall (λ op, is_kill_or_arrival op = true)
    [OpOnKill 1; OpDeliver SIGQUIT; OpLoop; OpOnKill 2; OpDeliver SIGINT]
  ∧ called (trace (snd (Deferrer None
               (run [OpOnKill 1; OpDeliver SIGQUIT; OpLoop; OpOnKill 2;
                     OpDeliver SIGINT] init))))
    ≡ₚ [1; 2]
  ∧ called (trace (snd (Deferrer None
               (run [OpOnKill 1; OpDeliver SIGQUIT; OpLoop; OpOnKill 2;
                     OpDeliver SIGINT] init))))
    = [1; 2].
Proof.
  assert (H : Forall (λ op, is_kill_or_arrival op = true)
                [OpOnKill 1; OpDeliver SIGQUIT; OpLoop; OpOnKill 2;
                 OpDeliver SIGINT]) by (by repeat constructor).
  split; [exact H|]. split; [|vm_compute; reflexivity].
  exact (proj1 (cleanup_exactly_once _ [] [] 0 None H)).
Defined.

(** ** What is printed, and when [signal.Notify] is called *)

Lemma quiet_refl st : quiet st st.
Proof. exists []. by rewrite app_nil_r. Qed.

Lemma quiet_trans st1 st2 st3 : quiet st1 st2 → quiet st2 st3 → quiet st1 st3.
Proof.
  intros (evs1 & H1 & F1) (evs2 & H2 & F2). exists (evs1 ++ evs2).
  split; [by rewrite H2, H1, (assoc_L (++))|]. by apply Forall_app.
Qed.

Lemma quiet_log ev st : is_quiet ev = true → quiet st (log ev st).
Proof. intros H. exists [ev]. split; [done|]. by repeat constructor. Qed.

Lemma quiet_same st st' : trace st' = trace st → quiet st st'.
Proof. intros H. exists []. by rewrite app_nil_r. Qed.

Lemma quiet_processSignal s st : wf_reg st → quiet st (processSignal s st).
Proof.
  intros Hwf. exists (dispatch_events [s] st).
  destruct (dispatch_all_trace [s] st) as [Htr _]. split; [exact Htr|].
  rewrite dispatch_events_wf by done.
  constructor; [done|]. apply Forall_app. split; [|by repeat constructor].
  apply Forall_fmap, Forall_reverse.
  assert (Forall (λ x, Value x ≠ VOther) (default [] (lists st s))) as Hval.
  { destruct (lists st s) as [xs|] eqn:Hxs; [|constructor].
    by eapply lists_values. }
  eapply Forall_impl; [exact Hval|]. intros x Hx. cbv beta in Hx.
  unfold compose, call_event. by destruct (Value x).
Qed.

Lemma quiet_dispatch_all sigs st :
  wf_reg st → Forall (λ ev, is_quiet ev = true) (dispatch_events sigs st).
Proof.
  intros Hwf.
  cut (quiet st (dispatch_all sigs st)).
  { intros (evs & Ht & HF). destruct (dispatch_all_trace sigs st) as [Htr _].
    rewrite Htr in Ht. by apply app_inv_head in Ht as ->. }
  revert st Hwf. induction sigs as [|s sigs IH]; intros st Hwf; [apply quiet_refl|].
  cbn [dispatch_all fold_left].
  eapply quiet_trans; [by apply quiet_processSignal|].
  apply IH. by apply wf_reg_processSignal.
Qed.

Lemma quiet_call_remover r st : quiet st (call_remover r st).
Proof.
  apply (call_remover_preserves (quiet st)); [|apply quiet_refl].
  intros l e st' H. eapply quiet_trans; [exact H|].
  exists [EvLock; EvUnlock]. st_simpl. split; [|by repeat constructor].
  by rewrite <- (assoc_L (++)).
Qed.

Lemma quiet_deliver s st : quiet st (deliver s st).
Proof.
  unfold deliver. case_bool_decide; [|apply quiet_refl].
  destruct (ch_closed st); [by apply quiet_log|].
  destruct (length (ch st) <? cap_ch); [by apply quiet_same|apply quiet_refl].
Qed.

Lemma quiet_loop_iter st : wf_reg st → quiet st (loop_iter st).
Proof.
  intros Hwf. unfold loop_iter. destruct (wait st); [apply quiet_refl|].
  destruct (ch st) as [|s q].
  - destruct (ch_closed st); [|apply quiet_refl].
    unfold wait_Done. eapply quiet_trans; [|by apply quiet_log]. by apply quiet_same.
  - rewrite processSignal_set_ch.
    destruct (quiet_processSignal s st Hwf) as (evs & Ht & HF). by exists evs.
Qed.

Lemma OnSignal_trace sig cb st :
  trace (snd (OnSignal sig cb st))
  = trace st ++ match cbsList st !! sig with
                | Some _ => [EvLock; EvUnlock]
                | None => [EvLock; EvNotify sig; EvUnlock]
                end.
Proof.
  by rewrite (later_new_events _ _ (later_OnSignal sig cb st)), OnSignal_events.
Qed.

Lemma report_events err st :
  trace (report err st)
  = trace st ++ match err with
                | Some e =>
                    [EvPrintf "Panic received, attempting gracefull exit\nError:\n%s" [e];
                     EvPrintStack]
                | None => []
                end.
Proof.
  destruct err; cbn [report]; st_simpl; [|by rewrite app_nil_r].
  by rewrite <- (assoc_L (++)).
Qed.

(** After its report, [Deferrer] adds quiet events only. *)
Lemma Deferrer_trace err st :
  wf st →
  ∃ evs, trace (snd (Deferrer err st)) = trace (report err st) ++ evs
         ∧ Forall (λ ev, is_quiet ev = true) evs.
Proof.
  intros (Hreg & _ & [_ Hwait]).
  destruct (ch_closed st) eqn:Hcl.
  - rewrite (Deferrer_closed _ _ Hcl).
    destruct err; cbn [snd]; st_simpl.
    + exists [EvStop; EvExit 1]. split; [|by repeat constructor].
      by rewrite <- !(assoc_L (++)).
    + exists [EvStop]. split; [done|by repeat constructor].
  - destruct (Deferrer_open err st Hcl Hwait)
      as (evs1 & evs2 & st' & -> & Ht & Hev & _).
    pose proof (quiet_dispatch_all (ch st ++ [SIGINT]) st Hreg) as HF.
    rewrite <- Hev in HF. apply Forall_app in HF as [HF1 HF2].
    destruct err; cbn [snd]; st_simpl; rewrite Ht.
    + exists ([EvStop] ++ evs1 ++ [EvClose] ++ evs2 ++ [EvDone] ++ [EvExit 1]).
      split; [by rewrite <- !(assoc_L (++))|].
      repeat (apply Forall_app; split); by repeat constructor.
    + exists ([EvStop] ++ evs1 ++ [EvClose] ++ evs2 ++ [EvDone]).
      split; [done|].
      repeat (apply Forall_app; split); by repeat constructor.
Qed.

Lemma quiet_no_print evs format args :
  Forall (λ ev, is_quiet ev = true) evs → EvPrintf format args ∉ evs.
Proof.
  intros HF Hin. rewrite Forall_forall in HF. by specialize (HF _ Hin).
Qed.

Lemma quiet_OnSignal_print sig cb st format args :
  EvPrintf format args ∉ new_events st (snd (OnSignal sig cb st)).
Proof.
  rewrite OnSignal_events. destruct (cbsList st !! sig);
    rewrite !elem_of_cons, elem_of_nil; intuition discriminate.
Qed.

Lemma new_events_trans st1 st2 st3 :
  later st1 st2 → later st2 st3 →
  new_events st1 st3 = new_events st1 st2 ++ new_events st2 st3.
Proof.
  intros H12 H23. apply new_events_app.
  rewrite (later_new_events _ _ H23), (later_new_events _ _ H12).
  by rewrite (assoc_L (++)).
Qed.

Lemma step_prints op st format args :
  wf st →
  EvPrintf format args ∈ new_events st (step op st) →
  format = "Panic received, attempting gracefull exit\nError:\n%s"
  ∧ ∃ e, args = [e] ∧ op = OpDeferrer (Some e).
Proof.
  intros Hwf Hin.
  assert (Hq : quiet st (step op st) → False).
  { intros (evs & Ht & HF). rewrite (new_events_app _ _ _ Ht) in Hin.
    by apply (quiet_no_print _ _ _ HF) in Hin. }
  destruct op as [sig cb|cb|cb|r|s| |err]; cbn [step] in *.
  - by apply quiet_OnSignal_print in Hin.
  - by apply quiet_OnSignal_print in Hin.
  - rewrite OnKill_eq in Hin. cbn [snd] in Hin.
    set (st1 := snd (OnSignal SIGKILL cb st)) in *.
    set (st2 := snd (OnSignal SIGQUIT cb st1)) in *.
    rewrite (new_events_trans st st2), (new_events_trans st st1 st2) in Hin
      by eauto using later_OnSignal, later_trans.
    rewrite !elem_of_app in Hin.
    destruct Hin as [[Hin|Hin]|Hin]; by apply quiet_OnSignal_print in Hin.
  - destruct Hq. apply quiet_call_remover.
  - destruct Hq. apply quiet_deliver.
  - destruct Hq. apply quiet_loop_iter, Hwf.
  - destruct (Deferrer_trace err st Hwf) as (evs & Ht & HF).
    rewrite report_events, <- (assoc_L (++)) in Ht.
    rewrite (new_events_app _ _ _ Ht) in Hin.
    apply elem_of_app in Hin as [Hin|Hin];
      [|by apply (quiet_no_print _ _ _ HF) in Hin].
    destruct err as [e|]; [|by apply elem_of_nil in Hin].
    rewrite !elem_of_cons, elem_of_nil in Hin.
    destruct Hin as [Hin|[Hin|[]]]; [|done]. simplify_eq. eauto.
Qed.

(** X9. The package prints one message only: the panic report of
    [Deferrer], with the recovered value.  The message of [processSignal]
    for a list item that is not a callback is never printed, since only
    [OnSignal] fills the lists, with callbacks. *)
Theorem only_panic_report
    (st : State) (ops : list Op) (format : string) (args : list string) :
  wf st →
  EvPrintf format args ∈ new_events st (run ops st) →
  format = "Panic received, attempting gracefull exit\nError:\n%s"
  ∧ ∃ e, args = [e] ∧ OpDeferrer (Some e) ∈ ops.
Proof.
  revert st. induction ops as [|op ops IH]; intros st Hwf Hin.
  - unfold new_events in Hin. cbn [run fold_left] in Hin.
    rewrite drop_all in Hin. by apply elem_of_nil in Hin.
  - change (run (op :: ops) st) with (run ops (step op st)) in Hin.
    rewrite (new_events_trans st (step op st)) in Hin
      by auto using later_step, later_run.
    apply elem_of_app in Hin as [Hin|Hin].
    + destruct (step_prints op st format args Hwf Hin) as (-> & e & -> & ->).
      split; [done|]. exists e. split; [done|]. apply elem_of_cons. by left.
    + destruct (IH (step op st) (wf_step op st Hwf) Hin) as (-> & e & -> & He).
      split; [done|]. exists e. split; [done|]. apply elem_of_cons. by right.
Qed.

Lemma only_panic_report_witness :
  wf init
  ∧ EvPrintf "Panic received, attempting gracefull exit\nError:\n%s" ["boom"]
    ∈ new_events init (run [OpOnKill 1; OpDeferrer (Some "boom")] init)
  ∧ ∃ e, ["boom"] = [e]
         ∧ OpDeferrer (Some e) ∈ [OpOnKill 1; OpDeferrer (Some "boom")].
Proof.
  assert (Hin : EvPrintf "Panic received, attempting gracefull exit\nError:\n%s" ["boom"]
                ∈ new_events init (run [OpOnKill 1; OpDeferrer (Some "boom")] init)).
  { apply list_elem_of_In. vm_compute. tauto. }
  split; [apply wf_init|]. split; [exact Hin|].
  exact (proj2 (only_panic_report init [OpOnKill 1; OpDeferrer (Some "boom")]
                  _ _ wf_init Hin)).
Defined.

Lemma notifies_app evs1 evs2 :
  notifies (evs1 ++ evs2) = notifies evs1 ++ notifies evs2.
Proof. apply omap_app. Qed.

Lemma quiet_notifies evs :
  Forall (λ ev, is_quiet ev = true) evs → notifies evs = [].
Proof.
  induction 1 as [|ev evs Hev _ IH]; [done|].
  destruct ev; try discriminate Hev; exact IH.
Qed.

Lemma OnSignal_cbsList_ne sig cb st t :
  t ≠ sig → cbsList (snd (OnSignal sig cb st)) !! t = cbsList st !! t.
Proof.
  intros Ht. destruct (cbsList st !! sig) as [l|] eqn:Hl.
  - by rewrite (OnSignal_keep _ _ _ _ Hl).
  - rewrite (OnSignal_None _ _ _ Hl). cbn [snd]. rewrite cbsList_logs.
    st_simpl. by rewrite lookup_insert_ne.
Qed.

(** [OnSignal] calls [signal.Notify] when, and only when, the signal has no
    list. *)
Lemma OnSignal_notifies sig cb st :
  ∃ ns, notifies (trace (snd (OnSignal sig cb st))) = notifies (trace st) ++ ns
        ∧ NoDup ns
        ∧ ∀ s, s ∈ ns ↔ s = sig ∧ cbsList st !! s = None.
Proof.
  rewrite OnSignal_trace, notifies_app.
  destruct (cbsList st !! sig) as [l|] eqn:Hl.
  - exists []. split; [done|]. split; [constructor|].
    intros s. rewrite elem_of_nil. split; [done|]. intros [-> H]. congruence.
  - exists [sig]. split; [done|]. split; [apply NoDup_singleton|].
    intros s. rewrite list_elem_of_singleton. split; [by intros ->|by intros []].
Qed.

Lemma step_notifies op st :
  wf st →
  ∃ ns, notifies (trace (step op st)) = notifies (trace st) ++ ns
        ∧ NoDup ns
        ∧ ∀ s, s ∈ ns ↔ registers s op = true ∧ cbsList st !! s = None.
Proof.
  intros Hwf.
  assert (Hquiet : ∀ st', (∀ s, registers s op = false) →
            quiet st st' →
            ∃ ns, notifies (trace st') = notifies (trace st) ++ ns
                  ∧ NoDup ns
                  ∧ ∀ s, s ∈ ns ↔ registers s op = true ∧ cbsList st !! s = None).
  { intros st' Hr (evs & -> & HF). exists [].
    rewrite notifies_app, (quiet_notifies _ HF). split; [done|].
    split; [constructor|]. intros s. rewrite elem_of_nil, Hr.
    split; [done|]. by intros []. }
  destruct op as [sig cb|cb|cb|r|s0| |err]; cbn [step].
  - destruct (OnSignal_notifies sig cb st) as (ns & -> & Hnd & Hns).
    exists ns. split; [done|]. split; [done|]. intros s. rewrite Hns. cbn.
    rewrite bool_decide_eq_true. intuition congruence.
  - unfold OnReload.
    destruct (OnSignal_notifies SIGUSR1 cb st) as (ns & -> & Hnd & Hns).
    exists ns. split; [done|]. split; [done|]. intros s. rewrite Hns. cbn.
    by rewrite bool_decide_eq_true.
  - destruct signals_distinct as (N1 & N2 & N3 & N4 & N5 & N6).
    rewrite OnKill_eq. cbn [snd].
    pose proof (OnSignal_cbsList_ne SIGKILL cb st SIGQUIT N4) as E2.
    pose proof (OnSignal_cbsList_ne SIGKILL cb st SIGINT N5) as E3.
    destruct (OnSignal_notifies SIGKILL cb st) as (ns1 & T1 & D1 & M1).
    set (st1 := snd (OnSignal SIGKILL cb st)) in *.
    pose proof (OnSignal_cbsList_ne SIGQUIT cb st1 SIGINT N6) as E3'.
    destruct (OnSignal_notifies SIGQUIT cb st1) as (ns2 & T2 & D2 & M2).
    set (st2 := snd (OnSignal SIGQUIT cb st1)) in *.
    destruct (OnSignal_notifies SIGINT cb st2) as (ns3 & T3 & D3 & M3).
    exists (ns1 ++ ns2 ++ ns3).
    split; [by rewrite T3, T2, T1, <- !(assoc_L (++))|].
    split.
    + apply NoDup_app. split; [done|]. split.
      * intros s [-> _]%M1 [[? _]%M2|[? _]%M3]%elem_of_app; congruence.
      * apply NoDup_app. split; [done|]. split; [|done].
        intros s [-> _]%M2 [? _]%M3. congruence.
    + intros s. rewrite !elem_of_app, M1, M2, M3. cbn. unfold is_termination.
      rewrite bool_decide_eq_true. split.
      * intros [[-> H]|[[-> H]|[-> H]]]; (split; [auto|congruence]).
      * intros [[-> | [-> | ->]] H]; [auto| |]; right; [right|left];
          (split; [done|congruence]).
  - apply Hquiet; [done|apply quiet_call_remover].
  - apply Hquiet; [done|apply quiet_deliver].
  - apply Hquiet; [done|apply quiet_loop_iter, Hwf].
  - destruct (Deferrer_trace err st Hwf) as (evs & -> & HF).
    exists []. rewrite notifies_app, (quiet_notifies _ HF), report_events.
    rewrite notifies_app. split; [destruct err; cbn; by rewrite !app_nil_r|].
    split; [constructor|]. intros s. rewrite elem_of_nil. cbn.
    split; [done|]. by intros [].
Qed.

(** X10. [signal.Notify] is called at most once for a signal, and only by a
    registration for that signal.  For a signal other than SIGKILL, SIGINT
    and SIGQUIT it is called as soon as a callback is registered; for these
    three the first registration may find a list that a termination
    dispatch left, and then the signal is never relayed. *)
Theorem Notify_once (ops : list Op) :
  let tr := trace (run ops init) in
  NoDup (notifies tr)
  ∧ ∀ s, (s ∈ notifies tr → ever_registered s ops = true)
         ∧ (is_termination s = false → ever_registered s ops = true →
            s ∈ notifies tr).
Proof.
  cbv zeta. induction ops as [|op ops [IHnd IH]] using rev_ind.
  - cbn. split; [constructor|]. intros s. rewrite elem_of_nil. by split.
  - rewrite run_snoc.
    destruct (step_notifies op (run ops init) (wf_run ops init wf_init))
      as (ns & -> & Hnd & Hns).
    split.
    + apply NoDup_app. split; [done|]. split; [|done].
      intros s Hs [_ Hnone]%Hns. apply IH in Hs.
      apply (run_is_Some ops s) in Hs. rewrite Hnone in Hs. by destruct Hs.
    + intros s. rewrite ever_registered_snoc, elem_of_app, orb_true_iff, Hns.
      destruct (IH s) as [IH1 IH2]. split; [tauto|].
      intros Ht [Hr|Hr]; [auto|].
      destruct (cbsList (run ops init) !! s) as [l|] eqn:Hl; [|auto].
      left. apply IH2; [done|].
      destruct (proj2 (run_is_Some ops s)) as [?|[Ht' _]]; [by rewrite Hl|done|].
      congruence.
Qed.

Lemma Notify_once_witness :
  let ops := [OpOnReload 1; OpOnKill 2; OpOnReload 3] in
  NoDup (notifies (trace (run ops init)))
  ∧ SIGUSR1 ∈ notifies (trace (run ops init)).
Proof.
  intros ops. destruct (Notify_once ops) as [Hnd H].
  split; [exact Hnd|]. apply (H SIGUSR1); reflexivity.
Defined.

(** ** The signals that reach the dispatcher *)

(** One operation relays no signal but those it registers, and buffers no
    signal but those relayed. *)
Lemma step_relays op st :
  wf st →
  (∀ s, s ∈ notified (step op st) → s ∈ notified st ∨ registers s op = true)
  ∧ (∀ s, s ∈ ch (step op st) → s ∈ ch st ∨ s ∈ notified st).
Proof.
  intros Hwf.
  destruct op as [sig cb|cb|cb|r|s0| |err]; cbn [step registers].
  - destruct (OnSignal_quiet sig cb st) as [_ Hn].
    destruct (OnSignal_frame sig cb st) as (-> & _). split; [|auto].
    intros s [->|?]%Hn; [right|by left]. by apply bool_decide_eq_true.
  - unfold OnReload. destruct (OnSignal_quiet SIGUSR1 cb st) as [_ Hn].
    destruct (OnSignal_frame SIGUSR1 cb st) as (-> & _). split; [|auto].
    intros s [->|?]%Hn; [right|by left]. by apply bool_decide_eq_true.
  - destruct (OnKills_quiet [cb] st) as (_ & Hch & _ & Hn).
    change (run (OpOnKill <$> [cb]) st) with (snd (OnKill cb st)) in *.
    rewrite Hch. split; [|auto]. intros s [?|?]%Hn; auto.
  - destruct (call_remover_frame r st) as (_ & _ & _ & -> & _ & _ & ->). auto.
  - unfold deliver. case_bool_decide as Hs; [|auto].
    destruct (ch_closed st); [st_simpl; auto|].
    destruct (length (ch st) <? cap_ch); st_simpl; [|auto].
    split; [auto|]. intros s [?|Hs0]%elem_of_app; [auto|].
    apply list_elem_of_singleton in Hs0 as ->. auto.
  - unfold loop_iter. destruct (wait st); [auto|].
    destruct (ch st) as [|s0 q] eqn:Hq.
    + destruct (ch_closed st); st_simpl; rewrite ?Hq; auto.
    + rewrite processSignal_set_ch. st_simpl.
      destruct (processSignal_frame s0 st) as (_ & _ & _ & -> & _).
      split; [auto|]. intros s Hs. left. apply elem_of_cons. by right.
  - destruct (ch_closed st) eqn:Hcl.
    + destruct (Deferrer_closed_registry err st Hcl) as (_ & _ & -> & -> & _).
      split; [|auto]. by intros s ?%elem_of_empty.
    + destruct (Deferrer_open_frame err st Hwf Hcl) as (-> & _ & _ & ->).
      split; [by intros s ?%elem_of_empty|by intros s ?%elem_of_nil].
Qed.

(** X11. Whatever the program and the OS do, a signal that is relayed to
    the channel, or waits in it, has a callback list: the dispatcher never
    receives from the OS a signal that [cbsList] does not know.  (The SIGINT
    that [Deferrer] sends itself is dispatched before [Deferrer] returns.) *)
Theorem relayed_signals_have_lists (ops : list Op) :
  let st := run ops init in
  ∀ s, (s ∈ notified st → is_Some (cbsList st !! s))
       ∧ (s ∈ ch st → is_Some (cbsList st !! s)).
Proof.
  cbv zeta. induction ops as [|op ops IH] using rev_ind.
  - intros s. cbn. split; [by intros ?%elem_of_empty|by intros ?%elem_of_nil].
  - intros s. rewrite run_snoc.
    destruct (step_relays op (run ops init) (wf_run ops init wf_init))
      as [Hn Hc].
    destruct (step_is_Some op (run ops init) s) as (S1 & S2 & _).
    destruct (IH s) as [IH1 IH2]. split.
    + intros [?|?]%Hn; auto.
    + intros [?|?]%Hc; auto.
Qed.

Lemma relayed_signals_have_lists_witness :
  let st := run [OpOnKill 1; OpDeliver SIGINT] init in
  SIGINT ∈ ch st ∧ is_Some (cbsList st !! SIGINT).
Proof.
  intros st.
  assert (Hin : SIGINT ∈ ch st) by (apply list_elem_of_In; vm_compute; tauto).
  split; [exact Hin|].
  exact (proj2 (relayed_signals_have_lists _ SIGINT) Hin).
Defined.
